(** * desi-docker-example: the fetch-and-cache, upload and re-run scripts

    A shallow embedding of five scripts of the repository:

    - [file-fetch-caching.py]  ([fetch_s3_file], [main]),
    - [s3_example_upload.py]   ([upload_file_to_s3_if_not_exists] and the
                                loop over the files),
    - [test-retry.py]          ([run_script_every_5_seconds]),
    - [main.py]                ([load_display_img]),
    - [data_upload.py]         ([upload_to_s3]),

    together with the part of their environment they talk to: POSIX path
    strings ([posixpath]), a file system with path resolution ([os]), an
    HTTP endpoint ([requests]), an object store client and a child process.

    The file system is a finite map from locations to nodes; a location is
    the stack of names leading to a node, innermost name first, so the
    parent of a location is its tail and the root is [[]].  There are no
    symbolic links, permissions or quotas in the model.  Paths are resolved
    the way the kernel does it: every component but the last has to be an
    existing directory, [.] and empty components stay in place and [..]
    moves to the parent. *)

From Stdlib Require Import ZArith Lia Ascii String.
From stdpp Require Import base option list strings gmap.

Open Scope Z_scope.
Open Scope string_scope.
Open Scope list_scope.

(** ** Exceptions and the state-and-exception monad *)

Inductive errno := ENOENT | EEXIST | ENOTDIR | EISDIR.

(** The Python exceptions the fetch script can meet.  [OSError ENOENT] is
    [FileNotFoundError], [OSError EEXIST] is [FileExistsError], and so on;
    [ValueError] is what [os] raises on a path with an embedded null
    character; [RequestException] stands for the transport errors of
    [requests] (connection refused, timeout, a body that breaks off);
    [HTTPError] is what [raise_for_status] raises.  [RecursionError] ends
    a recursion that ran out of depth, which [os_makedirs] never does
    (lemma [os_makedirs_local]). *)
Inductive exn :=
| OSError (e : errno)
| ValueError
| RecursionError
| RequestException (what : string)
| HTTPError (status : Z).

Inductive result (A : Type) :=
| Ok (a : A)
| Raise (e : exn).
Arguments Ok {A} a.
Arguments Raise {A} e.

Definition bytes := list Byte.byte.

Inductive node :=
| File (data : bytes)
| Dir.

Abbreviation loc := (list string).

(** Everything a call of the fetch script can read or change: the file
    system with the working directory of the process, the URLs requested so
    far (oldest first) and the lines printed so far. *)
Record world := World {
  nodes : gmap loc node;
  cwd : loc;
  sent : list string;
  stdout : list string
}.

Definition set_nodes (m : gmap loc node) (w : world) : world :=
  {| nodes := m; cwd := cwd w; sent := sent w; stdout := stdout w |}.

Definition M (A : Type) : Type := world -> result A * world.

Definition ret {A} (a : A) : M A := fun w => (Ok a, w).
Definition raise {A} (e : exn) : M A := fun w => (Raise e, w).
Definition bind {A B} (m : M A) (k : A -> M B) : M B :=
  fun w => match m w with
           | (Ok a, w') => k a w'
           | (Raise e, w') => (Raise e, w')
           end.

(** [try: m except <handled>: h], the exceptions for which [handled] is
    [None] pass through. *)
Definition try_except {A} (m : M A) (handler : exn -> option (M A)) : M A :=
  fun w => match m w with
           | (Ok a, w') => (Ok a, w')
           | (Raise e, w') =>
               match handler e with
               | Some h => h w'
               | None => (Raise e, w')
               end
           end.

Notation "'do' x <- m ; k" := (bind m (fun x => k))
  (at level 10, x name, m at level 100, k at level 200).
Notation "m ;; k" := (bind m (fun _ => k))
  (at level 100, k at level 200, right associativity).

Definition printed (line : string) (w : world) : world :=
  {| nodes := nodes w; cwd := cwd w; sent := sent w;
     stdout := stdout w ++ [line] |}.

Definition logged (url : string) (w : world) : world :=
  {| nodes := nodes w; cwd := cwd w; sent := sent w ++ [url];
     stdout := stdout w |}.

Definition print (line : string) : M unit :=
  fun w => (Ok tt, printed line w).

(** ** [posixpath]: paths as strings *)

Definition is_sep (c : ascii) : bool := Ascii.eqb c "/"%char.

Definition startswith_sep (s : string) : bool :=
  match s with
  | String c _ => is_sep c
  | EmptyString => false
  end.

Fixpoint endswith_sep (s : string) : bool :=
  match s with
  | EmptyString => false
  | String c EmptyString => is_sep c
  | String _ r => endswith_sep r
  end.

(** [os.path.join(a, b)]: an absolute [b] replaces [a]. *)
Definition os_path_join (a b : string) : string :=
  if startswith_sep b then b
  else if (String.eqb a "" || endswith_sep a)%bool then a +:+ b
  else a +:+ "/" +:+ b.

(** [(p[:i], p[i:])] for [i = p.rfind('/') + 1]. *)
Fixpoint cut (p : string) : string * string :=
  match p with
  | EmptyString => ("", "")
  | String c r =>
      match cut r with
      | (EmptyString, t) => if is_sep c then ("/", t) else ("", String c t)
      | (h, t) => (String c h, t)
      end
  end.

Fixpoint all_sep (s : string) : bool :=
  match s with
  | EmptyString => true
  | String c r => (is_sep c && all_sep r)%bool
  end.

(** [s.rstrip('/')] *)
Fixpoint rstrip_sep (s : string) : string :=
  match s with
  | EmptyString => ""
  | String c r =>
      match rstrip_sep r with
      | EmptyString => if is_sep c then "" else String c ""
      | r' => String c r'
      end
  end.

(** [os.path.split(p)]: the head loses its trailing separators unless it
    consists of separators only. *)
Definition os_path_split (p : string) : string * string :=
  let (head, tail) := cut p in
  if (negb (String.eqb head "") && negb (all_sep head))%bool
  then (rstrip_sep head, tail)
  else (head, tail).

Definition os_path_dirname (p : string) : string := fst (os_path_split p).

(** ** [os]: the file system *)

(** [s.split('/')]: never empty, [""] gives [[""]]. *)
Fixpoint components (s : string) : list string :=
  match s with
  | EmptyString => [""]
  | String c r =>
      if is_sep c then "" :: components r
      else match components r with
           | x :: xs => String c x :: xs
           | [] => [String c ""]
           end
  end.

Fixpoint has_nul (s : string) : bool :=
  match s with
  | EmptyString => false
  | String c r => (Ascii.eqb c Ascii.zero || has_nul r)%bool
  end.

Definition node_at (m : gmap loc node) (q : loc) : option node :=
  match q with
  | [] => Some Dir
  | _ => m !! q
  end.

Definition enter (cur : loc) (c : string) : loc :=
  if String.eqb c "" then cur
  else if String.eqb c "." then cur
  else if String.eqb c ".." then tail cur
  else c :: cur.

(** Follow [comps] from [cur]; the start and every location reached has
    to be a directory, and so is the result. *)
Fixpoint walk (m : gmap loc node) (cur : loc) (comps : list string)
  : result loc :=
  match node_at m cur with
  | None => Raise (OSError ENOENT)
  | Some (File _) => Raise (OSError ENOTDIR)
  | Some Dir =>
      match comps with
      | [] => Ok cur
      | c :: rest => walk m (enter cur c) rest
      end
  end.

(** Where the resolution of a path starts: at the root when the path
    begins with a separator (its first component is empty and another one
    follows), at the working directory otherwise. *)
Definition start_of (w : world) (comps : list string) : loc :=
  match comps with
  | "" :: _ :: _ => []
  | _ => cwd w
  end.

(** The directory a path lives in and its last component. *)
Definition parent_of (w : world) (comps : list string)
  : result (loc * string) :=
  match walk (nodes w) (start_of w comps) (removelast comps) with
  | Ok d => Ok (d, List.last comps "")
  | Raise e => Raise e
  end.

Definition check_path (path : string) : result (list string) :=
  if has_nul path then Raise ValueError
  else if String.eqb path "" then Raise (OSError ENOENT)
  else Ok (components path).

(** [os.stat(path)]: the location a path denotes and the node there. *)
Definition os_stat (w : world) (path : string) : result (loc * node) :=
  match check_path path with
  | Raise e => Raise e
  | Ok comps =>
      match parent_of w comps with
      | Raise e => Raise e
      | Ok (d, name) =>
          match node_at (nodes w) (enter d name) with
          | Some n => Ok (enter d name, n)
          | None => Raise (OSError ENOENT)
          end
      end
  end.

(** [os.path.exists(path)]: [os.stat] succeeded; [OSError] and
    [ValueError] give [False]. *)
Definition os_path_exists (path : string) : M bool :=
  fun w => match os_stat w path with
           | Ok _ => (Ok true, w)
           | Raise _ => (Ok false, w)
           end.

Definition os_path_isdir (path : string) : M bool :=
  fun w => match os_stat w path with
           | Ok (_, Dir) => (Ok true, w)
           | _ => (Ok false, w)
           end.

Definition is_plain (name : string) : bool :=
  negb (String.eqb name "" || String.eqb name "." || String.eqb name "..").

Fixpoint drop_trailing_empty (comps : list string) : list string :=
  match comps with
  | [] => []
  | c :: rest =>
      match drop_trailing_empty rest with
      | [] => if String.eqb c "" then [] else [c]
      | rest' => c :: rest'
      end
  end.

(** Trailing separators do not count when a path names something to
    create. *)
Definition strip_trailing (comps : list string) : list string :=
  match drop_trailing_empty comps with
  | [] => comps
  | l => l
  end.

(** [os.mkdir(path)]: the parent has to exist and the name has to be
    free. *)
Definition os_mkdir (path : string) : M unit :=
  fun w =>
    match check_path path with
    | Raise e => (Raise e, w)
    | Ok comps =>
        match parent_of w (strip_trailing comps) with
        | Raise e => (Raise e, w)
        | Ok (d, name) =>
            if is_plain name then
              match nodes w !! (name :: d) with
              | Some _ => (Raise (OSError EEXIST), w)
              | None => (Ok tt, set_nodes (<[name :: d := Dir]> (nodes w)) w)
              end
            else (Raise (OSError EEXIST), w)
        end
    end.

Definition nonempty (s : string) : bool := negb (String.eqb s "").

(** [os.makedirs(name, exist_ok=exist_ok)], as in [Lib/os.py]:
<<
    head, tail = path.split(name)
    if not tail:
        head, tail = path.split(head)
    if head and tail and not path.exists(head):
        try:
            makedirs(head, exist_ok=exist_ok)
        except FileExistsError:
            pass
        if tail == curdir:
            return
    try:
        mkdir(name, mode)
    except OSError:
        if not exist_ok or not path.isdir(name):
            raise
>>
    The recursion is on a strictly shorter [head]; [depth] bounds it and
    [os_makedirs] starts it with the length of the name. *)
Fixpoint makedirs_rec (depth : nat) (name : string) (exist_ok : bool)
  : M unit :=
  let make :=
    try_except (os_mkdir name)
      (fun e => match e with
                | OSError _ =>
                    Some (do is_dir <- os_path_isdir name;
                          if (negb exist_ok || negb is_dir)%bool
                          then raise e else ret tt)
                | _ => None
                end) in
  match depth with
  | O => raise RecursionError
  | S depth' =>
      let (head, tail) := os_path_split name in
      let (head, tail) :=
        if nonempty tail then (head, tail) else os_path_split head in
      if (nonempty head && nonempty tail)%bool then
        do head_exists <- os_path_exists head;
        if head_exists then make
        else
          try_except (makedirs_rec depth' head exist_ok)
            (fun e => match e with
                      | OSError EEXIST => Some (ret tt)
                      | _ => None
                      end) ;;
          if String.eqb tail "." then ret tt else make
      else make
  end.

Definition os_makedirs (name : string) (exist_ok : bool) : M unit :=
  makedirs_rec (S (String.length name)) name exist_ok.

(** An open file: the node it writes to and the position of the next
    write. *)
Record file := { f_loc : loc; f_pos : nat }.

(** [open(path, 'wb')]: create or truncate.  A path with a trailing
    separator, a last component that is not a name, or one that names a
    directory gives [IsADirectoryError]. *)
Definition open_wb (path : string) : M file :=
  fun w =>
    match check_path path with
    | Raise e => (Raise e, w)
    | Ok comps =>
        match parent_of w (strip_trailing comps) with
        | Raise e => (Raise e, w)
        | Ok (d, name) =>
            if (is_plain name && bool_decide (strip_trailing comps = comps))%bool
            then
              match nodes w !! (name :: d) with
              | Some Dir => (Raise (OSError EISDIR), w)
              | _ => (Ok {| f_loc := name :: d; f_pos := 0 |},
                      set_nodes (<[name :: d := File []]> (nodes w)) w)
              end
            else (Raise (OSError EISDIR), w)
        end
    end.

(** The bytes of a file after writing [chunk] at position [pos]; a gap
    past the end is filled with zero bytes. *)
Definition write_at (old : bytes) (pos : nat) (chunk : bytes) : bytes :=
  take pos old ++ replicate (pos - length old) Byte.x00
    ++ chunk ++ drop (pos + length chunk) old.

(** [file.write(chunk)]; the file object afterwards is returned. *)
Definition file_write (f : file) (chunk : bytes) : M file :=
  fun w =>
    let f' := {| f_loc := f_loc f; f_pos := f_pos f + length chunk |} in
    match nodes w !! f_loc f with
    | Some (File old) =>
        (Ok f', set_nodes (<[f_loc f := File (write_at old (f_pos f) chunk)]>
                             (nodes w)) w)
    | _ => (Ok f', w)
    end.

(** ** [requests]: the remote end *)

(** What [requests.get(url, stream=True)] hands back: the status line, the
    [Content-Length] header when there is one, and the body as the chunks
    [iter_content] is going to yield; when [broken] is set the body breaks
    off after these chunks and [iter_content] raises. *)
Record response := {
  status_code : Z;
  content_length : option nat;
  chunks : list bytes;
  broken : option string
}.

Inductive reply :=
| Refused (what : string)
| Answered (r : response).

(** The remote store: the reply to a URL may depend on how many requests
    were made before. *)
Definition remote := nat -> string -> reply.

Definition requests_get (srv : remote) (url : string) : M response :=
  fun w =>
    match srv (length (sent w)) url with
    | Refused what => (Raise (RequestException what), logged url w)
    | Answered r => (Ok r, logged url w)
    end.

Definition raise_for_status (r : response) : M unit :=
  if ((400 <=? status_code r)%Z && (status_code r <? 600)%Z)%bool
  then raise (HTTPError (status_code r))
  else ret tt.

(** [for chunk in response.iter_content(...): body], with the state of the
    loop body threaded through. *)
Fixpoint for_iter_content {S : Type} (todo : list bytes)
  (broken : option string) (body : S -> bytes -> M S) (s : S) : M S :=
  match todo with
  | [] =>
      match broken with
      | Some what => raise (RequestException what)
      | None => ret s
      end
  | chunk :: rest =>
      do s' <- body s chunk;
      for_iter_content rest broken body s'
  end.

(** ** [file-fetch-caching.py] *)

Definition CACHE_DIR : string := "cache".

Definition s3_url_of (bucket_name file_key : string) : string :=
  "https://" +:+ bucket_name +:+ ".s3.amazonaws.com/" +:+ file_key.

(** Closing the file at the end of the [with] block changes nothing here:
    writes reach the file at once. *)
Definition fetch_s3_file (srv : remote) (bucket_name file_key : string)
  : M string :=
  let local_path := os_path_join CACHE_DIR file_key in
  do found <- os_path_exists local_path;
  if found then
    print ("File " +:+ file_key +:+ " found in cache. No need to fetch again!") ;;
    ret local_path
  else
    let s3_url := s3_url_of bucket_name file_key in
    do response <- requests_get srv s3_url;
    raise_for_status response ;;
    os_makedirs (os_path_dirname local_path) true ;;
    (do file <- open_wb local_path;
     for_iter_content (chunks response) (broken response) file_write file) ;;
    print ("File " +:+ file_key +:+ " fetched from S3 and saved to cache.") ;;
    ret local_path.


(** *** Concurrent callers

    The call cut at the two places where another caller can get in
    between: after the test of the cache (lines 7-11) and after the file
    was opened (lines 13-18); copying the body and returning (lines 19-23)
    is the third step.  Coarser steps only remove interleavings. *)

Inductive thread :=
| Calling
| Missed
| Writing (r : response) (f : file)
| Finished (res : result string).

Definition check_cache (file_key : string) : M bool :=
  let local_path := os_path_join CACHE_DIR file_key in
  do found <- os_path_exists local_path;
  if found then
    print ("File " +:+ file_key +:+ " found in cache. No need to fetch again!") ;;
    ret true
  else ret false.

Definition request_and_open (srv : remote) (bucket_name file_key : string)
  : M (response * file) :=
  let local_path := os_path_join CACHE_DIR file_key in
  let s3_url := s3_url_of bucket_name file_key in
  do response <- requests_get srv s3_url;
  raise_for_status response ;;
  os_makedirs (os_path_dirname local_path) true ;;
  do file <- open_wb local_path;
  ret (response, file).

Definition copy_and_return (file_key : string) (r : response) (f : file)
  : M string :=
  let local_path := os_path_join CACHE_DIR file_key in
  for_iter_content (chunks r) (broken r) file_write f ;;
  print ("File " +:+ file_key +:+ " fetched from S3 and saved to cache.") ;;
  ret local_path.

Definition thread_step (srv : remote) (bucket_name file_key : string)
  (t : thread) (w : world) : thread * world :=
  match t with
  | Calling =>
      match check_cache file_key w with
      | (Ok true, w') => (Finished (Ok (os_path_join CACHE_DIR file_key)), w')
      | (Ok false, w') => (Missed, w')
      | (Raise e, w') => (Finished (Raise e), w')
      end
  | Missed =>
      match request_and_open srv bucket_name file_key w with
      | (Ok (r, f), w') => (Writing r f, w')
      | (Raise e, w') => (Finished (Raise e), w')
      end
  | Writing r f =>
      match copy_and_return file_key r f w with
      | (res, w') => (Finished res, w')
      end
  | Finished res => (Finished res, w)
  end.

(** The callers of one key and the world they share; [schedule] lets the
    callers named in turn take one step each. *)
Definition system : Type := list thread * world.

Definition sys_step (srv : remote) (bucket_name file_key : string)
  (i : nat) (s : system) : system :=
  match fst s !! i with
  | Some t =>
      let (t', w') := thread_step srv bucket_name file_key t (snd s) in
      (<[i := t']> (fst s), w')
  | None => s
  end.

Definition schedule (srv : remote) (bucket_name file_key : string)
  (order : list nat) (s : system) : system :=
  fold_left (fun s i => sys_step srv bucket_name file_key i s) order s.

(** A caller that has not got to its request yet. *)
Definition waiting (t : thread) : bool :=
  match t with
  | Calling | Missed => true
  | Writing _ _ | Finished _ => false
  end.

(** The callers that are past their request. *)
Definition past_request (ts : list thread) : nat :=
  length (List.filter (fun t => negb (waiting t)) ts).

(** *** Properties of worlds and keys *)

(** Every node but the root sits in a directory. *)
Definition wf (w : world) : Prop :=
  forall (c : string) (q : loc),
    is_Some (nodes w !! (c :: q)) -> node_at (nodes w) q = Some Dir.

Definition no_dotdot (key : string) : bool :=
  forallb (fun c => negb (String.eqb c "..")) (components key).

(** A key made of names only: no empty segment (so no leading, trailing or
    doubled separator), no [.] and no [..]. *)
Definition plain_key (key : string) : bool :=
  forallb is_plain (components key).

Definition cached (file_key : string) (w : world) : bool :=
  match os_stat w (os_path_join CACHE_DIR file_key) with
  | Ok _ => true
  | Raise _ => false
  end.

(** The location and the node the local path of a key denotes. *)
Definition os_stat_loc (w : world) (file_key : string) : option (loc * node) :=
  match os_stat w (os_path_join CACHE_DIR file_key) with
  | Ok found => Some found
  | Raise _ => None
  end.

(** The size of the file a path denotes. *)
Definition size_at (w : world) (path : string) : option nat :=
  match os_stat w path with
  | Ok (_, File data) => Some (length data)
  | _ => None
  end.

(** ["/".join(comps)] *)
Fixpoint sep_join (comps : list string) : string :=
  match comps with
  | [] => ""
  | [c] => c
  | c :: rest => c +:+ "/" +:+ sep_join rest
  end.

(** What may differ between the world before and after a computation. *)
Definition preserves {A} (P : world -> world -> Prop) (m : M A) : Prop :=
  forall w r w', m w = (r, w') -> P w w'.

(** Nothing but the file system changed. *)
Definition fs_only (w w' : world) : Prop :=
  cwd w' = cwd w /\ sent w' = sent w /\ stdout w' = stdout w.

(** Every node is still there, unchanged, and what is new is a
    directory. *)
Definition only_adds_dirs (w w' : world) : Prop :=
  fs_only w w' /\
  forall q, match nodes w !! q with
            | Some n => nodes w' !! q = Some n
            | None => nodes w' !! q = None \/ nodes w' !! q = Some Dir
            end.

(** The exceptions of the file system calls. *)
Definition local_error (e : exn) : bool :=
  match e with
  | OSError _ | ValueError => true
  | _ => false
  end.

Definition raises_only {A} (allowed : exn -> bool) (m : M A) : Prop :=
  forall w e w', m w = (Raise e, w') -> allowed e = true.

(** Well-formedness is kept. *)
Definition keeps_wf (w w' : world) : Prop := wf w -> wf w'.

(** Every node is still there, unchanged. *)
Definition keeps_nodes (w w' : world) : Prop :=
  forall q n, nodes w !! q = Some n -> nodes w' !! q = Some n.

(** ** [test-retry.py] *)

(** How one run of the child process ends: with a return code, or with
    [subprocess.run] itself raising (the interpreter is not found, say),
    which is not a [CalledProcessError]. *)
Inductive run_result :=
| Exited (returncode : Z)
| SpawnFailed (what : string).

(** What the loop does, in order.  [Printed_error c] is the line
    ["An error occurred: "] followed by the text of the
    [CalledProcessError] for return code [c]. *)
Inductive event :=
| Printed (line : string)
| Printed_error (returncode : Z)
| Ran (args : list string)
| Slept (seconds : Z).

(** The loop has no exit: after any number of rounds it is either still
    running, or an exception it does not catch has ended it. *)
Inductive loop_state :=
| Running (log : list event)
| Crashed (log : list event) (what : string).

(** One round of the body of [while True]. *)
Definition round (script_path : string) (outcome : run_result)
  (log : list event) : loop_state :=
  let log := log ++ [Printed "Running script..."; Ran ["python"; script_path]] in
  match outcome with
  | SpawnFailed what => Crashed log what
  | Exited returncode =>
      let log := if (returncode =? 0)%Z then log
                 else log ++ [Printed_error returncode] in
      Running (log ++ [Slept 5])
  end.

Fixpoint while_true (body : nat -> list event -> loop_state)
  (rounds i : nat) (log : list event) : loop_state :=
  match rounds with
  | O => Running log
  | S rounds' =>
      match body i log with
      | Running log' => while_true body rounds' (S i) log'
      | Crashed log' what => Crashed log' what
      end
  end.

(** [run_script_every_5_seconds(script_path)] observed after [rounds]
    rounds, the [i]-th run of the script ending as [outcomes i] says. *)
Definition run_script_every_5_seconds (script_path : string)
  (outcomes : nat -> run_result) (rounds : nat) : loop_state :=
  while_true (fun i => round script_path (outcomes i)) rounds 0 [].

Definition log_of (s : loop_state) : list event :=
  match s with
  | Running log => log
  | Crashed log _ => log
  end.

Definition is_ran (e : event) : bool :=
  match e with Ran _ => true | _ => false end.

Definition attempts (log : list event) : nat :=
  length (filter (fun e => is_ran e = true) log).

Definition delays (log : list event) : list Z :=
  omap (fun e => match e with Slept s => Some s | _ => None end) log.

(** ** [s3_example_upload.py] *)

(** A Python exception as far as the two handlers can tell: whether it is
    an instance of [Exception] ([KeyboardInterrupt] and [SystemExit] are
    not) and the text [print] shows for it. *)
Record py_exception := {
  is_Exception : bool;
  text : string
}.

(** The object store and the client library: what each call raises, if
    anything. *)
Record s3 := {
  client : option py_exception;
  head_object : string -> string -> option py_exception;
  upload_file : string -> string -> string -> option py_exception
}.

Inductive s3_event :=
| Head_object (bucket key : string)
| Upload_file (file_path bucket key : string)
| Print (line : string).

Inductive outcome :=
| Returned
| Propagated (e : py_exception).

(** The [try] with [except Exception as e: print(e)] around the body. *)
Definition except_Exception (body : outcome * list s3_event)
  : outcome * list s3_event :=
  match body with
  | (Returned, log) => (Returned, log)
  | (Propagated e, log) =>
      if is_Exception e then (Returned, log ++ [Print (text e)])
      else (Propagated e, log)
  end.

Definition upload_file_to_s3_if_not_exists (env : s3)
  (file_path bucket_name s3_path : string) : outcome * list s3_event :=
  match client env with
  | Some e => (Propagated e, [])
  | None =>
      except_Exception
        match head_object env bucket_name s3_path with
        | None =>
            (Returned,
             [Head_object bucket_name s3_path;
              Print ("File already exists at " +:+ s3_path +:+ " in bucket "
                     +:+ bucket_name +:+ ".")])
        | Some _ =>
            match upload_file env file_path bucket_name s3_path with
            | None =>
                (Returned,
                 [Head_object bucket_name s3_path;
                  Upload_file file_path bucket_name s3_path;
                  Print ("File uploaded to " +:+ s3_path +:+ " in bucket "
                         +:+ bucket_name +:+ ".")])
            | Some e =>
                (Propagated e,
                 [Head_object bucket_name s3_path;
                  Upload_file file_path bucket_name s3_path])
            end
        end
  end.

(** ** The rest of the scripts *)

(** *** [file-fetch-caching.py], [main] *)

Definition file_fetch_caching_main (srv : remote) : M unit :=
  let BUCKET_NAME := "__" in
  let FILE_KEY := "__" in
  do local_file <- fetch_s3_file srv BUCKET_NAME FILE_KEY;
  print ("Local path: " +:+ local_file).

(** *** [test-retry.py], counting what the loop prints *)

Definition is_printed_error (e : event) : bool :=
  match e with Printed_error _ => true | _ => false end.

Definition error_lines (log : list event) : nat :=
  length (filter (fun e => is_printed_error e = true) log).

Definition failed (outcome : run_result) : bool :=
  match outcome with
  | Exited returncode => negb (returncode =? 0)%Z
  | SpawnFailed _ => false
  end.

(** The number of failing runs among the first [rounds] runs. *)
Definition failures (outcomes : nat -> run_result) (rounds : nat) : nat :=
  length (filter (fun i => failed (outcomes i) = true) (seq 0 rounds)).

(** *** [s3_example_upload.py], the loop at the end *)

(** [sep in s] *)
Fixpoint contains (sep s : string) : bool :=
  (String.prefix sep s ||
   match s with
   | EmptyString => false
   | String _ r => contains sep r
   end)%bool.

(** [s.split(sep)] for a separator that is not empty: the pieces between
    the occurrences of [sep], found from the left, one after the end of
    the other.  [skip] counts the characters of an occurrence that are
    still to be passed over. *)
Fixpoint split_go (sep : string) (skip : nat) (s : string) : list string :=
  match s with
  | EmptyString => [""]
  | String c r =>
      match skip with
      | S k => split_go sep k r
      | O =>
          if String.prefix sep s
          then "" :: split_go sep (String.length sep - 1) r
          else match split_go sep 0 r with
               | piece :: pieces => String c piece :: pieces
               | [] => [String c ""]
               end
      end
  end.

Definition str_split (sep s : string) : list string := split_go sep 0 s.

Definition BUCKET_NAME : string := "desi-us-east-2".

Definition files_to_upload : list string :=
  ["/global/cfs/cdirs/desi/public/edr/spectro/redux/fuji/zcatalog/zall-pix-fuji.fits"].

(** What [file.split('global/')[1]] raises when there is no second
    piece. *)
Definition IndexError : py_exception :=
  {| is_Exception := true; text := "list index out of range" |}.

(** [for file in files: upload_file_to_s3_if_not_exists(file, BUCKET_NAME,
    file.split('global/')[1])]; nothing catches what comes out of the
    body. *)
Fixpoint upload_each (env : s3) (files : list string)
  : outcome * list s3_event :=
  match files with
  | [] => (Returned, [])
  | file :: rest =>
      match str_split "global/" file !! 1%nat with
      | None => (Propagated IndexError, [])
      | Some s3_path =>
          match upload_file_to_s3_if_not_exists env file BUCKET_NAME s3_path with
          | (Returned, log) =>
              let (out, log') := upload_each env rest in (out, log ++ log')
          | (Propagated e, log) => (Propagated e, log)
          end
      end
  end.

(** The key a file is uploaded under, if it has one. *)
Definition s3_key_of (file : string) : option string :=
  str_split "global/" file !! 1%nat.

Definition s3_example_upload (env : s3) : outcome * list s3_event :=
  upload_each env files_to_upload.

Definition is_head (e : s3_event) : bool :=
  match e with Head_object _ _ => true | _ => false end.

(** The existence checks made, in order. *)
Definition checks (log : list s3_event) : list s3_event :=
  filter (fun e => is_head e = true) log.

Definition is_upload (e : s3_event) : bool :=
  match e with Upload_file _ _ _ => true | _ => false end.

(** The uploads attempted, in order. *)
Definition uploads (log : list s3_event) : list s3_event :=
  filter (fun e => is_upload e = true) log.

(** *** [main.py] *)

(** [requests.get(url).content]: without [stream=True] the body is read
    before [get] returns, so a body that breaks off raises there. *)
Definition requests_get_content (srv : remote) (url : string) : M bytes :=
  do r <- requests_get srv url;
  match broken r with
  | Some what => raise (RequestException what)
  | None => ret (concat (chunks r))
  end.

Definition img_name : string := "TOI+3799-01_Rc_120sec_2022-03-07_182739.fit".

Definition img_url : string :=
  "https://randommiscfiles.s3.us-west-1.amazonaws.com/TOI+3799-01_Rc_120sec_2022-03-07_182739.fit".

(** [fits_open_info url] stands for [fits.open(url)] followed by
    [hdul.info()], which belong to [astropy]: whatever they do, they do it
    after the image was saved. *)
Definition load_display_img (srv : remote)
  (fits_open_info : string -> M unit) : M unit :=
  do img_data <- requests_get_content srv img_url;
  (do handler <- open_wb img_name;
   file_write handler img_data) ;;
  fits_open_info img_url.

Definition main_py_main (srv : remote) (fits_open_info : string -> M unit)
  : M unit :=
  load_display_img srv fits_open_info.

(** *** [data_upload.py] *)

(** [os.getcwd()] *)
Definition os_getcwd (w : world) : string := "/" +:+ sep_join (rev (cwd w)).

(** One round of the loop of [os.path.normpath]:
<<
    if comp in (empty, dot): continue
    if (comp != dotdot or (not initial_slashes and not new_comps) or
         (new_comps and new_comps[-1] == dotdot)):
        new_comps.append(comp)
    elif new_comps:
        new_comps.pop()
>> *)
Definition normpath_step (initial_slashes : nat) (new_comps : list string)
  (comp : string) : list string :=
  if (String.eqb comp "" || String.eqb comp ".")%bool then new_comps
  else if (negb (String.eqb comp "..")
           || ((initial_slashes =? 0)%nat && bool_decide (new_comps = []))
           || String.eqb (List.last new_comps "") "..")%bool
  then new_comps ++ [comp]
  else removelast new_comps.

(** One or two initial separators are kept, three or more count as one. *)
Definition initial_slashes_of (path : string) : nat :=
  if String.prefix "/" path then
    if (String.prefix "//" path && negb (String.prefix "///" path))%bool
    then 2 else 1
  else 0.

Fixpoint slashes (n : nat) : string :=
  match n with
  | O => ""
  | S k => String "/" (slashes k)
  end.

Definition os_path_normpath (path : string) : string :=
  if String.eqb path "" then "."
  else
    let initial_slashes := initial_slashes_of path in
    let comps :=
      fold_left (normpath_step initial_slashes) (components path) [] in
    let path := slashes initial_slashes +:+ sep_join comps in
    if String.eqb path "" then "." else path.

Definition os_path_abspath (w : world) (path : string) : string :=
  os_path_normpath
    (if startswith_sep path then path else os_path_join (os_getcwd w) path).

(** Lists of strings in the order of Python. *)
Fixpoint list_compare (a b : list string) : comparison :=
  match a, b with
  | [], [] => Eq
  | [], _ :: _ => Lt
  | _ :: _, [] => Gt
  | x :: a', y :: b' =>
      match String.compare x y with
      | Eq => list_compare a' b'
      | c => c
      end
  end.

(** [min([a, b])] and [max([a, b])]: the first of the two unless the
    second is strictly smaller, or strictly greater. *)
Definition list_min (a b : list string) : list string :=
  match list_compare b a with Lt => b | _ => a end.

Definition list_max (a b : list string) : list string :=
  match list_compare b a with Gt => b | _ => a end.

(** The loop of [os.path.commonprefix]: [s1] up to the first index at
    which [s2] differs.  ([s2] is never too short when [s1] is the minimum
    and [s2] the maximum.) *)
Fixpoint common (s1 s2 : list string) : list string :=
  match s1, s2 with
  | c :: s1', d :: s2' => if String.eqb c d then c :: common s1' s2' else []
  | _, _ => []
  end.

Definition os_path_commonprefix (a b : list string) : list string :=
  common (list_min a b) (list_max a b).

(** [os.path.join] of a first path and the list of the others *)
Definition join_all (a : string) (p : list string) : string :=
  fold_left os_path_join p a.

(** [os.path.relpath(path, start)] *)
Definition os_path_relpath (w : world) (path start : string) : result string :=
  if String.eqb path "" then Raise ValueError
  else
    let start_list :=
      List.filter nonempty (components (os_path_abspath w start)) in
    let path_list :=
      List.filter nonempty (components (os_path_abspath w path)) in
    let i := length (os_path_commonprefix start_list path_list) in
    let rel_list :=
      replicate (length start_list - i) ".." ++ drop i path_list in
    match rel_list with
    | [] => Ok "."
    | a :: p => Ok (join_all a p)
    end.

(** The entries of the directory at a location, in the order the map
    lists them. *)
Definition children (m : gmap loc node) (q : loc) : list (string * node) :=
  omap (fun entry =>
          match fst entry with
          | c :: q' => if bool_decide (q' = q) then Some (c, snd entry) else None
          | [] => None
          end)
       (map_to_list m).

(** [os.scandir(path)] *)
Definition os_scandir (w : world) (path : string)
  : result (list (string * node)) :=
  match os_stat w path with
  | Ok (q, Dir) => Ok (children (nodes w) q)
  | Ok (_, File _) => Raise (OSError ENOTDIR)
  | Raise e => Raise e
  end.

Definition dir_names (entries : list (string * node)) : list string :=
  omap (fun entry => match snd entry with
                     | Dir => Some (fst entry)
                     | File _ => None
                     end) entries.

Definition file_names (entries : list (string * node)) : list string :=
  omap (fun entry => match snd entry with
                     | File _ => Some (fst entry)
                     | Dir => None
                     end) entries.

(** What [os.scandir] raises on a path with a null character; it is no
    [OSError], so [os.walk] does not swallow it. *)
Definition ValueError_null : py_exception :=
  {| is_Exception := true; text := "embedded null byte" |}.

(** [for foldername, subfolders, filenames in os.walk(top): body], top
    down, as in [Lib/os.py]: a directory that cannot be listed is passed
    over in silence, the body runs on a directory before its
    subdirectories are walked, and what the body raises ends the loop.
    [depth] bounds the recursion; [walk_depth] is enough for any file
    system. *)
Fixpoint for_os_walk {S : Type} (depth : nat) (w : world) (top : string)
  (body : string -> list string -> list string -> S -> outcome * S) (s : S)
  : outcome * S :=
  match depth with
  | O => (Returned, s)
  | S depth' =>
      match os_scandir w top with
      | Raise ValueError => (Propagated ValueError_null, s)
      | Raise _ => (Returned, s)
      | Ok entries =>
          match body top (dir_names entries) (file_names entries) s with
          | (Propagated e, s') => (Propagated e, s')
          | (Returned, s') =>
              (fix subdirs (dirs : list string) (s : S) : outcome * S :=
                 match dirs with
                 | [] => (Returned, s)
                 | dirname :: dirs' =>
                     match for_os_walk depth' w (os_path_join top dirname)
                             body s with
                     | (Propagated e, s') => (Propagated e, s')
                     | (Returned, s') => subdirs dirs' s'
                     end
                 end) (dir_names entries) s'
          end
      end
  end.

(** One more than the length of the longest location. *)
Definition walk_depth (w : world) : nat :=
  S (max_list_with (fun entry => length (fst entry)) (map_to_list (nodes w))).

(** The inner loop of [upload_to_s3]: the files of one folder. *)
Fixpoint upload_files (env : s3) (w : world) (bucket_name root_path : string)
  (foldername : string) (filenames : list string) (log : list s3_event)
  : outcome * list s3_event :=
  match filenames with
  | [] => (Returned, log)
  | filename :: rest =>
      let file_path := os_path_join foldername filename in
      match os_path_relpath w file_path root_path with
      | Raise _ => (Propagated {| is_Exception := true;
                                  text := "no path specified" |}, log)
      | Ok s3_key =>
          match upload_file env file_path bucket_name s3_key with
          | Some e =>
              (Propagated e, log ++ [Upload_file file_path bucket_name s3_key])
          | None =>
              upload_files env w bucket_name root_path foldername rest
                (log ++ [Upload_file file_path bucket_name s3_key;
                         Print ("Uploaded " +:+ file_path +:+ " to "
                                +:+ bucket_name +:+ "/" +:+ s3_key)])
          end
      end
  end.

(** [upload_to_s3(bucket_name, root_path)] over the file system of [w],
    which it only reads. *)
Definition upload_to_s3 (env : s3) (w : world) (bucket_name root_path : string)
  : outcome * list s3_event :=
  match client env with
  | Some e => (Propagated e, [])
  | None =>
      for_os_walk (walk_depth w) w root_path
        (fun foldername subfolders filenames log =>
           upload_files env w bucket_name root_path foldername filenames log)
        []
  end.

(** *** [urllib3]: the path that reaches the store

    [requests] does not send the URL as it is written: [urllib3] first
    removes the dot segments of its path, as
    [urllib3.util.url._remove_path_dot_segments] does (RFC 3986, 5.2.4):
<<
    segments = path.split("/")
    output = []
    for segment in segments:
        if segment == ".":
            continue
        if segment != "..":
            output.append(segment)
        elif output:
            output.pop()
    if path.startswith("/") and (not output or output[0]):
        output.insert(0, "")
    if path.endswith(("/.", "/..")):
        output.append("")
    return "/".join(output)
>>
    A store of objects answers by the path that reaches it, so it cannot
    tell two URLs apart that differ in dot segments only. *)
Fixpoint dot_segments (segments output : list string) : list string :=
  match segments with
  | [] => output
  | segment :: rest =>
      if String.eqb segment "." then dot_segments rest output
      else if String.eqb segment ".." then dot_segments rest (removelast output)
      else dot_segments rest (output ++ [segment])
  end.

Definition remove_path_dot_segments (path : string) : string :=
  let segments := components path in
  let output := dot_segments segments [] in
  let output :=
    if (startswith_sep path
        && match output with
           | [] => true
           | first :: _ => nonempty first
           end)%bool
    then "" :: output else output in
  let output :=
    if ((String.eqb (List.last segments "") "."
         || String.eqb (List.last segments "") "..")
        && (2 <=? length segments)%nat)%bool
    then output ++ [""] else output in
  sep_join output.

(** The rest of a string from its first separator on. *)
Fixpoint from_first_sep (s : string) : string :=
  match s with
  | EmptyString => EmptyString
  | String c r => if is_sep c then s else from_first_sep r
  end.

(** What follows the [//] of a URL. *)
Fixpoint after_slashes (s : string) : string :=
  match s with
  | EmptyString => EmptyString
  | String c r =>
      match r with
      | String c' r' => if (is_sep c && is_sep c')%bool then r'
                        else after_slashes r
      | EmptyString => EmptyString
      end
  end.

(** The path of a URL [scheme://host/path]. *)
Definition url_path (url : string) : string :=
  from_first_sep (after_slashes url).

(** A store that holds objects by path and always answers. *)
Definition object_store (objects : string -> response) : remote :=
  fun _ url => Answered (objects (remove_path_dot_segments (url_path url))).

(** ** Scenarios

    A process with working directory [/app]; the object
    [spectra/obj123.fits] of four bytes, sent in two chunks. *)

Definition bucket : string := "desi-us-east-2".
Definition key : string := "spectra/obj123.fits".
Definition key_path : string := "cache/spectra/obj123.fits".
Definition key_loc : loc := ["obj123.fits"; "spectra"; "cache"; "app"].

Definition half1 : bytes := [Byte.x53; Byte.x49].
Definition half2 : bytes := [Byte.x4d; Byte.x50].

Definition whole : response :=
  {| status_code := 200; content_length := Some 4%nat;
     chunks := [half1; half2]; broken := None |}.

(** The same reply, breaking off after the first half of the body. *)
Definition cut_short : response :=
  {| status_code := 200; content_length := Some 4%nat;
     chunks := [half1]; broken := Some "Connection broken" |}.

Definition store : remote := fun _ _ => Answered whole.

(** The first request breaks off half way, later ones go through. *)
Definition flaky_store : remote :=
  fun n _ => match n with
             | O => Answered cut_short
             | S _ => Answered whole
             end.

(** Nothing but the working directory. *)
Definition empty_disk : world :=
  World (list_to_map [(["app"], Dir)]) ["app"] [] [].

(** The object is in the cache. *)
Definition warm_disk : world :=
  World (list_to_map [(["app"], Dir); (["cache"; "app"], Dir);
                      (["spectra"; "cache"; "app"], Dir);
                      (key_loc, File (half1 ++ half2))])
        ["app"] [] [].

(** The first half of the object is in the cache. *)
Definition torn_disk : world :=
  World (list_to_map [(["app"], Dir); (["cache"; "app"], Dir);
                      (["spectra"; "cache"; "app"], Dir);
                      (key_loc, File half1)])
        ["app"] [] [].

(** The object [a/b] is in the cache. *)
Definition ab_disk : world :=
  World (list_to_map [(["app"], Dir); (["cache"; "app"], Dir);
                      (["a"; "cache"; "app"], Dir);
                      (["b"; "a"; "cache"; "app"], File (half1 ++ half2))])
        ["app"] [] [].

(** A store with a two-byte object [y]; every other object, [cache/y]
    among them, has the four bytes of above. *)
Definition small : response :=
  {| status_code := 200; content_length := Some 2%nat;
     chunks := [half1]; broken := None |}.

Definition two_objects : remote :=
  object_store (fun path => if String.eqb path "/y" then small else whole).

(** The object [y] is in the cache. *)
Definition y_disk : world :=
  World (list_to_map [(["app"], Dir); (["cache"; "app"], Dir);
                      (["y"; "cache"; "app"], File half1)])
        ["app"] [] [].

(** A script that fails every time. *)
Definition always_failing : nat -> run_result := fun _ => Exited 1.

(** An object store client that cannot be set up. *)
Definition no_client : s3 :=
  {| client := Some {| is_Exception := true;
                       text := "The config profile (desi) could not be found" |};
     head_object := fun _ _ => None;
     upload_file := fun _ _ _ => None |}.

(** A bucket that may be written but not read: the existence check is
    turned down, the upload goes through. *)
Definition write_only_bucket : s3 :=
  {| client := None;
     head_object := fun _ _ =>
       Some {| is_Exception := true;
               text := "An error occurred (403) when calling the HeadObject operation: Forbidden" |};
     upload_file := fun _ _ _ => None |}.

(** A store that does not have the object. *)
Definition not_found : response :=
  {| status_code := 404; content_length := Some 0%nat;
     chunks := [[]]; broken := None |}.

Definition missing_store : remote := fun _ _ => Answered not_found.

(** A store that cannot be reached. *)
Definition unreachable_store : remote := fun _ _ => Refused "Connection refused".

(** Well-formedness, decided. *)
Definition wfb (w : world) : bool :=
  forallb (fun entry => match fst entry with
                        | [] => true
                        | _ :: q => match node_at (nodes w) q with
                                    | Some Dir => true
                                    | _ => false
                                    end
                        end)
          (map_to_list (nodes w)).

(** A child process that cannot be started at the third run. *)
Definition breaks_at_2 : nat -> run_result :=
  fun i => if (i =? 2)%nat then SpawnFailed "No such file or directory: python"
           else Exited 1.

(** Names as a file system has them: not empty, not [.] or [..], without
    separator and without null character. *)
Fixpoint sep_free (s : string) : bool :=
  match s with
  | EmptyString => true
  | String c r => (negb (is_sep c) && sep_free r)%bool
  end.

Definition valid_name (c : string) : bool :=
  (is_plain c && sep_free c && negb (has_nul c))%bool.

Definition valid_names (w : world) : bool :=
  forallb (fun entry => forallb valid_name (fst entry)) (map_to_list (nodes w)).

(** The folders [os.walk] yields, each with its files, in order. *)
Fixpoint walk_folders (depth : nat) (w : world) (top : string)
  : list (string * list string) :=
  match depth with
  | O => []
  | S depth' =>
      match os_scandir w top with
      | Ok entries =>
          (top, file_names entries)
            :: flat_map (fun dirname =>
                           walk_folders depth' w (os_path_join top dirname))
                        (dir_names entries)
      | Raise _ => []
      end
  end.

(** A loop over folders that ends when its body raises. *)
Fixpoint for_folders {S : Type}
  (body : string -> list string -> S -> outcome * S)
  (folders : list (string * list string)) (s : S) : outcome * S :=
  match folders with
  | [] => (Returned, s)
  | (foldername, filenames) :: rest =>
      match body foldername filenames s with
      | (Propagated e, s') => (Propagated e, s')
      | (Returned, s') => for_folders body rest s'
      end
  end.

(** The paths of the files [os.walk] comes by, in order. *)
Definition walk_files (depth : nat) (w : world) (top : string) : list string :=
  flat_map (fun folder => map (os_path_join (fst folder)) (snd folder))
           (walk_folders depth w top).

(** The uploads of [upload_to_s3] as one loop over the paths of the
    files. *)
Fixpoint upload_paths (env : s3) (w : world) (bucket_name root_path : string)
  (paths : list string) (log : list s3_event) : outcome * list s3_event :=
  match paths with
  | [] => (Returned, log)
  | file_path :: rest =>
      match os_path_relpath w file_path root_path with
      | Raise _ => (Propagated {| is_Exception := true;
                                  text := "no path specified" |}, log)
      | Ok s3_key =>
          match upload_file env file_path bucket_name s3_key with
          | Some e =>
              (Propagated e, log ++ [Upload_file file_path bucket_name s3_key])
          | None =>
              upload_paths env w bucket_name root_path rest
                (log ++ [Upload_file file_path bucket_name s3_key;
                         Print ("Uploaded " +:+ file_path +:+ " to "
                                +:+ bucket_name +:+ "/" +:+ s3_key)])
          end
      end
  end.

(** A tree to upload: [/app/d] with a file and a folder with a file. *)
Definition tree_disk : world :=
  World (list_to_map [(["app"], Dir); (["d"; "app"], Dir);
                      (["g"; "d"; "app"], File half1);
                      (["e"; "d"; "app"], Dir);
                      (["h"; "e"; "d"; "app"], File half2)])
        ["app"] [] [].

(** A store that takes every upload. *)
Definition open_bucket : s3 :=
  {| client := None;
     head_object := fun _ _ => None;
     upload_file := fun _ _ _ => None |}.

(** A store that turns down the upload of one key. *)
Definition picky_bucket : s3 :=
  {| client := None;
     head_object := fun _ _ => None;
     upload_file := fun _ _ s3_key =>
       if String.eqb s3_key "g"
       then Some {| is_Exception := true; text := "Access Denied" |}
       else None |}.

(** * Proofs *)

(** ** The monad *)

Lemma bind_Ok {A B} (m : M A) (k : A -> M B) w a w' :
  m w = (Ok a, w') -> bind m k w = k a w'.
Proof. intros H. unfold bind. by rewrite H. Qed.

Lemma bind_Raise {A B} (m : M A) (k : A -> M B) w e w' :
  m w = (Raise e, w') -> bind m k w = (Raise e, w').
Proof. intros H. unfold bind. by rewrite H. Qed.

Lemma preserves_bind {A B} (P : world -> world -> Prop) (m : M A)
  (k : A -> M B) :
  (forall w1 w2 w3, P w1 w2 -> P w2 w3 -> P w1 w3) ->
  preserves P m -> (forall a, preserves P (k a)) -> preserves P (bind m k).
Proof.
  intros Htrans Hm Hk w r w'. unfold bind.
  destruct (m w) as [[a|e] w1] eqn:E; intros H.
  - eapply Htrans; [eapply Hm, E | eapply Hk, H].
  - inversion H; subst. eapply Hm, E.
Qed.

Lemma preserves_try_except {A} (P : world -> world -> Prop) (m : M A)
  (handler : exn -> option (M A)) :
  (forall w1 w2 w3, P w1 w2 -> P w2 w3 -> P w1 w3) ->
  preserves P m ->
  (forall e h, handler e = Some h -> preserves P h) ->
  preserves P (try_except m handler).
Proof.
  intros Htrans Hm Hh w r w'. unfold try_except.
  destruct (m w) as [[a|e] w1] eqn:E.
  - intros H; inversion H; subst. eapply Hm, E.
  - destruct (handler e) as [h|] eqn:Eh; intros H.
    + eapply Htrans; [eapply Hm, E | eapply Hh; eauto].
    + inversion H; subst. eapply Hm, E.
Qed.

Lemma preserves_ret {A} (P : world -> world -> Prop) (a : A) :
  (forall w, P w w) -> preserves P (ret a).
Proof. intros Hrefl w r w' H. inversion H; subst. apply Hrefl. Qed.

Lemma preserves_raise {A} (P : world -> world -> Prop) (e : exn) :
  (forall w, P w w) -> preserves P (@raise A e).
Proof. intros Hrefl w r w' H. inversion H; subst. apply Hrefl. Qed.

Lemma fs_only_refl w : fs_only w w.
Proof. by repeat split. Qed.

Lemma fs_only_trans w1 w2 w3 : fs_only w1 w2 -> fs_only w2 w3 -> fs_only w1 w3.
Proof. unfold fs_only. intros (?&?&?) (?&?&?). repeat split; congruence. Qed.

Lemma only_adds_dirs_refl w : only_adds_dirs w w.
Proof.
  split; [apply fs_only_refl|]. intros q. destruct (nodes w !! q); auto.
Qed.

Lemma only_adds_dirs_trans w1 w2 w3 :
  only_adds_dirs w1 w2 -> only_adds_dirs w2 w3 -> only_adds_dirs w1 w3.
Proof.
  intros [F1 H1] [F2 H2]. split; [eapply fs_only_trans; eauto|].
  intros q. specialize (H1 q). specialize (H2 q).
  destruct (nodes w1 !! q) as [n|].
  - by rewrite H1 in H2.
  - destruct H1 as [H1|H1]; rewrite H1 in H2; auto.
Qed.

Lemma only_adds_dirs_keeps w w' : only_adds_dirs w w' -> keeps_nodes w w'.
Proof.
  intros [_ H] q n Hq. specialize (H q). by rewrite Hq in H.
Qed.

Lemma keeps_nodes_trans w1 w2 w3 :
  keeps_nodes w1 w2 -> keeps_nodes w2 w3 -> keeps_nodes w1 w3.
Proof. unfold keeps_nodes. eauto. Qed.

(** ** The file system operations *)

Lemma os_path_exists_cached file_key w :
  os_path_exists (os_path_join CACHE_DIR file_key) w = (Ok (cached file_key w), w).
Proof. unfold os_path_exists, cached. by destruct (os_stat _ _). Qed.

Lemma os_path_exists_pure path : preserves only_adds_dirs (os_path_exists path).
Proof.
  intros w r w'. unfold os_path_exists.
  destruct (os_stat w path); intros H; inversion H; subst;
    apply only_adds_dirs_refl.
Qed.

Lemma os_path_isdir_pure path : preserves only_adds_dirs (os_path_isdir path).
Proof.
  intros w r w'. unfold os_path_isdir.
  destruct (os_stat w path) as [[q [data|]]|e]; intros H; inversion H; subst;
    apply only_adds_dirs_refl.
Qed.

Lemma set_nodes_adds_dir w q :
  nodes w !! q = None -> only_adds_dirs w (set_nodes (<[q := Dir]> (nodes w)) w).
Proof.
  intros Hq. split; [by repeat split|]. intros q'. simpl.
  destruct (decide (q = q')) as [<-|Hne].
  - rewrite Hq, lookup_insert_eq. by right.
  - rewrite lookup_insert_ne by done. destruct (nodes w !! q'); auto.
Qed.

Lemma os_mkdir_adds path : preserves only_adds_dirs (os_mkdir path).
Proof.
  intros w r w'. unfold os_mkdir.
  destruct (check_path path) as [comps|e];
    [|intros H; inversion H; subst; apply only_adds_dirs_refl].
  destruct (parent_of w (strip_trailing comps)) as [[d name]|e];
    [|intros H; inversion H; subst; apply only_adds_dirs_refl].
  destruct (is_plain name);
    [|intros H; inversion H; subst; apply only_adds_dirs_refl].
  destruct (nodes w !! (name :: d)) eqn:E; intros H; inversion H; subst.
  - apply only_adds_dirs_refl.
  - by apply set_nodes_adds_dir.
Qed.

Lemma make_adds name exist_ok :
  preserves only_adds_dirs
    (try_except (os_mkdir name)
       (fun e => match e with
                 | OSError _ =>
                     Some (do is_dir <- os_path_isdir name;
                           if (negb exist_ok || negb is_dir)%bool
                           then raise e else ret tt)
                 | _ => None
                 end)).
Proof.
  apply preserves_try_except;
    [apply only_adds_dirs_trans | apply os_mkdir_adds |].
  intros e h He. destruct e; try discriminate. inversion He; subst.
  apply preserves_bind;
    [apply only_adds_dirs_trans | apply os_path_isdir_pure |].
  intros is_dir. destruct (negb exist_ok || negb is_dir)%bool.
  - apply preserves_raise, only_adds_dirs_refl.
  - apply preserves_ret, only_adds_dirs_refl.
Qed.

Lemma makedirs_rec_adds depth : forall name exist_ok,
  preserves only_adds_dirs (makedirs_rec depth name exist_ok).
Proof.
  induction depth as [|depth IH]; intros name exist_ok.
  - apply preserves_raise, only_adds_dirs_refl.
  - simpl. destruct (os_path_split name) as [head tail].
    destruct (if nonempty tail then (head, tail) else os_path_split head)
      as [head' tail'].
    destruct (nonempty head' && nonempty tail')%bool; [|apply make_adds].
    apply preserves_bind;
      [apply only_adds_dirs_trans | apply os_path_exists_pure |].
    intros head_exists. destruct head_exists; [apply make_adds|].
    apply preserves_bind; [apply only_adds_dirs_trans | |].
    + apply preserves_try_except; [apply only_adds_dirs_trans | apply IH |].
      intros e h He. destruct e as [[]| | | |]; try discriminate.
      inversion He; subst. apply preserves_ret, only_adds_dirs_refl.
    + intros _. destruct (String.eqb tail' ".").
      * apply preserves_ret, only_adds_dirs_refl.
      * apply make_adds.
Qed.

Lemma os_makedirs_adds name exist_ok :
  preserves only_adds_dirs (os_makedirs name exist_ok).
Proof. apply makedirs_rec_adds. Qed.

(** Resolution only looks at which locations are directories. *)
Lemma walk_mono m m' comps : forall cur d,
  (forall q, node_at m q = Some Dir -> node_at m' q = Some Dir) ->
  walk m cur comps = Ok d -> walk m' cur comps = Ok d.
Proof.
  induction comps as [|c rest IH]; intros cur d Hdirs; simpl.
  - destruct (node_at m cur) as [[|]|] eqn:E; try discriminate.
    intros H. by rewrite (Hdirs _ E).
  - destruct (node_at m cur) as [[|]|] eqn:E; try discriminate.
    intros H. rewrite (Hdirs _ E). by apply IH.
Qed.

Lemma walk_is_dir m comps : forall cur d,
  walk m cur comps = Ok d -> node_at m d = Some Dir.
Proof.
  induction comps as [|c rest IH]; intros cur d; simpl;
    destruct (node_at m cur) as [[|]|] eqn:E; try discriminate.
  - intros H. by inversion H; subst.
  - apply IH.
Qed.

Lemma parent_of_mono w w' comps d name :
  cwd w' = cwd w ->
  (forall q, node_at (nodes w) q = Some Dir -> node_at (nodes w') q = Some Dir) ->
  parent_of w comps = Ok (d, name) -> parent_of w' comps = Ok (d, name).
Proof.
  intros Hcwd Hdirs. unfold parent_of.
  destruct (walk (nodes w) _ _) as [d'|] eqn:E; [|discriminate].
  intros H. inversion H; subst.
  replace (start_of w' comps) with (start_of w comps)
    by (unfold start_of; by rewrite Hcwd).
  by rewrite (walk_mono _ _ _ _ _ Hdirs E).
Qed.

Lemma enter_plain d name : is_plain name = true -> enter d name = name :: d.
Proof.
  unfold is_plain, enter.
  destruct (String.eqb name ""), (String.eqb name "."), (String.eqb name "..");
    simpl; by try discriminate.
Qed.

Lemma raises_only_bind {A B} allowed (m : M A) (k : A -> M B) :
  raises_only allowed m -> (forall a, raises_only allowed (k a)) ->
  raises_only allowed (bind m k).
Proof.
  intros Hm Hk w e w'. unfold bind.
  destruct (m w) as [[a|e'] w1] eqn:E; intros H.
  - eapply Hk, H.
  - inversion H; subst. eapply Hm, E.
Qed.

Lemma raises_only_try_except {A} allowed (m : M A) handler :
  raises_only allowed m ->
  (forall e h, handler e = Some h -> raises_only allowed h) ->
  raises_only allowed (try_except m handler).
Proof.
  intros Hm Hh w e w'. unfold try_except.
  destruct (m w) as [[a|e'] w1] eqn:E; [discriminate|].
  destruct (handler e') as [h|] eqn:Eh; intros H.
  - eapply Hh; eauto.
  - inversion H; subst. eapply Hm, E.
Qed.

Lemma raises_only_ret {A} allowed (a : A) : raises_only allowed (ret a).
Proof. intros w e w' H. discriminate. Qed.

Lemma os_path_exists_total path : raises_only local_error (os_path_exists path).
Proof.
  intros w e w'. unfold os_path_exists. by destruct (os_stat w path).
Qed.

Lemma os_path_isdir_total path : raises_only local_error (os_path_isdir path).
Proof.
  intros w e w'. unfold os_path_isdir.
  by destruct (os_stat w path) as [[q [data|]]|].
Qed.

Lemma check_path_local path e : check_path path = Raise e -> local_error e = true.
Proof.
  unfold check_path. destruct (has_nul path); [by intros [= <-]|].
  destruct (String.eqb path ""); [by intros [= <-]|discriminate].
Qed.

Lemma walk_local m comps : forall cur e,
  walk m cur comps = Raise e -> local_error e = true.
Proof.
  induction comps as [|c rest IH]; intros cur e; simpl;
    destruct (node_at m cur) as [[|]|]; try (by intros [= <-]); try discriminate.
  apply IH.
Qed.

Lemma parent_of_local w comps e :
  parent_of w comps = Raise e -> local_error e = true.
Proof.
  unfold parent_of. destruct (walk _ _ _) eqn:E; [discriminate|].
  intros [= <-]. eapply walk_local, E.
Qed.

Lemma os_mkdir_local path : raises_only local_error (os_mkdir path).
Proof.
  intros w e w'. unfold os_mkdir.
  destruct (check_path path) as [comps|e'] eqn:E1;
    [|intros [= <- _]; eapply check_path_local, E1].
  destruct (parent_of w _) as [[d name]|e'] eqn:E2;
    [|intros [= <- _]; eapply parent_of_local, E2].
  destruct (is_plain name); [|by intros [= <- _]].
  destruct (nodes w !! _); [by intros [= <- _]|discriminate].
Qed.

Lemma make_local name exist_ok :
  raises_only local_error
    (try_except (os_mkdir name)
       (fun e => match e with
                 | OSError _ =>
                     Some (do is_dir <- os_path_isdir name;
                           if (negb exist_ok || negb is_dir)%bool
                           then raise e else ret tt)
                 | _ => None
                 end)).
Proof.
  apply raises_only_try_except; [apply os_mkdir_local|].
  intros e h He. destruct e; try discriminate. inversion He; subst.
  apply raises_only_bind; [apply os_path_isdir_total|].
  intros is_dir. destruct (negb exist_ok || negb is_dir)%bool.
  - by intros w e' w' [= <- _].
  - apply raises_only_ret.
Qed.

Lemma cut_length p h t :
  cut p = (h, t) -> (String.length h + String.length t = String.length p)%nat.
Proof.
  revert h t. induction p as [|c r IH]; intros h t; simpl.
  - by intros [= <- <-].
  - destruct (cut r) as [h' t']. specialize (IH h' t' eq_refl).
    destruct h' as [|c' h'']; [destruct (is_sep c)|];
      intros [= <- <-]; simpl in *; lia.
Qed.

Lemma rstrip_sep_length s : (String.length (rstrip_sep s) <= String.length s)%nat.
Proof.
  induction s as [|c r IH]; simpl; [lia|].
  destruct (rstrip_sep r); [destruct (is_sep c)|]; simpl in *; lia.
Qed.

Lemma os_path_split_length p h t :
  os_path_split p = (h, t) ->
  (String.length h + String.length t <= String.length p)%nat.
Proof.
  unfold os_path_split. destruct (cut p) as [h' t'] eqn:E.
  apply cut_length in E. pose proof (rstrip_sep_length h').
  destruct (_ && _)%bool; intros [= <- <-]; lia.
Qed.

Lemma nonempty_length s : nonempty s = true -> (0 < String.length s)%nat.
Proof. destruct s; [discriminate | simpl; lia]. Qed.

(** The recursion of [makedirs] never runs out of depth, and only the
    exceptions of the file system come out of it. *)
Lemma makedirs_rec_local depth : forall name exist_ok,
  (String.length name < depth)%nat ->
  raises_only local_error (makedirs_rec depth name exist_ok).
Proof.
  induction depth as [|depth IH]; intros name exist_ok Hlen; [lia|].
  simpl. destruct (os_path_split name) as [head tail] eqn:E1.
  apply os_path_split_length in E1.
  destruct (if nonempty tail then (head, tail) else os_path_split head)
    as [head' tail'] eqn:E2.
  destruct (nonempty head' && nonempty tail')%bool eqn:E3; [|apply make_local].
  apply andb_prop in E3 as [_ Htail%nonempty_length].
  assert (String.length head' < depth)%nat as Hhead.
  { destruct (nonempty tail).
    - inversion E2; subst. lia.
    - apply os_path_split_length in E2. lia. }
  apply raises_only_bind; [apply os_path_exists_total|].
  intros head_exists. destruct head_exists; [apply make_local|].
  apply raises_only_bind.
  - apply raises_only_try_except; [by apply IH|].
    intros e h He. destruct e as [[]| | | |]; try discriminate.
    inversion He; subst. apply raises_only_ret.
  - intros _. destruct (String.eqb tail' ".");
      [apply raises_only_ret | apply make_local].
Qed.

Lemma os_makedirs_local name exist_ok :
  raises_only local_error (os_makedirs name exist_ok).
Proof. apply makedirs_rec_local. lia. Qed.

Lemma open_wb_inv path w f w' :
  open_wb path w = (Ok f, w') ->
  exists comps d name,
    check_path path = Ok comps /\ parent_of w comps = Ok (d, name) /\
    is_plain name = true /\ f = {| f_loc := name :: d; f_pos := 0 |} /\
    nodes w !! (name :: d) <> Some Dir /\
    w' = set_nodes (<[name :: d := File []]> (nodes w)) w.
Proof.
  unfold open_wb. destruct (check_path path) as [comps|]; [|discriminate].
  destruct (parent_of w (strip_trailing comps)) as [[d name]|] eqn:E;
    [|discriminate].
  destruct (is_plain name) eqn:Hplain; [|discriminate]. simpl.
  case_bool_decide as Hstrip; [|discriminate]. rewrite Hstrip in E.
  destruct (nodes w !! (name :: d)) as [[data|]|] eqn:En; try discriminate;
    intros [= <- <-]; exists comps, d, name; repeat split; auto; congruence.
Qed.

Lemma open_wb_fails path w e w' :
  open_wb path w = (Raise e, w') -> w' = w /\ local_error e = true.
Proof.
  unfold open_wb.
  destruct (check_path path) as [comps|e'] eqn:E1;
    [|intros [= <- <-]; split; [done | eapply check_path_local, E1]].
  destruct (parent_of w _) as [[d name]|e'] eqn:E2;
    [|intros [= <- <-]; split; [done | eapply parent_of_local, E2]].
  destruct (is_plain name && _)%bool; [|by intros [= <- <-]].
  destruct (nodes w !! _) as [[|]|]; try discriminate. by intros [= <- <-].
Qed.

Lemma write_at_end old chunk : write_at old (length old) chunk = old ++ chunk.
Proof.
  unfold write_at. rewrite take_ge by lia. rewrite drop_ge by lia.
  replace (length old - length old)%nat with 0%nat by lia. simpl.
  by rewrite app_nil_r.
Qed.

(** Copying the body into a file that is written at its end appends the
    chunks; a body that breaks off is copied as far as it came. *)
Lemma copy_body todo stop : forall f w old,
  nodes w !! f_loc f = Some (File old) -> f_pos f = length old ->
  exists res w',
    for_iter_content todo stop file_write f w = (res, w') /\
    fs_only w w' /\
    nodes w' = <[f_loc f := File (old ++ concat todo)]> (nodes w) /\
    match stop with
    | Some what => res = Raise (RequestException what)
    | None => exists f', res = Ok f'
    end.
Proof.
  induction todo as [|chunk rest IH]; intros f w old Hf Hpos; simpl.
  - exists (match stop with
            | Some what => Raise (RequestException what)
            | None => Ok f
            end), w.
    rewrite app_nil_r, insert_id by done.
    destruct stop; repeat split; eauto.
  - unfold bind, file_write at 1. rewrite Hf, Hpos, write_at_end.
    set (w1 := set_nodes _ w).
    destruct (IH {| f_loc := f_loc f; f_pos := length old + length chunk |}
                 w1 (old ++ chunk)) as (res & w' & Hrun & Hfs & Hn & Hres).
    + simpl. apply lookup_insert_eq.
    + simpl. by rewrite length_app.
    + exists res, w'. split; [exact Hrun|]. split; [|split; [|exact Hres]].
      * destruct Hfs as (?&?&?). by repeat split.
      * rewrite Hn. simpl. by rewrite insert_insert_eq, <- app_assoc.
Qed.

Lemma os_stat_file w w' path comps d name data :
  check_path path = Ok comps -> parent_of w comps = Ok (d, name) ->
  is_plain name = true -> nodes w !! (name :: d) <> Some Dir ->
  cwd w' = cwd w -> nodes w' = <[name :: d := File data]> (nodes w) ->
  os_stat w' path = Ok (name :: d, File data).
Proof.
  intros Hc Hp Hplain Hnd Hcwd Hn. unfold os_stat. rewrite Hc.
  assert (Hdirs : forall q, node_at (nodes w) q = Some Dir ->
                            node_at (nodes w') q = Some Dir).
  { intros [|c q]; [done|]. simpl. intros Hq. rewrite Hn.
    rewrite lookup_insert_ne; [done|]. intros Heq. by rewrite Heq in Hnd. }
  rewrite (parent_of_mono w w' comps d name Hcwd Hdirs Hp).
  rewrite (enter_plain _ _ Hplain). simpl. by rewrite Hn, lookup_insert_eq.
Qed.

(** ** [fetch_s3_file], branch by branch *)

Lemma fetch_hit srv bucket_name file_key w :
  cached file_key w = true ->
  fetch_s3_file srv bucket_name file_key w =
    (Ok (os_path_join CACHE_DIR file_key),
     printed ("File " +:+ file_key +:+ " found in cache. No need to fetch again!") w).
Proof.
  intros Hc. unfold fetch_s3_file.
  rewrite (bind_Ok _ _ _ _ _ (os_path_exists_cached file_key w)), Hc.
  reflexivity.
Qed.

Lemma fetch_miss srv bucket_name file_key w :
  cached file_key w = false ->
  fetch_s3_file srv bucket_name file_key w =
    match request_and_open srv bucket_name file_key w with
    | (Ok (r, f), w1) => copy_and_return file_key r f w1
    | (Raise e, w1) => (Raise e, w1)
    end.
Proof.
  intros Hc. unfold fetch_s3_file.
  rewrite (bind_Ok _ _ _ _ _ (os_path_exists_cached file_key w)), Hc.
  unfold request_and_open, copy_and_return, bind.
  destruct (requests_get _ _ w) as [[r|e] w1]; [|done].
  destruct (raise_for_status r w1) as [[[]|e] w2]; [|done].
  destruct (os_makedirs _ _ w2) as [[[]|e] w3]; [|done].
  destruct (open_wb _ w3) as [[f|e] w4]; [|done].
  unfold ret. by destruct (for_iter_content _ _ _ _ w4) as [[f'|e] w5].
Qed.

Lemma request_and_open_inv srv bucket_name file_key w res w1 :
  request_and_open srv bucket_name file_key w = (res, w1) ->
  match res with
  | Raise e =>
      only_adds_dirs (logged (s3_url_of bucket_name file_key) w) w1 /\
      match srv (length (sent w)) (s3_url_of bucket_name file_key) with
      | Refused what => e = RequestException what
      | Answered r => e = HTTPError (status_code r) \/ local_error e = true
      end
  | Ok (r, f) =>
      srv (length (sent w)) (s3_url_of bucket_name file_key) = Answered r /\
      exists w',
        only_adds_dirs (logged (s3_url_of bucket_name file_key) w) w' /\
        open_wb (os_path_join CACHE_DIR file_key) w' = (Ok f, w1)
  end.
Proof.
  unfold request_and_open, bind, requests_get.
  destruct (srv _ _) as [what|r].
  { intros [= <- <-]. split; [apply only_adds_dirs_refl | done]. }
  unfold raise_for_status.
  destruct ((400 <=? status_code r)%Z && (status_code r <? 600)%Z)%bool.
  { unfold raise. intros [= <- <-].
    split; [apply only_adds_dirs_refl | by left]. }
  unfold ret at 1.
  destruct (os_makedirs _ _ _) as [[[]|e] w2] eqn:Emk.
  - pose proof (os_makedirs_adds _ _ _ _ _ Emk) as Hadds.
    destruct (open_wb _ w2) as [[f|e] w3] eqn:Eopen.
    + unfold ret. intros [= <- <-]. split; [done|]. by exists w2.
    + intros [= <- <-]. destruct (open_wb_fails _ _ _ _ Eopen) as [-> Hloc].
      split; [done | by right].
  - intros [= <- <-]. split.
    + eapply os_makedirs_adds, Emk.
    + right. eapply os_makedirs_local, Emk.
Qed.

(** A call that finds nothing in the cache: the request is logged; then
    either the call fails before anything is written and only directories
    were added, or the file was opened and holds what the body delivered. *)
Lemma fetch_miss_inv srv bucket_name file_key w res w2 :
  cached file_key w = false ->
  fetch_s3_file srv bucket_name file_key w = (res, w2) ->
  (exists e, res = Raise e /\
     only_adds_dirs (logged (s3_url_of bucket_name file_key) w) w2 /\
     match srv (length (sent w)) (s3_url_of bucket_name file_key) with
     | Refused what => e = RequestException what
     | Answered r => e = HTTPError (status_code r) \/ local_error e = true
     end) \/
  (exists r w1 comps d name,
     srv (length (sent w)) (s3_url_of bucket_name file_key) = Answered r /\
     only_adds_dirs (logged (s3_url_of bucket_name file_key) w) w1 /\
     check_path (os_path_join CACHE_DIR file_key) = Ok comps /\
     parent_of w1 comps = Ok (d, name) /\ is_plain name = true /\
     nodes w1 !! (name :: d) <> Some Dir /\
     nodes w2 = <[name :: d := File (concat (chunks r))]> (nodes w1) /\
     cwd w2 = cwd w1 /\ sent w2 = sent w1 /\
     res = match broken r with
           | Some what => Raise (RequestException what)
           | None => Ok (os_path_join CACHE_DIR file_key)
           end).
Proof.
  intros Hc. rewrite (fetch_miss _ _ _ _ Hc).
  destruct (request_and_open _ _ _ w) as [[[r f]|e] w1] eqn:Ero;
    pose proof (request_and_open_inv _ _ _ _ _ _ Ero) as Hinv; simpl in Hinv.
  2:{ intros [= <- <-]. left. exists e. by destruct Hinv. }
  destruct Hinv as (Hsrv & w' & Hadds & Hopen).
  destruct (open_wb_inv _ _ _ _ Hopen)
    as (comps & d & name & Hcheck & Hpar & Hplain & -> & Hnd & ->).
  unfold copy_and_return, bind.
  destruct (copy_body (chunks r) (broken r)
              {| f_loc := name :: d; f_pos := 0 |}
              (set_nodes (<[name :: d := File []]> (nodes w')) w') [])
    as (res' & w3 & Hrun & (Hcwd & Hsent & Hout) & Hn & Hres).
  { simpl. apply lookup_insert_eq. }
  { done. }
  rewrite Hrun. simpl in Hn. rewrite insert_insert_eq in Hn.
  intros Hfin. right. exists r, w', comps, d, name.
  assert (Hend : nodes w2 = nodes w3 /\ cwd w2 = cwd w3 /\ sent w2 = sent w3 /\
                 res = match broken r with
                       | Some what => Raise (RequestException what)
                       | None => Ok (os_path_join CACHE_DIR file_key)
                       end).
  { destruct (broken r) as [what|].
    - subst res'. by inversion Hfin; subst.
    - destruct Hres as [f' ->]. unfold print, ret in Hfin.
      by inversion Hfin; subst. }
  destruct Hend as (Hn2 & Hc2 & Hs2 & Hr2).
  rewrite Hn2, Hc2, Hs2, Hn, Hcwd, Hsent. by split_and!.
Qed.

Lemma os_stat_ext w w' path :
  nodes w' = nodes w -> cwd w' = cwd w -> os_stat w' path = os_stat w path.
Proof.
  intros Hn Hc. unfold os_stat, parent_of, start_of. by rewrite Hn, Hc.
Qed.

Lemma cached_ext w w' file_key :
  nodes w' = nodes w -> cwd w' = cwd w -> cached file_key w' = cached file_key w.
Proof. intros Hn Hc. unfold cached. by rewrite (os_stat_ext w w'). Qed.

Lemma cached_after_write w w' file_key comps d name data :
  check_path (os_path_join CACHE_DIR file_key) = Ok comps ->
  parent_of w comps = Ok (d, name) ->
  is_plain name = true -> nodes w !! (name :: d) <> Some Dir ->
  cwd w' = cwd w -> nodes w' = <[name :: d := File data]> (nodes w) ->
  cached file_key w' = true.
Proof.
  intros Hc Hp Hplain Hnd Hcwd Hn. unfold cached.
  by rewrite (os_stat_file w w' _ comps d name data).
Qed.

(** ** C1: the fast path *)

(** C1, as the code has it: whenever anything exists at the local path of
    a key, [fetch_s3_file] returns that path, sends no request and leaves
    the file system alone; what is there is not checked in any way. *)
Theorem fetch_fast_path srv bucket_name file_key w :
  cached file_key w = true ->
  exists w',
    fetch_s3_file srv bucket_name file_key w
      = (Ok (os_path_join CACHE_DIR file_key), w') /\
    sent w' = sent w /\ nodes w' = nodes w /\ cwd w' = cwd w.
Proof.
  intros Hc. rewrite (fetch_hit _ _ _ _ Hc). eexists. by split_and!.
Qed.

Lemma fetch_fast_path_witness :
  cached key torn_disk = true /\
  exists w',
    fetch_s3_file store bucket key torn_disk
      = (Ok (os_path_join CACHE_DIR key), w') /\
    sent w' = sent torn_disk /\ nodes w' = nodes torn_disk /\
    cwd w' = cwd torn_disk.
Proof.
  split; [vm_compute; reflexivity|].
  apply (fetch_fast_path store bucket key torn_disk). vm_compute; reflexivity.
Defined.

(** C1 fails as stated: after a download that broke off half way, the next
    call takes the fast path and returns the entry although its size, 2,
    is not the size recorded when it was fetched, 4. *)
Lemma fast_path_without_integrity_check :
  let after_failure := snd (fetch_s3_file flaky_store bucket key empty_disk) in
  fst (fetch_s3_file flaky_store bucket key empty_disk)
    = Raise (RequestException "Connection broken") /\
  fst (fetch_s3_file flaky_store bucket key after_failure) = Ok key_path /\
  sent (snd (fetch_s3_file flaky_store bucket key after_failure))
    = sent after_failure /\
  size_at after_failure key_path = Some 2%nat /\
  content_length cut_short = Some 4%nat.
Proof. vm_compute. by split_and!. Qed.

(** ** C2: calling twice *)

(** C2.  Idempotence: when a call succeeds, the next call for the same key
    returns the same path and sends no request.  Starting from a key that
    is not in the cache, the first call sent exactly one request, so the
    two calls make exactly one fetch in total; when the key was in the
    cache already, the first call is a hit as well and sent none. *)
Theorem fetch_twice srv bucket_name file_key w p w1 :
  fetch_s3_file srv bucket_name file_key w = (Ok p, w1) ->
  exists w2,
    fetch_s3_file srv bucket_name file_key w1 = (Ok p, w2) /\
    sent w2 = sent w1 /\
    sent w1 = if cached file_key w then sent w
              else sent w ++ [s3_url_of bucket_name file_key].
Proof.
  intros Hrun. destruct (cached file_key w) eqn:Hc.
  - rewrite (fetch_hit _ _ _ _ Hc) in Hrun. inversion Hrun; subst.
    rewrite fetch_hit by (by rewrite <- Hc; apply cached_ext).
    eexists. by split_and!.
  - destruct (fetch_miss_inv _ _ _ _ _ _ Hc Hrun)
      as [(e & He & _)|(r & w' & comps & d & name & Hsrv & [Hfs Hadds] & Hcheck
                        & Hpar & Hplain & Hnd & Hn & Hcwd & Hsent & Hres)];
      [discriminate|].
    destruct (broken r); [discriminate|]. inversion Hres; subst p.
    rewrite fetch_hit
      by (eapply cached_after_write; eauto).
    eexists. split_and!; try done.
    rewrite Hsent. by destruct Hfs as (_ & -> & _).
Qed.

Lemma fetch_twice_witness :
  fetch_s3_file store bucket key empty_disk
    = (Ok key_path, snd (fetch_s3_file store bucket key empty_disk)) /\
  exists w2,
    fetch_s3_file store bucket key
      (snd (fetch_s3_file store bucket key empty_disk)) = (Ok key_path, w2) /\
    sent w2 = sent (snd (fetch_s3_file store bucket key empty_disk)) /\
    sent (snd (fetch_s3_file store bucket key empty_disk))
      = if cached key empty_disk then sent empty_disk
        else sent empty_disk ++ [s3_url_of bucket key].
Proof.
  split; [vm_compute; reflexivity|].
  apply (fetch_twice store bucket key empty_disk key_path).
  vm_compute; reflexivity.
Defined.

(** ** C3: a download that breaks off *)

(** C3, as the code has it: the body is written straight to the final
    path.  When the request was answered and the call ends with the
    transport error of a body that broke off, the final path holds a file
    with the bytes received until then, and every later call for the key
    returns that path without sending a request. *)
Theorem broken_body_leaves_partial_file srv bucket_name file_key w r what w1 :
  srv (length (sent w)) (s3_url_of bucket_name file_key) = Answered r ->
  fetch_s3_file srv bucket_name file_key w = (Raise (RequestException what), w1) ->
  (exists q, os_stat w1 (os_path_join CACHE_DIR file_key)
               = Ok (q, File (concat (chunks r)))) /\
  forall srv', exists w2,
    fetch_s3_file srv' bucket_name file_key w1
      = (Ok (os_path_join CACHE_DIR file_key), w2) /\
    sent w2 = sent w1.
Proof.
  intros Hsrv Hrun. destruct (cached file_key w) eqn:Hc.
  { by rewrite (fetch_hit _ _ _ _ Hc) in Hrun. }
  destruct (fetch_miss_inv _ _ _ _ _ _ Hc Hrun)
    as [(e & He & _ & Hkind)|(r' & w' & comps & d & name & Hsrv' & _ & Hcheck
                              & Hpar & Hplain & Hnd & Hn & Hcwd & _)].
  - rewrite Hsrv in Hkind. inversion He; subst e.
    by destruct Hkind as [Hkind|Hkind].
  - rewrite Hsrv in Hsrv'. inversion Hsrv'; subst r'. split.
    + exists (name :: d). eapply os_stat_file; eauto.
    + intros srv'. rewrite fetch_hit by (eapply cached_after_write; eauto).
      eexists. by split.
Qed.

Lemma broken_body_leaves_partial_file_witness :
  flaky_store (length (sent empty_disk)) (s3_url_of bucket key)
    = Answered cut_short /\
  fetch_s3_file flaky_store bucket key empty_disk
    = (Raise (RequestException "Connection broken"),
       snd (fetch_s3_file flaky_store bucket key empty_disk)) /\
  (exists q, os_stat (snd (fetch_s3_file flaky_store bucket key empty_disk))
               (os_path_join CACHE_DIR key)
               = Ok (q, File (concat (chunks cut_short)))) /\
  forall srv', exists w2,
    fetch_s3_file srv' bucket key
      (snd (fetch_s3_file flaky_store bucket key empty_disk))
      = (Ok (os_path_join CACHE_DIR key), w2) /\
    sent w2 = sent (snd (fetch_s3_file flaky_store bucket key empty_disk)).
Proof.
  split; [reflexivity|]. split; [vm_compute; reflexivity|].
  apply (broken_body_leaves_partial_file flaky_store bucket key empty_disk
           cut_short "Connection broken").
  - reflexivity.
  - vm_compute; reflexivity.
Defined.

(** C3 fails as stated: the remote read breaks off after half of the
    bytes, the call raises, and the final path holds a file with that
    half. *)
Lemma broken_download_leaves_a_file_at_the_final_path :
  let failed := fetch_s3_file flaky_store bucket key empty_disk in
  fst failed = Raise (RequestException "Connection broken") /\
  os_stat (snd failed) key_path = Ok (key_loc, File half1) /\
  cached key (snd failed) = true.
Proof. vm_compute. by split_and!. Qed.

(** ** C4: keys are not validated *)

(** C4, as the code has it: no key is turned down.  Whatever the key, the
    call either finds something at the path the key is joined into and
    returns it, or sends a request for the URL the key is pasted into. *)
Theorem no_key_is_rejected srv bucket_name file_key w :
  (fst (fetch_s3_file srv bucket_name file_key w)
     = Ok (os_path_join CACHE_DIR file_key) /\
   sent (snd (fetch_s3_file srv bucket_name file_key w)) = sent w) \/
  sent (snd (fetch_s3_file srv bucket_name file_key w))
    = sent w ++ [s3_url_of bucket_name file_key].
Proof.
  destruct (cached file_key w) eqn:Hc.
  - left. by rewrite (fetch_hit _ _ _ _ Hc).
  - right. destruct (fetch_s3_file srv bucket_name file_key w) as [res w2] eqn:E.
    destruct (fetch_miss_inv _ _ _ _ _ _ Hc E)
      as [(e & _ & [(_ & Hs & _) _] & _)
         |(r & w' & comps & d & name & _ & [(_ & Hs & _) _] & _ & _ & _ & _ & _
           & _ & Hsent & _)]; simpl.
    + exact Hs.
    + by rewrite Hsent, Hs.
Qed.

(** C4 fails as stated: the key [../etc/passwd] is not turned down; a
    request goes out for it and the call succeeds, leaving the body in
    [/app/etc/passwd], outside of the cache directory. *)
Lemma traversal_key_is_fetched :
  let call := fetch_s3_file store bucket "../etc/passwd" empty_disk in
  fst call = Ok "cache/../etc/passwd" /\
  sent (snd call) = ["https://desi-us-east-2.s3.amazonaws.com/../etc/passwd"] /\
  nodes (snd call) !! ["passwd"; "etc"; "app"] = Some (File (half1 ++ half2)).
Proof. vm_compute. by split_and!. Qed.

(** ** C6: what a successful call returns *)

(** C6, as the code has it.  A hit never fails and never looks at what it
    returns: whenever something is at the local path, the call returns
    that path, sends no request and leaves what is there as it is.  And
    every successful call returns the joined path; after a miss the path
    holds a file with exactly the bytes the body of the reply delivered. *)
Theorem fetch_result srv bucket_name file_key w :
  (cached file_key w = true ->
   exists w1,
     fetch_s3_file srv bucket_name file_key w
       = (Ok (os_path_join CACHE_DIR file_key), w1) /\
     sent w1 = sent w /\ nodes w1 = nodes w /\
     os_stat w1 (os_path_join CACHE_DIR file_key)
       = os_stat w (os_path_join CACHE_DIR file_key)) /\
  (forall p w1,
     fetch_s3_file srv bucket_name file_key w = (Ok p, w1) ->
     p = os_path_join CACHE_DIR file_key /\
     (cached file_key w = false ->
      exists r q,
        srv (length (sent w)) (s3_url_of bucket_name file_key) = Answered r /\
        os_stat w1 p = Ok (q, File (concat (chunks r))))).
Proof.
  split.
  - intros Hc. rewrite (fetch_hit _ _ _ _ Hc). eexists. by split_and!.
  - intros p w1 Hrun. destruct (cached file_key w) eqn:Hc.
    + rewrite (fetch_hit _ _ _ _ Hc) in Hrun. by inversion Hrun; subst.
    + destruct (fetch_miss_inv _ _ _ _ _ _ Hc Hrun)
        as [(e & He & _)|(r & w' & comps & d & name & Hsrv & _ & Hcheck
                          & Hpar & Hplain & Hnd & Hn & Hcwd & _ & Hres)];
        [discriminate|].
      destruct (broken r); [discriminate|]. inversion Hres; subst p.
      split; [done|]. intros _. exists r, (name :: d). split; [done|].
      eapply os_stat_file; eauto.
Qed.

Lemma fetch_result_witness :
  (exists w1,
     fetch_s3_file store bucket key torn_disk = (Ok key_path, w1) /\
     sent w1 = sent torn_disk /\ nodes w1 = nodes torn_disk /\
     os_stat w1 key_path = os_stat torn_disk key_path) /\
  key_path = os_path_join CACHE_DIR key /\
  exists r q,
    store (length (sent empty_disk)) (s3_url_of bucket key) = Answered r /\
    os_stat (snd (fetch_s3_file store bucket key empty_disk)) key_path
      = Ok (q, File (concat (chunks r))).
Proof.
  split.
  - apply (proj1 (fetch_result store bucket key torn_disk)).
    vm_compute; reflexivity.
  - destruct (proj2 (fetch_result store bucket key empty_disk) key_path
                (snd (fetch_s3_file store bucket key empty_disk)))
      as [Hp Hmiss]; [vm_compute; reflexivity|].
    split; [exact Hp|]. apply Hmiss. vm_compute; reflexivity.
Defined.

(** C6 fails as stated: with half of the object in the cache, the call
    succeeds, and the file at the returned path is neither the object the
    store holds nor of the size the store reports for it. *)
Lemma hit_returns_incomplete_copy :
  let call := fetch_s3_file store bucket key torn_disk in
  fst call = Ok key_path /\
  os_stat (snd call) key_path = Ok (key_loc, File half1) /\
  store 0%nat (s3_url_of bucket key) = Answered whole /\
  half1 <> concat (chunks whole) /\
  size_at (snd call) key_path = Some 2%nat /\
  content_length whole = Some 4%nat.
Proof. vm_compute. by split_and!. Qed.

(** ** C8: keys, paths and locations *)

Lemma append_inj_l s a b : s +:+ a = s +:+ b -> a = b.
Proof. induction s as [|c s IH]; simpl; [done|]. intros [= H]. by apply IH. Qed.

Lemma is_sep_eq c : is_sep c = true -> c = "/"%char.
Proof. unfold is_sep. apply Ascii.eqb_eq. Qed.

Lemma components_nonempty s : components s <> [].
Proof.
  destruct s as [|c r]; simpl; [done|].
  destruct (is_sep c); [done|]. by destruct (components r).
Qed.

Lemma sep_join_components s : sep_join (components s) = s.
Proof.
  induction s as [|c r IH]; [done|]. simpl.
  pose proof (components_nonempty r) as Hne.
  destruct (components r) as [|x xs]; [done|].
  destruct (is_sep c) eqn:Hc.
  - apply is_sep_eq in Hc. subst c. simpl in *. by rewrite IH.
  - destruct xs as [|y ys]; simpl in *; by rewrite <- IH.
Qed.

Lemma components_inj s1 s2 : components s1 = components s2 -> s1 = s2.
Proof.
  intros H. rewrite <- (sep_join_components s1), <- (sep_join_components s2).
  by rewrite H.
Qed.

Lemma os_path_join_CACHE_DIR file_key :
  os_path_join CACHE_DIR file_key
    = if startswith_sep file_key then file_key else "cache/" +:+ file_key.
Proof. unfold os_path_join. by destruct (startswith_sep file_key). Qed.

Lemma os_path_join_inj k1 k2 :
  os_path_join CACHE_DIR k1 = os_path_join CACHE_DIR k2 -> k1 = k2.
Proof.
  rewrite !os_path_join_CACHE_DIR.
  destruct (startswith_sep k1) eqn:E1, (startswith_sep k2) eqn:E2; try done.
  - intros ->. simpl in E1. discriminate.
  - intros <-. simpl in E2. discriminate.
  - apply append_inj_l.
Qed.

Lemma s3_url_of_inj bucket_name k1 k2 :
  s3_url_of bucket_name k1 = s3_url_of bucket_name k2 -> k1 = k2.
Proof.
  unfold s3_url_of. intros H.
  by do 3 apply append_inj_l in H.
Qed.

Lemma components_cache file_key :
  components ("cache/" +:+ file_key) = "cache" :: components file_key.
Proof.
  simpl. pose proof (components_nonempty file_key). done.
Qed.

Lemma plain_key_relative file_key :
  plain_key file_key = true -> startswith_sep file_key = false.
Proof.
  destruct file_key as [|c r]; [done|]. unfold plain_key. simpl.
  destruct (is_sep c); [simpl; discriminate | done].
Qed.

Lemma walk_plain m comps : forall cur d,
  forallb is_plain comps = true -> walk m cur comps = Ok d ->
  d = rev comps ++ cur.
Proof.
  induction comps as [|c rest IH]; intros cur d Hp; simpl;
    destruct (node_at m cur) as [[|]|]; try discriminate.
  - by intros [= ->].
  - simpl in Hp. apply andb_prop in Hp as [Hc Hrest].
    rewrite (enter_plain _ _ Hc). intros H.
    rewrite (IH _ _ Hrest H). by rewrite <- app_assoc.
Qed.

(** The location a key made of names denotes: the names, under [cache],
    under the working directory. *)
Lemma os_stat_plain_key w file_key q n :
  plain_key file_key = true ->
  os_stat w (os_path_join CACHE_DIR file_key) = Ok (q, n) ->
  q = rev (components file_key) ++ "cache" :: cwd w.
Proof.
  intros Hplain. rewrite os_path_join_CACHE_DIR, (plain_key_relative _ Hplain).
  unfold os_stat, check_path.
  destruct (has_nul _); [discriminate|].
  destruct (String.eqb _ ""); [discriminate|].
  rewrite components_cache. unfold parent_of.
  destruct (walk _ _ _) as [d|] eqn:Ew; [|discriminate].
  pose proof (components_nonempty file_key) as Hne.
  unfold plain_key in Hplain.
  destruct (exists_last Hne) as (init & name & Hcomps).
  rewrite Hcomps in *. rewrite forallb_app in Hplain.
  apply andb_prop in Hplain as [Hinit Hname]. simpl in Hname.
  rewrite andb_true_r in Hname.
  change ("cache" :: init ++ [name]) with (("cache" :: init) ++ [name]) in *.
  rewrite removelast_last in Ew. rewrite last_last.
  apply walk_plain in Ew; [|by simpl; rewrite Hinit].
  rewrite (enter_plain _ _ Hname).
  destruct (node_at _ _); [|discriminate]. intros [= <- _].
  rewrite Ew. simpl. rewrite rev_app_distr. simpl.
  by rewrite <- !app_assoc.
Qed.

(** C8, as the code has it: two different keys are joined into different
    path strings and pasted into different URLs; and when both keys are
    made of names only (no empty segment, no [.], no [..]), the two paths
    never denote the same location of the file system. *)
Theorem distinct_keys_distinct_paths bucket_name k1 k2 :
  k1 <> k2 ->
  os_path_join CACHE_DIR k1 <> os_path_join CACHE_DIR k2 /\
  s3_url_of bucket_name k1 <> s3_url_of bucket_name k2 /\
  (plain_key k1 = true -> plain_key k2 = true ->
   forall w q1 n1 q2 n2,
     os_stat w (os_path_join CACHE_DIR k1) = Ok (q1, n1) ->
     os_stat w (os_path_join CACHE_DIR k2) = Ok (q2, n2) ->
     q1 <> q2).
Proof.
  intros Hne. split_and!.
  - intros H. by apply Hne, os_path_join_inj.
  - intros H. by apply Hne, (s3_url_of_inj bucket_name).
  - intros Hp1 Hp2 w q1 n1 q2 n2 H1 H2 Heq.
    apply (os_stat_plain_key _ _ _ _ Hp1) in H1.
    apply (os_stat_plain_key _ _ _ _ Hp2) in H2.
    rewrite H1, H2 in Heq. apply app_inv_tail in Heq.
    apply Hne, components_inj.
    by rewrite <- (rev_involutive (components k1)), Heq, rev_involutive.
Qed.

Lemma distinct_keys_distinct_paths_witness :
  "a/b" <> "a/b2" /\
  os_path_join CACHE_DIR "a/b" <> os_path_join CACHE_DIR "a/b2" /\
  s3_url_of bucket "a/b" <> s3_url_of bucket "a/b2" /\
  (plain_key "a/b" = true -> plain_key "a/b2" = true ->
   forall w q1 n1 q2 n2,
     os_stat w (os_path_join CACHE_DIR "a/b") = Ok (q1, n1) ->
     os_stat w (os_path_join CACHE_DIR "a/b2") = Ok (q2, n2) ->
     q1 <> q2).
Proof.
  split; [discriminate|].
  apply (distinct_keys_distinct_paths bucket "a/b" "a/b2"). discriminate.
Defined.

(** C8 fails as stated: the keys [a/b] and [a//b] are different, and so
    are the objects they name in the store, but both paths denote the one
    file [/app/cache/a/b]; with [a/b] in the cache, a call for [a//b]
    returns that file and requests nothing. *)
Lemma keys_with_a_doubled_separator_collide :
  "a/b" <> "a//b" /\
  s3_url_of bucket "a/b" <> s3_url_of bucket "a//b" /\
  fst <$> os_stat_loc ab_disk "a/b" = Some ["b"; "a"; "cache"; "app"] /\
  fst <$> os_stat_loc ab_disk "a//b" = Some ["b"; "a"; "cache"; "app"] /\
  fst (fetch_s3_file store bucket "a//b" ab_disk) = Ok "cache/a//b" /\
  sent (snd (fetch_s3_file store bucket "a//b" ab_disk)) = [].
Proof. vm_compute. by split_and!. Qed.

(** ** C9: what a call changes *)

Lemma wf_ancestors w : wf w ->
  forall l q, l <> [] -> is_Some (nodes w !! (l ++ q)) ->
  node_at (nodes w) q = Some Dir.
Proof.
  intros Hwf l. induction l as [|c l IH]; intros q Hne Hsome; [done|].
  pose proof (Hwf c (l ++ q) Hsome) as Hpar.
  destruct l as [|c' l']; [exact Hpar|].
  apply IH; [done|]. by exists Dir.
Qed.

Lemma enter_suffix cur c :
  negb (String.eqb c "..") = true -> cur `suffix_of` enter cur c.
Proof.
  unfold enter. intros Hc.
  destruct (String.eqb c ""); [done|]. destruct (String.eqb c "."); [done|].
  destruct (String.eqb c ".."); [done|]. by apply suffix_cons_r.
Qed.

Lemma walk_suffix m comps : forall cur d,
  forallb (fun c => negb (String.eqb c "..")) comps = true ->
  walk m cur comps = Ok d -> cur `suffix_of` d.
Proof.
  induction comps as [|c rest IH]; intros cur d Hdd; simpl;
    destruct (node_at m cur) as [[|]|]; try discriminate.
  - by intros [= ->].
  - simpl in Hdd. apply andb_prop in Hdd as [Hc Hrest]. intros H.
    etrans; [by apply enter_suffix | by eapply IH].
Qed.

(** Without [..] a resolution only passes through ancestors of where it
    ends, so it can be replayed wherever these are directories. *)
Lemma walk_replay m m' comps : forall cur d,
  forallb (fun c => negb (String.eqb c "..")) comps = true ->
  walk m' cur comps = Ok d ->
  (forall q, q `suffix_of` d -> node_at m q = Some Dir) ->
  walk m cur comps = Ok d.
Proof.
  induction comps as [|c rest IH]; intros cur d Hdd Hw Hdirs.
  - simpl in *. destruct (node_at m' cur) as [[|]|]; try discriminate.
    inversion Hw; subst. by rewrite Hdirs.
  - pose proof (walk_suffix _ _ _ _ Hdd Hw) as Hsuf.
    simpl in *. destruct (node_at m' cur) as [[|]|]; try discriminate.
    apply andb_prop in Hdd as [Hc Hrest].
    rewrite (Hdirs _ Hsuf). by apply IH.
Qed.

Lemma forallb_removelast {A} (f : A -> bool) l :
  forallb f l = true -> forallb f (removelast l) = true.
Proof.
  induction l as [|x l IH]; [done|]. simpl. intros H.
  apply andb_prop in H as [Hx Hl]. destruct l as [|y l']; [done|].
  simpl. rewrite Hx. simpl. by apply IH.
Qed.

Lemma no_dotdot_local_path file_key comps :
  no_dotdot file_key = true ->
  check_path (os_path_join CACHE_DIR file_key) = Ok comps ->
  forallb (fun c => negb (String.eqb c "..")) comps = true.
Proof.
  unfold no_dotdot, check_path. intros Hdd.
  destruct (has_nul _); [discriminate|].
  destruct (String.eqb _ ""); [discriminate|]. intros [= <-].
  rewrite os_path_join_CACHE_DIR. destruct (startswith_sep file_key); [done|].
  by rewrite components_cache.
Qed.

(** In a well-formed world, without [..] in the key, a file the local path
    denotes after directories were added was there, and was denoted by the
    path, before. *)
Lemma target_was_cached w w' file_key comps d name data :
  wf w -> no_dotdot file_key = true ->
  only_adds_dirs w w' ->
  check_path (os_path_join CACHE_DIR file_key) = Ok comps ->
  parent_of w' comps = Ok (d, name) -> is_plain name = true ->
  nodes w !! (name :: d) = Some data ->
  cached file_key w = true.
Proof.
  intros Hwf Hdd [(Hcwd & _ & _) Hadds] Hcheck Hpar Hplain Hthere.
  unfold cached, os_stat. rewrite Hcheck.
  unfold parent_of in *.
  destruct (walk (nodes w') _ _) as [d'|] eqn:Ew; [|discriminate].
  inversion Hpar; subst d' name. clear Hpar.
  replace (start_of w' comps) with (start_of w comps) in Ew
    by (unfold start_of; by rewrite Hcwd).
  rewrite (walk_replay (nodes w) (nodes w') _ _ d); [| |exact Ew|].
  - rewrite (enter_plain _ _ Hplain). simpl. by rewrite Hthere.
  - apply forallb_removelast. by eapply no_dotdot_local_path.
  - intros q [l ->].
    apply (wf_ancestors w Hwf (List.last comps "" :: l)); [done|].
    simpl. by rewrite Hthere.
Qed.

Lemma under_cache w file_key comps d name :
  startswith_sep file_key = false -> no_dotdot file_key = true ->
  check_path (os_path_join CACHE_DIR file_key) = Ok comps ->
  parent_of w comps = Ok (d, name) ->
  ("cache" :: cwd w) `suffix_of` d.
Proof.
  intros Hrel Hdd Hcheck.
  pose proof (no_dotdot_local_path _ _ Hdd Hcheck) as Hdd'.
  revert Hcheck Hdd'. unfold check_path.
  destruct (has_nul _); [discriminate|].
  destruct (String.eqb _ ""); [discriminate|]. intros [= <-].
  rewrite os_path_join_CACHE_DIR, Hrel, components_cache. intros Hdd'.
  unfold parent_of, start_of.
  pose proof (components_nonempty file_key) as Hne.
  destruct (components file_key) as [|c rest] eqn:Ec; [done|].
  change (removelast ("cache" :: c :: rest))
    with ("cache" :: removelast (c :: rest)).
  assert (Hrl : forallb (fun c => negb (String.eqb c ".."))
                  (removelast (c :: rest)) = true)
    by (apply forallb_removelast; exact Hdd').
  set (rl := removelast (c :: rest)) in *.
  destruct (walk _ _ _) as [d'|] eqn:Ew; [|discriminate]. intros [= <- _].
  simpl in Ew. destruct (node_at (nodes w) (cwd w)) as [[|]|]; try discriminate.
  change (enter (cwd w) "cache") with ("cache" :: cwd w) in Ew.
  eapply walk_suffix; [exact Hrl | exact Ew].
Qed.

Lemma miss_target_is_new bucket_name file_key w w' comps d name :
  wf w -> no_dotdot file_key = true -> cached file_key w = false ->
  only_adds_dirs (logged (s3_url_of bucket_name file_key) w) w' ->
  check_path (os_path_join CACHE_DIR file_key) = Ok comps ->
  parent_of w' comps = Ok (d, name) -> is_plain name = true ->
  nodes w !! (name :: d) = None.
Proof.
  intros Hwf Hdd Hc Hadds Hcheck Hpar Hplain.
  destruct (nodes w !! (name :: d)) as [n|] eqn:En; [|done].
  assert (cached file_key (logged (s3_url_of bucket_name file_key) w) = true)
    as Hc' by (eapply target_was_cached; eauto).
  rewrite (cached_ext w) in Hc' by done. congruence.
Qed.

(** C9, as the code has it, for a well-formed file system and a key
    without a [..] segment: no call changes or removes a node that exists;
    a hit changes no node at all; a successful miss adds directories and
    one file, the one the returned path denotes, which lies under the
    cache directory when the key does not start with a separator. *)
Theorem fetch_keeps_existing_nodes srv bucket_name file_key w res w1 :
  wf w -> no_dotdot file_key = true ->
  fetch_s3_file srv bucket_name file_key w = (res, w1) ->
  keeps_nodes w w1 /\
  (cached file_key w = true -> nodes w1 = nodes w) /\
  (cached file_key w = false -> forall p, res = Ok p ->
   exists q data,
     os_stat w1 p = Ok (q, File data) /\ nodes w !! q = None /\
     (startswith_sep file_key = false -> ("cache" :: cwd w) `suffix_of` q) /\
     forall q', q' <> q -> nodes w !! q' = None ->
                nodes w1 !! q' = None \/ nodes w1 !! q' = Some Dir).
Proof.
  intros Hwf Hdd Hrun. destruct (cached file_key w) eqn:Hc.
  { rewrite (fetch_hit _ _ _ _ Hc) in Hrun. inversion Hrun; subst.
    split_and!; [by intros q n | done | discriminate]. }
  destruct (fetch_miss_inv _ _ _ _ _ _ Hc Hrun)
    as [(e & -> & Hadds & _)|(r & w' & comps & d & name & Hsrv & Hadds & Hcheck
                              & Hpar & Hplain & Hnd & Hn & Hcwd & Hsent & Hres)].
  { split_and!; [|discriminate|discriminate].
    intros q n Hq. by apply (only_adds_dirs_keeps _ _ Hadds). }
  pose proof (miss_target_is_new _ _ _ _ _ _ _ Hwf Hdd Hc Hadds Hcheck
                Hpar Hplain) as Hnew.
  split_and!; [|discriminate|].
  - intros q n Hq. rewrite Hn.
    rewrite lookup_insert_ne by (intros <-; congruence).
    by apply (only_adds_dirs_keeps _ _ Hadds).
  - intros _ p ->. destruct (broken r); [discriminate|]. inversion Hres; subst p.
    exists (name :: d), (concat (chunks r)). split_and!.
    + eapply os_stat_file; eauto.
    + exact Hnew.
    + intros Hrel. apply suffix_cons_r.
      destruct Hadds as [(Hcwd' & _ & _) _]. simpl in Hcwd'. rewrite <- Hcwd'.
      eapply under_cache; eauto.
    + intros q' Hne Hq'. rewrite Hn, lookup_insert_ne by done.
      destruct Hadds as [_ Hadds]. specialize (Hadds q'). simpl in Hadds.
      by rewrite Hq' in Hadds.
Qed.

Lemma wfb_wf w : wfb w = true -> wf w.
Proof.
  unfold wfb. rewrite forallb_forall. intros H c q [n Hn].
  apply elem_of_map_to_list, list_elem_of_In in Hn.
  specialize (H _ Hn). simpl in H.
  by destruct (node_at (nodes w) q) as [[|]|].
Qed.

Lemma fetch_keeps_existing_nodes_witness :
  let w1 := snd (fetch_s3_file store bucket key y_disk) in
  cached "y" y_disk = true /\ cached key y_disk = false /\
  fetch_s3_file store bucket key y_disk = (Ok key_path, w1) /\
  keeps_nodes y_disk w1 /\
  nodes w1 !! ["y"; "cache"; "app"] = Some (File half1) /\
  exists q data,
    os_stat w1 key_path = Ok (q, File data) /\ nodes y_disk !! q = None /\
    (startswith_sep key = false -> ("cache" :: cwd y_disk) `suffix_of` q) /\
    forall q', q' <> q -> nodes y_disk !! q' = None ->
               nodes w1 !! q' = None \/ nodes w1 !! q' = Some Dir.
Proof.
  intros w1.
  assert (Hwf : wf y_disk) by (apply wfb_wf; vm_compute; reflexivity).
  assert (Hdd : no_dotdot key = true) by (vm_compute; reflexivity).
  assert (Hrun : fetch_s3_file store bucket key y_disk = (Ok key_path, w1))
    by (vm_compute; reflexivity).
  destruct (fetch_keeps_existing_nodes store bucket key y_disk (Ok key_path) w1
              Hwf Hdd Hrun) as (Hkeep & _ & Hmiss).
  split_and!; try (vm_compute; reflexivity); try exact Hkeep.
  apply Hmiss; [vm_compute; reflexivity | reflexivity].
Defined.

(** C9 fails as stated: with the object [y] in the cache, a call for the
    key [x/../../cache/y] finds nothing at [cache/x/../../cache/y], since
    [cache/x] is not there.  Its request reaches the store as one for the
    object [cache/y], another object than [y]; the call creates [cache/x]
    and writes that object through it over the entry of [y]. *)
Lemma dotdot_key_overwrites_another_entry :
  let file_key := "x/../../cache/y" in
  let call := fetch_s3_file two_objects bucket file_key y_disk in
  wfb y_disk = true /\ no_dotdot file_key = false /\
  cached "y" y_disk = true /\ cached file_key y_disk = false /\
  nodes y_disk !! ["y"; "cache"; "app"] = Some (File half1) /\
  two_objects 0%nat (s3_url_of bucket "y") = Answered small /\
  concat (chunks small) = half1 /\
  remove_path_dot_segments (url_path (s3_url_of bucket file_key)) = "/cache/y" /\
  remove_path_dot_segments (url_path (s3_url_of bucket "cache/y")) = "/cache/y" /\
  fst call = Ok "cache/x/../../cache/y" /\
  nodes (snd call) !! ["y"; "cache"; "app"] = Some (File (half1 ++ half2)).
Proof. vm_compute. by split_and!. Qed.

(** ** C7: the re-run loop *)

Lemma attempts_app l1 l2 : attempts (l1 ++ l2) = (attempts l1 + attempts l2)%nat.
Proof. unfold attempts. by rewrite filter_app, length_app. Qed.

Lemma delays_app l1 l2 : delays (l1 ++ l2) = delays l1 ++ delays l2.
Proof. unfold delays. apply omap_app. Qed.

Lemma round_exited script_path returncode log :
  exists log',
    round script_path (Exited returncode) log = Running log' /\
    attempts log' = S (attempts log) /\ delays log' = delays log ++ [5].
Proof.
  unfold round. eexists. split; [reflexivity|].
  destruct (returncode =? 0)%Z;
    rewrite ?attempts_app, ?delays_app; simpl; rewrite ?app_nil_r;
    split; try done; unfold attempts; simpl; lia.
Qed.

(** As long as the script only ever exits, with whatever return code, the
    loop goes on: one run and one sleep of five seconds per round. *)
Lemma while_true_goes_on script_path outcomes rounds : forall i log,
  (forall j, (i <= j < i + rounds)%nat -> exists c, outcomes j = Exited c) ->
  exists log',
    while_true (fun i => round script_path (outcomes i)) rounds i log
      = Running log' /\
    attempts log' = (attempts log + rounds)%nat /\
    delays log' = delays log ++ replicate rounds 5.
Proof.
  induction rounds as [|rounds IH]; intros i log Hout; simpl.
  - exists log. rewrite app_nil_r. split_and!; [done|lia|done].
  - destruct (Hout i) as [c Hc]; [lia|]. rewrite Hc.
    destruct (round_exited script_path c log) as (log1 & -> & Ha & Hd).
    destruct (IH (S i) log1) as (log' & Hrun & Ha' & Hd').
    { intros j Hj. apply Hout. lia. }
    exists log'. split_and!; [done|lia|].
    rewrite Hd', Hd, <- app_assoc. done.
Qed.

(** While the loop runs, it has printed one error line for each run that
    ended with a return code other than zero. *)
Lemma error_lines_app l1 l2 :
  error_lines (l1 ++ l2) = (error_lines l1 + error_lines l2)%nat.
Proof. unfold error_lines. by rewrite filter_app, length_app. Qed.

Lemma while_true_error_lines script_path outcomes rounds : forall i log log',
  while_true (fun i => round script_path (outcomes i)) rounds i log
    = Running log' ->
  error_lines log'
    = (error_lines log
       + length (filter (fun i => failed (outcomes i) = true) (seq i rounds)))%nat.
Proof.
  induction rounds as [|rounds IH]; intros i log log'; simpl.
  - intros [= <-]. lia.
  - destruct (outcomes i) as [c|what] eqn:Ei; unfold round; [|discriminate].
    intros H. apply IH in H. rewrite H. clear H.
    rewrite filter_cons.
    case_decide as Hd; rewrite Ei in Hd; simpl in Hd;
      destruct (c =? 0)%Z; simpl in Hd; try done;
      rewrite !error_lines_app; unfold error_lines; simpl; lia.
Qed.

(** C7, as the code has it: the loop has no bound and no backoff.  While
    the script exits with return codes, zero or not, the loop is still
    running after any number of rounds, has run the script once per round
    and has slept five seconds after each run; each run that failed got
    its error line printed, and none of the failures was passed on. *)
Theorem loop_runs_on_with_fixed_delay script_path outcomes rounds :
  (forall i, (i < rounds)%nat -> exists c, outcomes i = Exited c) ->
  exists log,
    run_script_every_5_seconds script_path outcomes rounds = Running log /\
    attempts log = rounds /\ delays log = replicate rounds 5 /\
    error_lines log = failures outcomes rounds.
Proof.
  intros Hout. unfold run_script_every_5_seconds.
  destruct (while_true_goes_on script_path outcomes rounds 0 [])
    as (log & Hrun & Ha & Hd).
  { intros j Hj. apply Hout. lia. }
  exists log. split_and!; try done.
  apply while_true_error_lines in Hrun. rewrite Hrun.
  unfold failures, error_lines. simpl. lia.
Qed.

Lemma loop_runs_on_with_fixed_delay_witness :
  (forall i, (i < 3)%nat -> exists c, always_failing i = Exited c) /\
  failures always_failing 3 = 3%nat /\
  exists log,
    run_script_every_5_seconds "test-notebook.py" always_failing 3
      = Running log /\
    attempts log = 3%nat /\ delays log = replicate 3 5 /\
    error_lines log = failures always_failing 3.
Proof.
  split; [intros i _; exists 1; reflexivity|].
  split; [vm_compute; reflexivity|].
  apply (loop_runs_on_with_fixed_delay "test-notebook.py" always_failing 3).
  intros i _. exists 1. reflexivity.
Defined.

(** C7 fails as stated: for a script that fails every time there is no
    bound on the number of runs, and the failure never ends the loop. *)
Lemma retries_are_unbounded :
  ~ exists bound, forall rounds,
      (attempts (log_of (run_script_every_5_seconds "test-notebook.py"
                           always_failing rounds)) <= bound)%nat.
Proof.
  intros [bound Hbound]. specialize (Hbound (S bound)).
  unfold run_script_every_5_seconds in Hbound.
  destruct (while_true_goes_on "test-notebook.py" always_failing (S bound) 0 [])
    as (log & Hrun & Ha & _).
  { intros j _. by exists 1. }
  rewrite Hrun in Hbound. simpl in Hbound. unfold attempts at 2 in Ha.
  simpl in Ha. lia.
Qed.

(** ** C10: the upload *)

(** C10, as the code has it: when the client could be set up and the
    upload raises nothing but instances of [Exception], the function
    returns normally.  Any error of the existence check leads to an upload
    attempt and is itself never printed: if the upload then goes through,
    the only line printed is the success line.  An error of the upload
    that is an [Exception] is printed. *)
Theorem upload_swallows_errors env file_path bucket_name s3_path :
  client env = None ->
  (forall e, upload_file env file_path bucket_name s3_path = Some e ->
             is_Exception e = true) ->
  fst (upload_file_to_s3_if_not_exists env file_path bucket_name s3_path)
    = Returned /\
  (forall e0, head_object env bucket_name s3_path = Some e0 ->
     Upload_file file_path bucket_name s3_path
       ∈ snd (upload_file_to_s3_if_not_exists env file_path bucket_name s3_path)) /\
  (forall e0, head_object env bucket_name s3_path = Some e0 ->
     upload_file env file_path bucket_name s3_path = None ->
     snd (upload_file_to_s3_if_not_exists env file_path bucket_name s3_path)
       = [Head_object bucket_name s3_path;
          Upload_file file_path bucket_name s3_path;
          Print ("File uploaded to " +:+ s3_path +:+ " in bucket "
                 +:+ bucket_name +:+ ".")]) /\
  (forall e0 e, head_object env bucket_name s3_path = Some e0 ->
     upload_file env file_path bucket_name s3_path = Some e ->
     snd (upload_file_to_s3_if_not_exists env file_path bucket_name s3_path)
       = [Head_object bucket_name s3_path;
          Upload_file file_path bucket_name s3_path;
          Print (text e)]).
Proof.
  intros Hclient Hexc. unfold upload_file_to_s3_if_not_exists. rewrite Hclient.
  destruct (head_object env bucket_name s3_path) as [e0|].
  - destruct (upload_file env file_path bucket_name s3_path) as [e|] eqn:Eup.
    + simpl. rewrite (Hexc e eq_refl). simpl. split_and!; try done.
      * intros _ _. set_solver.
      * by intros e0' e' _ [= <-].
    + simpl. split_and!; try done. intros _ _. set_solver.
  - simpl. by split_and!.
Qed.

Lemma upload_swallows_errors_witness :
  client write_only_bucket = None /\
  (forall e, upload_file write_only_bucket "zall-pix-fuji.fits" bucket
               "zcatalog/zall-pix-fuji.fits" = Some e ->
             is_Exception e = true) /\
  fst (upload_file_to_s3_if_not_exists write_only_bucket "zall-pix-fuji.fits"
         bucket "zcatalog/zall-pix-fuji.fits") = Returned.
Proof.
  split; [reflexivity|]. split; [discriminate|].
  apply (upload_swallows_errors write_only_bucket "zall-pix-fuji.fits" bucket
           "zcatalog/zall-pix-fuji.fits").
  - reflexivity.
  - discriminate.
Defined.

(** C10 fails as stated: an error of setting up the client is raised to
    the caller, since that line stands before the [try]; and an error of
    the existence check is caught but not printed. *)
Lemma upload_errors_propagated_or_unprinted :
  fst (upload_file_to_s3_if_not_exists no_client "zall-pix-fuji.fits" bucket
         "zcatalog/zall-pix-fuji.fits")
    = Propagated {| is_Exception := true;
                    text := "The config profile (desi) could not be found" |} /\
  upload_file_to_s3_if_not_exists write_only_bucket "zall-pix-fuji.fits" bucket
    "zcatalog/zall-pix-fuji.fits"
    = (Returned,
       [Head_object bucket "zcatalog/zall-pix-fuji.fits";
        Upload_file "zall-pix-fuji.fits" bucket "zcatalog/zall-pix-fuji.fits";
        Print "File uploaded to zcatalog/zall-pix-fuji.fits in bucket desi-us-east-2."]).
Proof. vm_compute. by split. Qed.

(** ** C5: callers at the same time *)

Lemma thread_step_Calling_miss srv bucket_name file_key w :
  cached file_key w = false ->
  thread_step srv bucket_name file_key Calling w = (Missed, w).
Proof.
  intros Hc. unfold thread_step, check_cache.
  by rewrite (bind_Ok _ _ _ _ _ (os_path_exists_cached file_key w)), Hc.
Qed.

Lemma thread_step_Missed_sends srv bucket_name file_key w t w' :
  thread_step srv bucket_name file_key Missed w = (t, w') ->
  sent w' = sent w ++ [s3_url_of bucket_name file_key].
Proof.
  unfold thread_step.
  destruct (request_and_open _ _ _ w) as [[[r f]|e] w1] eqn:Ero;
    pose proof (request_and_open_inv _ _ _ _ _ _ Ero) as Hinv; simpl in Hinv;
    intros [= <- <-].
  - destruct Hinv as (_ & w2 & [(_ & Hs & _) _] & Hopen).
    destruct (open_wb_inv _ _ _ _ Hopen) as (? & ? & ? & _ & _ & _ & _ & _ & ->).
    exact Hs.
  - by destruct Hinv as [[(_ & Hs & _) _] _].
Qed.

Lemma sys_step_at srv bucket_name file_key before t after w :
  sys_step srv bucket_name file_key (length before) (before ++ t :: after, w)
    = (before ++ fst (thread_step srv bucket_name file_key t w) :: after,
       snd (thread_step srv bucket_name file_key t w)).
Proof.
  unfold sys_step. simpl. rewrite list_lookup_middle by done.
  destruct (thread_step _ _ _ t w) as [t' w']. simpl.
  replace (length before) with (length before + 0)%nat at 1 by lia.
  by rewrite insert_app_r.
Qed.

Lemma thread_step_Calling_hit srv bucket_name file_key w :
  cached file_key w = true ->
  thread_step srv bucket_name file_key Calling w
    = (Finished (Ok (os_path_join CACHE_DIR file_key)),
       printed ("File " +:+ file_key +:+ " found in cache. No need to fetch again!")
               w).
Proof.
  intros Hc. unfold thread_step, check_cache.
  by rewrite (bind_Ok _ _ _ _ _ (os_path_exists_cached file_key w)), Hc.
Qed.

Lemma for_iter_content_sent todo stop : forall f w res w',
  for_iter_content todo stop file_write f w = (res, w') -> sent w' = sent w.
Proof.
  induction todo as [|chunk todo IH]; intros f w res w'; simpl.
  - destruct stop; by intros [= _ <-].
  - unfold bind, file_write.
    destruct (nodes w !! f_loc f) as [[old|]|]; intros H; by apply IH in H.
Qed.

Lemma thread_step_Writing_sent srv bucket_name file_key r f w t w' :
  thread_step srv bucket_name file_key (Writing r f) w = (t, w') ->
  sent w' = sent w /\ exists res, t = Finished res.
Proof.
  unfold thread_step, copy_and_return, bind.
  destruct (for_iter_content _ _ _ f w) as [[f'|e] w1] eqn:E;
    apply for_iter_content_sent in E; intros [= <- <-];
    (split; [done | by eexists]).
Qed.

Lemma thread_step_Missed_goes_on srv bucket_name file_key w t w' :
  thread_step srv bucket_name file_key Missed w = (t, w') -> waiting t = false.
Proof.
  unfold thread_step.
  destruct (request_and_open _ _ _ w) as [[[r f]|e] w1]; by intros [= <- _].
Qed.

Lemma sys_step_lookup srv bucket_name file_key ts w i t :
  ts !! i = Some t ->
  sys_step srv bucket_name file_key i (ts, w)
    = (<[i := fst (thread_step srv bucket_name file_key t w)]> ts,
       snd (thread_step srv bucket_name file_key t w)).
Proof.
  intros H. unfold sys_step. simpl. rewrite H.
  by destruct (thread_step _ _ _ t w).
Qed.

Lemma sys_step_outside srv bucket_name file_key ts w i :
  ts !! i = None -> sys_step srv bucket_name file_key i (ts, w) = (ts, w).
Proof. intros H. unfold sys_step. simpl. by rewrite H. Qed.

Lemma schedule_app srv bucket_name file_key order1 order2 s :
  schedule srv bucket_name file_key (order1 ++ order2) s
    = schedule srv bucket_name file_key order2
        (schedule srv bucket_name file_key order1 s).
Proof. apply fold_left_app. Qed.

(** When every caller tests the cache before any of them goes on, in
    whatever order, every one of them misses. *)
Lemma checks_all_miss srv bucket_name file_key w :
  cached file_key w = false -> forall tests ts,
  NoDup tests ->
  (forall i, i ∈ tests -> ts !! i = Some Calling) ->
  (forall i t, ts !! i = Some t -> i ∉ tests -> t = Missed) ->
  schedule srv bucket_name file_key tests (ts, w)
    = (replicate (length ts) Missed, w).
Proof.
  intros Hc. induction tests as [|i tests IH]; intros ts Hnd Hin Hout.
  - simpl. f_equal. symmetry. apply replicate_as_Forall. split; [done|].
    apply Forall_lookup. intros i t Ht. symmetry.
    apply (Hout i t Ht), not_elem_of_nil.
  - apply NoDup_cons in Hnd as [Hi Hnd].
    change (schedule srv bucket_name file_key (i :: tests) (ts, w))
      with (schedule srv bucket_name file_key tests
              (sys_step srv bucket_name file_key i (ts, w))).
    rewrite (sys_step_lookup _ _ _ _ _ _ Calling) by (apply Hin; left).
    rewrite thread_step_Calling_miss by done. simpl.
    rewrite <- (length_insert ts i Missed). apply IH; [done| |].
    + intros j Hj. rewrite list_lookup_insert_ne by (by intros ->).
      apply Hin. by right.
    + intros j t Ht Hj. destruct (decide (i = j)) as [<-|Hne].
      * rewrite list_lookup_insert_eq in Ht; [congruence|].
        eapply lookup_lt_Some, Hin. left.
      * rewrite list_lookup_insert_ne in Ht by done.
        apply (Hout j t Ht). intros [->|?]%elem_of_cons; done.
Qed.

Lemma past_request_insert ts i t t' :
  ts !! i = Some t ->
  (past_request (<[i := t']> ts) + (if waiting t then 0 else 1)
   = past_request ts + (if waiting t' then 0 else 1))%nat.
Proof.
  intros Ht. rewrite insert_take_drop by (by eapply lookup_lt_Some).
  rewrite <- (take_drop_middle ts i t Ht) at 3. unfold past_request.
  rewrite !List.filter_app, !length_app. simpl.
  destruct (waiting t), (waiting t'); simpl; lia.
Qed.

(** After the tests, every caller sends one request, at its next step and
    never again: the requests sent are as many as the callers that are
    past theirs. *)
Lemma sys_step_requests srv bucket_name file_key (w0 : world) i ts w :
  Forall (fun t => t <> Calling) ts ->
  sent w = sent w0
    ++ replicate (past_request ts) (s3_url_of bucket_name file_key) ->
  let s := sys_step srv bucket_name file_key i (ts, w) in
  Forall (fun t => t <> Calling) (fst s) /\
  sent (snd s) = sent w0
    ++ replicate (past_request (fst s)) (s3_url_of bucket_name file_key) /\
  length (fst s) = length ts /\
  (forall j t, ts !! j = Some t -> waiting t = false ->
               exists t', fst s !! j = Some t' /\ waiting t' = false) /\
  ((i < length ts)%nat ->
   exists t', fst s !! i = Some t' /\ waiting t' = false).
Proof.
  intros Hall Hsent. simpl.
  destruct (ts !! i) as [t|] eqn:Ht.
  2:{ rewrite sys_step_outside by done. simpl. split_and!; try done.
      - intros j t Hj Hw. by exists t.
      - intros Hi. apply lookup_ge_None in Ht. lia. }
  rewrite (sys_step_lookup _ _ _ _ _ _ t) by done. simpl.
  destruct (thread_step srv bucket_name file_key t w) as [t' w'] eqn:Estep.
  simpl.
  assert (Hlt : (i < length ts)%nat) by (by eapply lookup_lt_Some).
  assert (Ht' : t' <> Calling /\
                sent w' = sent w ++ (if waiting t then
                                       [s3_url_of bucket_name file_key]
                                     else []) /\
                waiting t' = false).
  { pose proof (Forall_lookup_1 _ _ _ _ Hall Ht) as Hnc.
    destruct t as [| |r f|res]; [done| | |].
    - pose proof (thread_step_Missed_goes_on _ _ _ _ _ _ Estep) as Hw.
      pose proof (thread_step_Missed_sends _ _ _ _ _ _ Estep) as Hs.
      split_and!; try done. by destruct t'.
    - apply thread_step_Writing_sent in Estep as [Hs [res ->]].
      split_and!; try done. by rewrite app_nil_r.
    - simpl in Estep. injection Estep as <- <-.
      split_and!; try done. by rewrite app_nil_r. }
  destruct Ht' as (Hnc' & Hs & Hw').
  pose proof (past_request_insert ts i t t' Ht) as Hcount. rewrite Hw' in Hcount.
  split_and!.
  - apply Forall_insert; done.
  - rewrite Hs, Hsent, <- app_assoc. f_equal.
    destruct (waiting t).
    + replace (past_request (<[i:=t']> ts)) with (past_request ts + 1)%nat by lia.
      by rewrite replicate_add.
    + replace (past_request (<[i:=t']> ts)) with (past_request ts) by lia.
      by rewrite app_nil_r.
  - apply length_insert.
  - intros j t0 Hj Hw0. destruct (decide (i = j)) as [<-|Hne].
    + exists t'. by rewrite list_lookup_insert_eq.
    + exists t0. by rewrite list_lookup_insert_ne.
  - intros _. exists t'. by rewrite list_lookup_insert_eq.
Qed.

Lemma schedule_requests srv bucket_name file_key (w0 : world) rest :
  forall ts w,
  Forall (fun t => t <> Calling) ts ->
  sent w = sent w0
    ++ replicate (past_request ts) (s3_url_of bucket_name file_key) ->
  let s := schedule srv bucket_name file_key rest (ts, w) in
  sent (snd s) = sent w0
    ++ replicate (past_request (fst s)) (s3_url_of bucket_name file_key) /\
  length (fst s) = length ts /\
  (forall j, (j < length ts)%nat ->
     j ∈ rest \/ (exists t, ts !! j = Some t /\ waiting t = false) ->
     exists t', fst s !! j = Some t' /\ waiting t' = false).
Proof.
  induction rest as [|i rest IH]; intros ts w Hall Hsent; simpl.
  - split_and!; try done. intros j _ [Hj|Hj]; [by apply elem_of_nil in Hj|done].
  - destruct (sys_step srv bucket_name file_key i (ts, w)) as [ts1 w1] eqn:E1.
    pose proof (sys_step_requests srv bucket_name file_key w0 i ts w Hall Hsent)
      as Hstep.
    simpl in Hstep. rewrite E1 in Hstep. simpl in Hstep.
    destruct Hstep as (Hall1 & Hsent1 & Hlen1 & Hmono1 & Hi1).
    destruct (IH ts1 w1 Hall1 Hsent1) as (Hs & Hlen & Hdone).
    split_and!; [exact Hs | congruence |].
    intros j Hj Hcase. apply Hdone; [lia|].
    destruct Hcase as [[->|Hin]%elem_of_cons|(t & Ht & Hw)].
    + right. by apply Hi1.
    + by left.
    + right. by apply (Hmono1 j t).
Qed.

Lemma past_request_all ts :
  (forall j, (j < length ts)%nat ->
             exists t, ts !! j = Some t /\ waiting t = false) ->
  past_request ts = length ts.
Proof.
  induction ts as [|t ts IH]; intros H; [done|].
  unfold past_request in *. simpl.
  destruct (H 0%nat) as (t0 & [= <-] & Hw); [simpl; lia|]. rewrite Hw. simpl.
  f_equal. apply IH. intros j Hj. apply (H (S j)). simpl. lia.
Qed.

Lemma past_request_Missed n : past_request (replicate n Missed) = 0%nat.
Proof. unfold past_request. induction n; [done|]. simpl. auto. Qed.

(** The file a caller has just opened is there, and empty. *)
Lemma opened_file_is_empty srv bucket_name file_key w r f w1 :
  thread_step srv bucket_name file_key Missed w = (Writing r f, w1) ->
  cached file_key w1 = true /\
  exists q, os_stat w1 (os_path_join CACHE_DIR file_key) = Ok (q, File []).
Proof.
  unfold thread_step.
  destruct (request_and_open _ _ _ w) as [[[r' f']|e] w'] eqn:Ero; [|done].
  intros [= -> -> ->].
  pose proof (request_and_open_inv _ _ _ _ _ _ Ero) as (_ & w2 & _ & Hopen).
  destruct (open_wb_inv _ _ _ _ Hopen)
    as (comps & d & name & Hcheck & Hpar & Hplain & _ & Hnd & ->).
  split.
  - eapply cached_after_write; eauto.
  - exists (name :: d). eapply os_stat_file; eauto.
Qed.

(** C5, as the code has it: nothing serialises the callers of a key.  For
    any number of callers of a key that is not in the cache: when all of
    them test the cache, in any order, before the first one goes on, all
    of them miss, and once each of them has gone on, in any order and
    however their steps interleave, each has sent a request of its own:
    as many transfers as callers.  And a caller that tests the cache just
    after another one opened the file does not wait for it: its step ends
    the call with the path, without a request, while the other caller is
    still writing and the file is empty. *)
Theorem every_caller_fetches srv bucket_name file_key w n tests rest :
  cached file_key w = false ->
  tests ≡ₚ seq 0 n ->
  (forall i, (i < n)%nat -> i ∈ rest) ->
  schedule srv bucket_name file_key tests (replicate n Calling, w)
    = (replicate n Missed, w) /\
  sent (snd (schedule srv bucket_name file_key (tests ++ rest)
               (replicate n Calling, w)))
    = sent w ++ replicate n (s3_url_of bucket_name file_key) /\
  (forall ts w0 i j r f w1,
     i <> j -> ts !! i = Some Missed -> ts !! j = Some Calling ->
     sys_step srv bucket_name file_key i (ts, w0)
       = (<[i := Writing r f]> ts, w1) ->
     exists w2 q,
       sys_step srv bucket_name file_key j (<[i := Writing r f]> ts, w1)
         = (<[j := Finished (Ok (os_path_join CACHE_DIR file_key))]>
              (<[i := Writing r f]> ts), w2) /\
       sent w2 = sent w1 /\ nodes w2 = nodes w1 /\
       os_stat w2 (os_path_join CACHE_DIR file_key) = Ok (q, File [])).
Proof.
  intros Hc Hperm Hrest.
  assert (Hmiss : schedule srv bucket_name file_key tests
                    (replicate n Calling, w) = (replicate n Missed, w)).
  { rewrite <- (length_replicate n Calling) at 2.
    apply checks_all_miss; [done| | |].
    - rewrite Hperm. apply NoDup_seq.
    - intros i Hi. rewrite Hperm in Hi. apply elem_of_seq in Hi.
      apply lookup_replicate_2. lia.
    - intros i t Ht Hi. apply lookup_replicate in Ht as [-> Hlt].
      exfalso. apply Hi. rewrite Hperm. apply elem_of_seq. lia. }
  split_and!; [exact Hmiss| |].
  - rewrite schedule_app, Hmiss.
    destruct (schedule_requests srv bucket_name file_key w rest
                (replicate n Missed) w) as (Hs & Hlen & Hdone).
    { by apply Forall_replicate. }
    { by rewrite past_request_Missed, app_nil_r. }
    rewrite Hs, past_request_all, Hlen, length_replicate; [done|].
    intros j Hj. rewrite Hlen in Hj. apply Hdone; [done|].
    left. apply Hrest. by rewrite length_replicate in Hj.
  - intros ts w0 i j r f w1 Hij Hi Hj Hstep.
    rewrite (sys_step_lookup _ _ _ _ _ _ Missed) in Hstep by done.
    injection Hstep as Hts Hw1.
    assert (Ht : fst (thread_step srv bucket_name file_key Missed w0)
                 = Writing r f).
    { apply (f_equal (fun l => l !! i)) in Hts.
      rewrite !list_lookup_insert_eq in Hts by (by eapply lookup_lt_Some).
      by injection Hts. }
    destruct (opened_file_is_empty srv bucket_name file_key w0 r f w1)
      as (Hcached & q & Hstat).
    { rewrite (surjective_pairing (thread_step _ _ _ Missed w0)).
      f_equal; [exact Ht | exact Hw1]. }
    eexists _, q.
    rewrite (sys_step_lookup _ _ _ _ _ _ Calling)
      by (by rewrite list_lookup_insert_ne).
    rewrite thread_step_Calling_hit by done. simpl. split_and!; try done.
Qed.

Lemma every_caller_fetches_witness :
  let system := (replicate 3 Calling, empty_disk) in
  schedule store bucket key [2; 0; 1]%nat system
    = (replicate 3 Missed, empty_disk) /\
  sent (snd (schedule store bucket key
               ([2; 0; 1] ++ [0; 1; 0; 2; 1; 2; 0])%nat system))
    = sent empty_disk ++ replicate 3 (s3_url_of bucket key) /\
  exists w2 q,
    sys_step store bucket key 1
      (<[0%nat := Writing whole {| f_loc := key_loc; f_pos := 0 |}]>
         [Missed; Calling],
       snd (sys_step store bucket key 0 ([Missed; Calling], empty_disk)))
      = (<[1%nat := Finished (Ok (os_path_join CACHE_DIR key))]>
           (<[0%nat := Writing whole {| f_loc := key_loc; f_pos := 0 |}]>
              [Missed; Calling]), w2) /\
    sent w2 = sent (snd (sys_step store bucket key 0
                           ([Missed; Calling], empty_disk))) /\
    nodes w2 = nodes (snd (sys_step store bucket key 0
                             ([Missed; Calling], empty_disk))) /\
    os_stat w2 (os_path_join CACHE_DIR key) = Ok (q, File []).
Proof.
  intros system.
  assert (Hc : cached key empty_disk = false) by (vm_compute; reflexivity).
  assert (Hperm : [2; 0; 1]%nat ≡ₚ seq 0 3)
    by (apply (bool_decide_unpack _); vm_compute; exact I).
  assert (Hrest : forall i, (i < 3)%nat -> i ∈ [0; 1; 0; 2; 1; 2; 0]%nat).
  { intros i Hi. destruct i as [|[|[|i]]]; [| | |lia];
      apply (bool_decide_unpack _); vm_compute; exact I. }
  destruct (every_caller_fetches store bucket key empty_disk 3
              [2; 0; 1]%nat [0; 1; 0; 2; 1; 2; 0]%nat Hc Hperm Hrest)
    as (Hmiss & Hsent & Hlate).
  split_and!; [exact Hmiss | exact Hsent |].
  apply (Hlate [Missed; Calling] empty_disk 0%nat 1%nat); done.
Defined.

(** C5 fails as stated: two callers of a key that is not in the cache,
    taking turns, make two transfers.  And a caller that tests the cache
    after the other one opened the file does not wait: it returns the path
    at once, while the file is still empty. *)
Lemma two_callers_two_transfers :
  let turns := schedule store bucket key [0; 1; 0; 1; 0; 1]%nat
                 ([Calling; Calling], empty_disk) in
  let early := schedule store bucket key [0; 0; 1]%nat
                 ([Calling; Calling], empty_disk) in
  fst turns = [Finished (Ok key_path); Finished (Ok key_path)] /\
  length (sent (snd turns)) = 2%nat /\
  fst early = [Writing whole {| f_loc := key_loc; f_pos := 0 |};
               Finished (Ok key_path)] /\
  nodes (snd early) !! key_loc = Some (File []).
Proof. vm_compute. by split_and!. Qed.

(** A caller alone goes through its three steps as [fetch_s3_file] does. *)
Lemma lone_caller_is_fetch_s3_file srv bucket_name file_key w :
  schedule srv bucket_name file_key [0; 0; 0]%nat ([Calling], w)
    = ([Finished (fst (fetch_s3_file srv bucket_name file_key w))],
       snd (fetch_s3_file srv bucket_name file_key w)).
Proof.
  unfold schedule. cbn [fold_left].
  rewrite (sys_step_at _ _ _ [] Calling [] w). cbn [app].
  destruct (cached file_key w) eqn:Hc.
  - rewrite (fetch_hit _ _ _ _ Hc).
    assert (thread_step srv bucket_name file_key Calling w
            = (Finished (Ok (os_path_join CACHE_DIR file_key)),
               printed ("File " +:+ file_key
                        +:+ " found in cache. No need to fetch again!") w))
      as ->.
    { unfold thread_step, check_cache.
      by rewrite (bind_Ok _ _ _ _ _ (os_path_exists_cached file_key w)), Hc. }
    reflexivity.
  - rewrite (fetch_miss _ _ _ _ Hc), thread_step_Calling_miss by done.
    cbn [fst snd].
    rewrite (sys_step_at _ _ _ [] Missed [] w). cbn [app].
    unfold thread_step at 1 2.
    destruct (request_and_open _ _ _ w) as [[[r f]|e] w1]; cbn [fst snd].
    + rewrite (sys_step_at _ _ _ [] (Writing r f) [] w1). cbn [app].
      unfold thread_step. by destruct (copy_and_return _ _ _ w1).
    + reflexivity.
Qed.

(** ** Well-formedness is an invariant of [fetch_s3_file] *)

Lemma cons_neq {A} (x : A) (l : list A) : l <> x :: l.
Proof. intros H. apply (f_equal length) in H. simpl in H. lia. Qed.

Lemma wf_insert w name d n :
  wf w -> node_at (nodes w) d = Some Dir ->
  nodes w !! (name :: d) <> Some Dir \/ n = Dir ->
  wf (set_nodes (<[name :: d := n]> (nodes w)) w).
Proof.
  intros Hwf Hd Hn c q [n' Hq]. simpl in *.
  assert (node_at (nodes w) q = Some Dir) as Hpar.
  { destruct (decide (name :: d = c :: q)) as [Heq|Hne].
    - by inversion Heq; subst.
    - rewrite lookup_insert_ne in Hq by done. by eapply Hwf. }
  destruct q as [|c' q']; [done|]. simpl in *.
  destruct (decide (name :: d = c' :: q')) as [Heq|Hne].
  - rewrite <- Heq in *. rewrite lookup_insert_eq.
    destruct Hn as [Hn | ->]; done.
  - by rewrite lookup_insert_ne.
Qed.

Lemma keeps_wf_refl w : keeps_wf w w.
Proof. by intros H. Qed.

Lemma keeps_wf_trans w1 w2 w3 : keeps_wf w1 w2 -> keeps_wf w2 w3 -> keeps_wf w1 w3.
Proof. unfold keeps_wf. auto. Qed.

Lemma parent_of_is_dir w comps d name :
  parent_of w comps = Ok (d, name) -> node_at (nodes w) d = Some Dir.
Proof.
  unfold parent_of. destruct (walk _ _ _) as [d'|] eqn:E; [|discriminate].
  intros [= <- _]. eapply walk_is_dir, E.
Qed.

Lemma os_mkdir_wf path : preserves keeps_wf (os_mkdir path).
Proof.
  intros w r w'. unfold os_mkdir.
  destruct (check_path path) as [comps|e];
    [|intros [= _ <-]; apply keeps_wf_refl].
  destruct (parent_of w (strip_trailing comps)) as [[d name]|e] eqn:Ep;
    [|intros [= _ <-]; apply keeps_wf_refl].
  destruct (is_plain name); [|intros [= _ <-]; apply keeps_wf_refl].
  destruct (nodes w !! (name :: d)) eqn:E; intros [= _ <-];
    [apply keeps_wf_refl|].
  intros Hwf. apply wf_insert; [done| |by right].
  eapply parent_of_is_dir, Ep.
Qed.

Lemma os_path_exists_wf path : preserves keeps_wf (os_path_exists path).
Proof.
  intros w r w'. unfold os_path_exists.
  destruct (os_stat w path); intros [= _ <-]; apply keeps_wf_refl.
Qed.

Lemma os_path_isdir_wf path : preserves keeps_wf (os_path_isdir path).
Proof.
  intros w r w'. unfold os_path_isdir.
  destruct (os_stat w path) as [[q [data|]]|e]; intros [= _ <-];
    apply keeps_wf_refl.
Qed.

Lemma make_wf name exist_ok :
  preserves keeps_wf
    (try_except (os_mkdir name)
       (fun e => match e with
                 | OSError _ =>
                     Some (do is_dir <- os_path_isdir name;
                           if (negb exist_ok || negb is_dir)%bool
                           then raise e else ret tt)
                 | _ => None
                 end)).
Proof.
  apply preserves_try_except; [apply keeps_wf_trans | apply os_mkdir_wf |].
  intros e h He. destruct e; try discriminate. inversion He; subst.
  apply preserves_bind; [apply keeps_wf_trans | apply os_path_isdir_wf |].
  intros is_dir. destruct (negb exist_ok || negb is_dir)%bool.
  - apply preserves_raise, keeps_wf_refl.
  - apply preserves_ret, keeps_wf_refl.
Qed.

Lemma makedirs_rec_wf depth : forall name exist_ok,
  preserves keeps_wf (makedirs_rec depth name exist_ok).
Proof.
  induction depth as [|depth IH]; intros name exist_ok.
  - apply preserves_raise, keeps_wf_refl.
  - simpl. destruct (os_path_split name) as [head tail].
    destruct (if nonempty tail then (head, tail) else os_path_split head)
      as [head' tail'].
    destruct (nonempty head' && nonempty tail')%bool; [|apply make_wf].
    apply preserves_bind; [apply keeps_wf_trans | apply os_path_exists_wf |].
    intros head_exists. destruct head_exists; [apply make_wf|].
    apply preserves_bind; [apply keeps_wf_trans | |].
    + apply preserves_try_except; [apply keeps_wf_trans | apply IH |].
      intros e h He. destruct e as [[]| | | |]; try discriminate.
      inversion He; subst. apply preserves_ret, keeps_wf_refl.
    + intros _. destruct (String.eqb tail' ".").
      * apply preserves_ret, keeps_wf_refl.
      * apply make_wf.
Qed.

Lemma open_wb_wf path : preserves keeps_wf (open_wb path).
Proof.
  intros w [f|e] w' Hrun.
  - destruct (open_wb_inv _ _ _ _ Hrun)
      as (comps & d & name & _ & Hpar & _ & _ & Hnd & ->).
    intros Hwf. apply wf_insert; [done| |by left].
    eapply parent_of_is_dir, Hpar.
  - destruct (open_wb_fails _ _ _ _ Hrun) as [-> _]. apply keeps_wf_refl.
Qed.

Lemma file_write_wf f chunk : preserves keeps_wf (file_write f chunk).
Proof.
  intros w r w'. unfold file_write.
  destruct (nodes w !! f_loc f) as [[old|]|] eqn:E; intros [= _ <-];
    try apply keeps_wf_refl.
  intros Hwf. destruct (f_loc f) as [|name d] eqn:El.
  - intros c q [n Hn]. simpl in *. rewrite lookup_insert_ne in Hn by done.
    pose proof (Hwf c q (ex_intro _ n Hn)) as Hpar.
    destruct q as [|c' q']; [done|]. simpl in *.
    by rewrite lookup_insert_ne.
  - apply wf_insert; [done| |left; congruence].
    apply (Hwf name d). by exists (File old).
Qed.

Lemma for_iter_content_wf todo stop : forall f,
  preserves keeps_wf (for_iter_content todo stop file_write f).
Proof.
  induction todo as [|chunk rest IH]; intros f; simpl.
  - destruct stop; [apply preserves_raise | apply preserves_ret];
      apply keeps_wf_refl.
  - apply preserves_bind; [apply keeps_wf_trans | apply file_write_wf | apply IH].
Qed.

Lemma print_wf line : preserves keeps_wf (print line).
Proof. intros w r w' [= _ <-]. by intros H. Qed.

(** Whatever a call does and however it ends, a well-formed file system
    stays well-formed. *)
Lemma fetch_s3_file_wf srv bucket_name file_key :
  preserves keeps_wf (fetch_s3_file srv bucket_name file_key).
Proof.
  unfold fetch_s3_file.
  apply preserves_bind; [apply keeps_wf_trans | apply os_path_exists_wf |].
  intros [|].
  { apply preserves_bind; [apply keeps_wf_trans | apply print_wf |].
    intros _. apply preserves_ret, keeps_wf_refl. }
  apply preserves_bind; [apply keeps_wf_trans | |].
  { intros w r w'. unfold requests_get.
    destruct (srv _ _); intros [= _ <-]; by intros H. }
  intros r. apply preserves_bind; [apply keeps_wf_trans | |].
  { unfold raise_for_status. destruct (_ && _)%bool;
      [apply preserves_raise | apply preserves_ret]; apply keeps_wf_refl. }
  intros _. apply preserves_bind;
    [apply keeps_wf_trans | apply makedirs_rec_wf |].
  intros _. apply preserves_bind; [apply keeps_wf_trans | |].
  { apply preserves_bind; [apply keeps_wf_trans | apply open_wb_wf |].
    intros f. apply for_iter_content_wf. }
  intros _. apply preserves_bind; [apply keeps_wf_trans | apply print_wf |].
  intros _. apply preserves_ret, keeps_wf_refl.
Qed.

(** * Further properties of the scripts *)

(** ** [fetch_s3_file]: requests that fail *)

(** X1.  When nothing is at the local path and the request is refused, or
    answered with a status from 400 to 599, the call raises that error and
    leaves no trace but the request: no directory, no file, no line
    printed.  The key is as absent afterwards as it was before. *)
Theorem failed_request_leaves_no_trace srv bucket_name file_key w :
  cached file_key w = false ->
  match srv (length (sent w)) (s3_url_of bucket_name file_key) with
  | Refused what =>
      fetch_s3_file srv bucket_name file_key w
        = (Raise (RequestException what),
           logged (s3_url_of bucket_name file_key) w)
  | Answered r =>
      (400 <= status_code r < 600)%Z ->
      fetch_s3_file srv bucket_name file_key w
        = (Raise (HTTPError (status_code r)),
           logged (s3_url_of bucket_name file_key) w)
  end /\
  cached file_key (logged (s3_url_of bucket_name file_key) w) = false.
Proof.
  intros Hc. split; [|by rewrite (cached_ext w)].
  unfold fetch_s3_file.
  rewrite (bind_Ok _ _ _ _ _ (os_path_exists_cached file_key w)), Hc.
  unfold bind, requests_get.
  destruct (srv _ _) as [what|r]; [done|].
  intros [Hlo Hhi]. unfold raise_for_status.
  apply Z.leb_le in Hlo. apply Z.ltb_lt in Hhi. by rewrite Hlo, Hhi.
Qed.

Lemma failed_request_leaves_no_trace_witness :
  cached key empty_disk = false /\
  fetch_s3_file missing_store bucket key empty_disk
    = (Raise (HTTPError 404), logged (s3_url_of bucket key) empty_disk) /\
  fetch_s3_file unreachable_store bucket key empty_disk
    = (Raise (RequestException "Connection refused"),
       logged (s3_url_of bucket key) empty_disk).
Proof.
  split; [vm_compute; reflexivity|]. split.
  - apply (failed_request_leaves_no_trace missing_store bucket key empty_disk);
      [vm_compute; reflexivity | simpl; lia].
  - apply (failed_request_leaves_no_trace unreachable_store bucket key
             empty_disk).
    vm_compute; reflexivity.
Defined.

(** ** [fetch_s3_file]: keys that name a directory *)

Lemma endswith_sep_nonempty s : endswith_sep s = true -> s <> "".
Proof. by destruct s. Qed.

Lemma components_single s x : components s = [x] -> s = x.
Proof. intros H. rewrite <- (sep_join_components s), H. done. Qed.

Lemma last_components_endswith_sep s :
  endswith_sep s = true -> List.last (components s) "" = "".
Proof.
  induction s as [|c r IH]; [done|]. intros Hs.
  destruct r as [|c' r'].
  - simpl in Hs. simpl. by rewrite Hs.
  - assert (endswith_sep (String c' r') = true) as Hr by exact Hs.
    specialize (IH Hr). change (components (String c (String c' r')))
      with (if is_sep c then "" :: components (String c' r')
            else match components (String c' r') with
                 | x :: xs => String c x :: xs
                 | [] => [String c ""]
                 end).
    pose proof (components_nonempty (String c' r')) as Hne.
    destruct (components (String c' r')) as [|x xs] eqn:Ec; [done|].
    destruct xs as [|y ys].
    + apply components_single in Ec. simpl in IH. subst x. discriminate.
    + by destruct (is_sep c).
Qed.

Lemma local_path_of_directory_key file_key :
  file_key = "" \/ endswith_sep file_key = true ->
  endswith_sep (os_path_join CACHE_DIR file_key) = true.
Proof.
  rewrite os_path_join_CACHE_DIR. intros [->|Hk]; [done|].
  destruct (startswith_sep file_key); [done|].
  destruct file_key as [|c r]; [done|]. exact Hk.
Qed.

Lemma parent_of_name w comps d name :
  parent_of w comps = Ok (d, name) -> name = List.last comps "".
Proof.
  unfold parent_of. destruct (walk _ _ _); [|discriminate]. by intros [= _ <-].
Qed.

(** X2.  A key that is empty or ends with a separator, the way object
    stores name folders, never gets a file.  When something is at its
    local path already, the call returns the path, sends no request and
    leaves the file system as it is.  When nothing is there, the call
    sends its request and then raises, whatever the store answers; the
    nodes that existed are unchanged and what is new is a directory: the
    directories made for the path stay behind, and no file is written. *)
Theorem directory_key_is_never_stored srv bucket_name file_key w res w1 :
  file_key = "" \/ endswith_sep file_key = true ->
  fetch_s3_file srv bucket_name file_key w = (res, w1) ->
  if cached file_key w
  then res = Ok (os_path_join CACHE_DIR file_key) /\
       sent w1 = sent w /\ nodes w1 = nodes w
  else (exists e, res = Raise e) /\
       sent w1 = sent w ++ [s3_url_of bucket_name file_key] /\
       only_adds_dirs (logged (s3_url_of bucket_name file_key) w) w1.
Proof.
  intros Hkey Hrun. destruct (cached file_key w) eqn:Hc.
  { rewrite (fetch_hit _ _ _ _ Hc) in Hrun. by inversion Hrun; subst. }
  destruct (fetch_miss_inv _ _ _ _ _ _ Hc Hrun)
    as [(e & He & Hadds & _)|(r & w' & comps & d & name & _ & _ & Hcheck
                              & Hpar & Hplain & _)].
  - split_and!; [by exists e| |done].
    by destruct Hadds as [(_ & -> & _) _].
  - exfalso. apply parent_of_name in Hpar.
    apply local_path_of_directory_key in Hkey.
    revert Hcheck. unfold check_path. destruct (has_nul _); [discriminate|].
    destruct (String.eqb _ ""); [discriminate|]. intros [= <-].
    rewrite (last_components_endswith_sep _ Hkey) in Hpar. by subst name.
Qed.

Lemma directory_key_is_never_stored_witness :
  let hit := fetch_s3_file store bucket "spectra/" warm_disk in
  let miss := fetch_s3_file store bucket "newdir/" empty_disk in
  (cached "spectra/" warm_disk = true /\
   fst hit = Ok "cache/spectra/" /\
   sent (snd hit) = sent warm_disk /\ nodes (snd hit) = nodes warm_disk) /\
  (cached "newdir/" empty_disk = false /\
   (exists e, fst miss = Raise e) /\
   sent (snd miss) = sent empty_disk ++ [s3_url_of bucket "newdir/"] /\
   only_adds_dirs (logged (s3_url_of bucket "newdir/") empty_disk) (snd miss) /\
   nodes (snd miss) !! ["newdir"; "cache"; "app"] = Some Dir).
Proof.
  intros hit miss. split.
  - split; [vm_compute; reflexivity|].
    apply (directory_key_is_never_stored store bucket "spectra/" warm_disk
             (fst hit) (snd hit)); [by right | apply surjective_pairing].
  - split; [vm_compute; reflexivity|].
    pose proof (directory_key_is_never_stored store bucket "newdir/" empty_disk
                  (fst miss) (snd miss)) as H.
    destruct H as (He & Hs & Hd); [by right | apply surjective_pairing |].
    split_and!; [exact He | exact Hs | exact Hd | vm_compute; reflexivity].
Defined.

(** ** [fetch_s3_file]: one key after another *)

Lemma fetch_keeps_nodes srv bucket_name file_key w res w1 :
  wf w -> no_dotdot file_key = true ->
  fetch_s3_file srv bucket_name file_key w = (res, w1) ->
  keeps_nodes w w1 /\ cwd w1 = cwd w.
Proof.
  intros Hwf Hdd Hrun. destruct (cached file_key w) eqn:Hc.
  { rewrite (fetch_hit _ _ _ _ Hc) in Hrun. inversion Hrun; subst.
    split; [by intros q n | done]. }
  destruct (fetch_miss_inv _ _ _ _ _ _ Hc Hrun)
    as [(e & -> & Hadds & _)|(r & w' & comps & d & name & Hsrv & Hadds & Hcheck
                              & Hpar & Hplain & Hnd & Hn & Hcwd & Hsent & Hres)].
  { split; [by apply only_adds_dirs_keeps in Hadds|].
    by destruct Hadds as [(-> & _ & _) _]. }
  pose proof (miss_target_is_new _ _ _ _ _ _ _ Hwf Hdd Hc Hadds Hcheck
                Hpar Hplain) as Hnew.
  split.
  - intros q n Hq. rewrite Hn.
    rewrite lookup_insert_ne by (intros <-; congruence).
    by apply (only_adds_dirs_keeps _ _ Hadds).
  - rewrite Hcwd. by destruct Hadds as [(-> & _ & _) _].
Qed.

Lemma os_stat_keeps w w' path q n :
  keeps_nodes w w' -> cwd w' = cwd w ->
  os_stat w path = Ok (q, n) -> os_stat w' path = Ok (q, n).
Proof.
  intros Hkeep Hcwd. unfold os_stat.
  destruct (check_path path) as [comps|]; [|discriminate].
  destruct (parent_of w comps) as [[d name]|] eqn:Hp; [|discriminate].
  assert (Hnode : forall q0 n0, node_at (nodes w) q0 = Some n0 ->
                                node_at (nodes w') q0 = Some n0).
  { intros [|c q0] n0; [done|]. apply Hkeep. }
  rewrite (parent_of_mono w w' comps d name Hcwd (fun q0 => Hnode q0 Dir) Hp).
  destruct (node_at (nodes w) (enter d name)) as [n0|] eqn:En; [|discriminate].
  intros [= <- <-]. by rewrite (Hnode _ _ En).
Qed.

(** X3.  In a well-formed file system, a call for a key without a [..]
    segment, however it ends, leaves the entries of all keys as they are:
    what the local path of another key denoted before, it denotes after,
    and the next call for that key is served from the cache without a
    request. *)
Theorem other_entries_stay_cached srv bucket_name file_key other w res w1 q n :
  wf w -> no_dotdot file_key = true ->
  os_stat w (os_path_join CACHE_DIR other) = Ok (q, n) ->
  fetch_s3_file srv bucket_name file_key w = (res, w1) ->
  os_stat w1 (os_path_join CACHE_DIR other) = Ok (q, n) /\
  forall srv', exists w2,
    fetch_s3_file srv' bucket_name other w1
      = (Ok (os_path_join CACHE_DIR other), w2) /\
    sent w2 = sent w1.
Proof.
  intros Hwf Hdd Hstat Hrun.
  destruct (fetch_keeps_nodes _ _ _ _ _ _ Hwf Hdd Hrun) as [Hkeep Hcwd].
  pose proof (os_stat_keeps _ _ _ _ _ Hkeep Hcwd Hstat) as Hstat1.
  split; [exact Hstat1|]. intros srv'.
  rewrite fetch_hit by (unfold cached; by rewrite Hstat1).
  eexists. by split.
Qed.

Lemma other_entries_stay_cached_witness :
  wf warm_disk /\ no_dotdot "a/b" = true /\
  os_stat warm_disk (os_path_join CACHE_DIR key)
    = Ok (key_loc, File (half1 ++ half2)) /\
  os_stat (snd (fetch_s3_file store bucket "a/b" warm_disk))
    (os_path_join CACHE_DIR key) = Ok (key_loc, File (half1 ++ half2)) /\
  forall srv', exists w2,
    fetch_s3_file srv' bucket key (snd (fetch_s3_file store bucket "a/b" warm_disk))
      = (Ok (os_path_join CACHE_DIR key), w2) /\
    sent w2 = sent (snd (fetch_s3_file store bucket "a/b" warm_disk)).
Proof.
  split; [apply wfb_wf; vm_compute; reflexivity|].
  split; [vm_compute; reflexivity|]. split; [vm_compute; reflexivity|].
  apply (other_entries_stay_cached store bucket "a/b" key warm_disk
           (fst (fetch_s3_file store bucket "a/b" warm_disk))).
  - apply wfb_wf. vm_compute; reflexivity.
  - vm_compute; reflexivity.
  - vm_compute; reflexivity.
  - by destruct (fetch_s3_file store bucket "a/b" warm_disk).
Defined.

(** ** [fetch_s3_file]: what is printed *)

Lemma request_and_open_stdout srv bucket_name file_key w res w1 :
  request_and_open srv bucket_name file_key w = (res, w1) ->
  stdout w1 = stdout w.
Proof.
  intros Hrun. pose proof (request_and_open_inv _ _ _ _ _ _ Hrun) as Hinv.
  destruct res as [[r f]|e].
  - destruct Hinv as (_ & w' & [(_ & _ & Hout) _] & Hopen).
    destruct (open_wb_inv _ _ _ _ Hopen) as (? & ? & ? & _ & _ & _ & _ & _ & ->).
    exact Hout.
  - by destruct Hinv as [[(_ & _ & Hout) _] _].
Qed.

(** What a call prints. *)
Lemma fetch_s3_file_stdout srv bucket_name file_key w res w1 :
  fetch_s3_file srv bucket_name file_key w = (res, w1) ->
  stdout w1 = stdout w ++
    match res with
    | Ok _ =>
        if cached file_key w
        then ["File " +:+ file_key +:+ " found in cache. No need to fetch again!"]
        else ["File " +:+ file_key +:+ " fetched from S3 and saved to cache."]
    | Raise _ => []
    end.
Proof.
  destruct (cached file_key w) eqn:Hc.
  { rewrite (fetch_hit _ _ _ _ Hc). by intros [= <- <-]. }
  rewrite (fetch_miss _ _ _ _ Hc).
  destruct (request_and_open _ _ _ w) as [[[r f]|e] w'] eqn:Ero;
    pose proof (request_and_open_stdout _ _ _ _ _ _ Ero) as Hout.
  2:{ intros [= <- <-]. by rewrite app_nil_r. }
  pose proof (request_and_open_inv _ _ _ _ _ _ Ero) as (_ & w0 & _ & Hopen).
  destruct (open_wb_inv _ _ _ _ Hopen)
    as (comps & d & name & _ & _ & _ & -> & _ & Hw').
  unfold copy_and_return, bind.
  destruct (copy_body (chunks r) (broken r)
              {| f_loc := name :: d; f_pos := 0 |} w' [])
    as (res' & w3 & Hrun & (_ & _ & Hout3) & _ & Hres).
  { subst w'. simpl. apply lookup_insert_eq. }
  { done. }
  rewrite Hrun. destruct (broken r) as [what|].
  - subst res'. intros [= <- <-]. by rewrite app_nil_r, Hout3.
  - destruct Hres as [f' ->]. unfold print, ret. intros [= <- <-]. simpl.
    by rewrite Hout3, Hout.
Qed.

(** X4.  A call prints exactly one line when it returns a path, the
    found-in-cache line on a hit and the fetched line on a miss, and
    prints nothing when it raises. *)
Theorem fetch_prints_one_line_on_success srv bucket_name file_key w res w1 :
  fetch_s3_file srv bucket_name file_key w = (res, w1) ->
  stdout w1 = stdout w ++
    match res with
    | Ok _ =>
        if cached file_key w
        then ["File " +:+ file_key +:+ " found in cache. No need to fetch again!"]
        else ["File " +:+ file_key +:+ " fetched from S3 and saved to cache."]
    | Raise _ => []
    end.
Proof. apply fetch_s3_file_stdout. Qed.

Lemma fetch_prints_one_line_on_success_witness :
  fetch_s3_file store bucket key empty_disk
    = (Ok key_path, snd (fetch_s3_file store bucket key empty_disk)) /\
  stdout (snd (fetch_s3_file store bucket key empty_disk))
    = stdout empty_disk ++
      ["File " +:+ key +:+ " fetched from S3 and saved to cache."].
Proof.
  split; [vm_compute; reflexivity|].
  apply (fetch_prints_one_line_on_success store bucket key empty_disk
           (Ok key_path)).
  vm_compute; reflexivity.
Defined.

Lemma fetch_ok_cached srv bucket_name file_key w p w1 :
  fetch_s3_file srv bucket_name file_key w = (Ok p, w1) ->
  p = os_path_join CACHE_DIR file_key /\ cached file_key w1 = true.
Proof.
  intros Hrun. destruct (cached file_key w) eqn:Hc.
  - rewrite (fetch_hit _ _ _ _ Hc) in Hrun. inversion Hrun; subst.
    split; [done|]. by rewrite <- Hc; apply cached_ext.
  - destruct (fetch_miss_inv _ _ _ _ _ _ Hc Hrun)
      as [(e & He & _)|(r & w' & comps & d & name & _ & _ & Hcheck
                        & Hpar & Hplain & Hnd & Hn & Hcwd & _ & Hres)];
      [discriminate|].
    destruct (broken r); [discriminate|]. inversion Hres; subst p.
    split; [done|]. eapply cached_after_write; eauto.
Qed.

(** ** [file-fetch-caching.py]: [main] *)

(** X5.  When [main] returns, the last line printed is the local path
    [cache/__], and something exists at that path; when the call of
    [fetch_s3_file] raises, [main] raises the same and prints no such
    line. *)
Theorem main_prints_an_existing_path srv w res w1 :
  file_fetch_caching_main srv w = (res, w1) ->
  match res with
  | Ok _ =>
      List.last (stdout w1) "" = "Local path: cache/__" /\
      cached "__" w1 = true
  | Raise e =>
      fetch_s3_file srv "__" "__" w = (Raise e, w1) /\ stdout w1 = stdout w
  end.
Proof.
  unfold file_fetch_caching_main, bind.
  destruct (fetch_s3_file srv "__" "__" w) as [[p|e] w'] eqn:Hrun.
  - destruct (fetch_ok_cached _ _ _ _ _ _ Hrun) as [-> Hc].
    unfold print. intros [= <- <-]. split.
    + simpl. by rewrite last_last.
    + by rewrite (cached_ext w').
  - intros [= <- <-]. split; [done|].
    pose proof (fetch_s3_file_stdout _ _ _ _ _ _ Hrun) as Hout.
    by rewrite app_nil_r in Hout.
Qed.

Lemma main_prints_an_existing_path_witness :
  file_fetch_caching_main store empty_disk
    = (Ok tt, snd (file_fetch_caching_main store empty_disk)) /\
  List.last (stdout (snd (file_fetch_caching_main store empty_disk))) ""
    = "Local path: cache/__" /\
  cached "__" (snd (file_fetch_caching_main store empty_disk)) = true.
Proof.
  split; [vm_compute; reflexivity|].
  apply (main_prints_an_existing_path store empty_disk (Ok tt)).
  vm_compute; reflexivity.
Defined.

(** ** [run_script_every_5_seconds]: how the loop ends *)

Lemma while_true_plus body a b : forall i log,
  while_true body (a + b) i log
    = match while_true body a i log with
      | Running log' => while_true body b (i + a) log'
      | Crashed log' what => Crashed log' what
      end.
Proof.
  induction a as [|a IH]; intros i log; simpl.
  - by rewrite Nat.add_0_r.
  - destruct (body i log) as [log'|log' what]; [|done].
    rewrite IH. by replace (S i + a)%nat with (i + S a)%nat by lia.
Qed.

(** X6.  The loop ends at the first run that [subprocess.run] cannot
    start (an exception that is not a [CalledProcessError]): with failing
    or succeeding runs before it, the loop has run the script once per
    round up to and including that one, has slept five seconds after each
    of the earlier ones, and then raises to the caller. *)
Theorem loop_ends_at_first_spawn_failure script_path outcomes i what rounds :
  (forall j, (j < i)%nat -> exists c, outcomes j = Exited c) ->
  outcomes i = SpawnFailed what -> (i < rounds)%nat ->
  exists log,
    run_script_every_5_seconds script_path outcomes rounds = Crashed log what /\
    attempts log = S i /\ delays log = replicate i 5.
Proof.
  intros Hbefore Hi Hlt. unfold run_script_every_5_seconds.
  replace rounds with (i + S (rounds - S i))%nat by lia.
  rewrite while_true_plus.
  destruct (while_true_goes_on script_path outcomes i 0 [])
    as (log & -> & Ha & Hd).
  { intros j Hj. apply Hbefore. lia. }
  simpl. rewrite Hi. unfold round. eexists. split; [reflexivity|].
  rewrite attempts_app, delays_app, Ha, Hd. simpl.
  split; [unfold attempts; simpl; lia | by rewrite app_nil_r].
Qed.

Lemma loop_ends_at_first_spawn_failure_witness :
  (forall j, (j < 2)%nat -> exists c, breaks_at_2 j = Exited c) /\
  breaks_at_2 2 = SpawnFailed "No such file or directory: python" /\
  (2 < 10)%nat /\
  exists log,
    run_script_every_5_seconds "test-notebook.py" breaks_at_2 10
      = Crashed log "No such file or directory: python" /\
    attempts log = 3%nat /\ delays log = replicate 2 5.
Proof.
  assert (H : forall j, (j < 2)%nat -> exists c, breaks_at_2 j = Exited c).
  { intros j Hj. exists 1. unfold breaks_at_2.
    destruct (Nat.eqb_spec j 2); [lia | reflexivity]. }
  split; [exact H|]. split; [reflexivity|]. split; [lia|].
  apply (loop_ends_at_first_spawn_failure "test-notebook.py" breaks_at_2 2
           "No such file or directory: python" 10); [exact H | reflexivity | lia].
Defined.

(** X8.  While the loop runs, it has printed one error line for each run
    that ended with a return code other than zero, and none for the runs
    that ended with zero. *)
Theorem one_error_line_per_failed_run script_path outcomes rounds log :
  run_script_every_5_seconds script_path outcomes rounds = Running log ->
  error_lines log = failures outcomes rounds.
Proof.
  intros H. apply while_true_error_lines in H. rewrite H.
  unfold failures, error_lines. simpl. lia.
Qed.

Lemma one_error_line_per_failed_run_witness :
  run_script_every_5_seconds "test-notebook.py" always_failing 4
    = Running (log_of (run_script_every_5_seconds "test-notebook.py"
                         always_failing 4)) /\
  error_lines (log_of (run_script_every_5_seconds "test-notebook.py"
                         always_failing 4))
    = failures always_failing 4.
Proof.
  split; [vm_compute; reflexivity|].
  apply (one_error_line_per_failed_run "test-notebook.py" always_failing 4).
  vm_compute; reflexivity.
Defined.

(** ** [s3_example_upload.py]: the loop over the files *)

Lemma split_go_no_occurrence sep s :
  contains sep s = false -> split_go sep 0 s = [s].
Proof.
  induction s as [|c r IH]; simpl; [done|].
  intros H. apply orb_false_elim in H as [Hp Hr].
  change (match sep with
          | EmptyString => true
          | String a s1' =>
              if ascii_dec a c then String.prefix s1' r else false
          end) with (String.prefix sep (String c r)) in *.
  rewrite Hp. by rewrite (IH Hr).
Qed.

Lemma prefix_nil s : String.prefix "" s = true.
Proof. by destruct s. Qed.

(** X9.  The key of a file under [/global/] is the rest of its path, as
    long as that rest holds no further [global/]. *)
Theorem s3_key_of_global_path rest :
  contains "global/" rest = false ->
  s3_key_of ("/global/" +:+ rest) = Some rest.
Proof.
  intros H. unfold s3_key_of, str_split.
  change ("/global/" +:+ rest)
    with (String "/" (String "g" (String "l" (String "o" (String "b"
           (String "a" (String "l" (String "/" rest)))))))).
  simpl. rewrite prefix_nil.
  by rewrite (split_go_no_occurrence "global/" rest H).
Qed.

Lemma s3_key_of_global_path_witness :
  contains "global/" "cfs/cdirs/desi/zall-pix-fuji.fits" = false /\
  s3_key_of ("/global/" +:+ "cfs/cdirs/desi/zall-pix-fuji.fits")
    = Some "cfs/cdirs/desi/zall-pix-fuji.fits".
Proof.
  split; [vm_compute; reflexivity|].
  apply (s3_key_of_global_path "cfs/cdirs/desi/zall-pix-fuji.fits").
  vm_compute; reflexivity.
Defined.

Lemma s3_key_of_no_global file :
  contains "global/" file = false -> s3_key_of file = None.
Proof.
  intros H. unfold s3_key_of, str_split.
  by rewrite (split_go_no_occurrence _ _ H).
Qed.

Lemma upload_each_app env before after :
  upload_each env (before ++ after)
    = match upload_each env before with
      | (Returned, log) =>
          let (out, log') := upload_each env after in (out, log ++ log')
      | (Propagated e, log) => (Propagated e, log)
      end.
Proof.
  induction before as [|file rest IH]; simpl.
  - by destruct (upload_each env after).
  - destruct (str_split "global/" file !! 1%nat) as [s3_path|]; [|done].
    destruct (upload_file_to_s3_if_not_exists _ _ _ _) as [[|e] log]; [|done].
    rewrite IH. destruct (upload_each env rest) as [[|e] log1]; [|done].
    destruct (upload_each env after) as [out log2]. by rewrite app_assoc.
Qed.

(** X10.  A path without [global/] stops the script with an [IndexError]:
    the files before it have been dealt with, for the path itself and the
    files after it the store is not even asked. *)
Theorem path_without_global_stops_the_loop env before file after log :
  upload_each env before = (Returned, log) ->
  contains "global/" file = false ->
  upload_each env (before ++ file :: after) = (Propagated IndexError, log).
Proof.
  intros Hbefore Hfile. rewrite upload_each_app, Hbefore. simpl.
  change (str_split "global/" file !! 1%nat) with (s3_key_of file).
  rewrite (s3_key_of_no_global _ Hfile). by rewrite app_nil_r.
Qed.

Lemma path_without_global_stops_the_loop_witness :
  upload_each write_only_bucket files_to_upload
    = (Returned, snd (upload_each write_only_bucket files_to_upload)) /\
  contains "global/" "/scratch/zall-pix-fuji.fits" = false /\
  upload_each write_only_bucket
    (files_to_upload ++ "/scratch/zall-pix-fuji.fits" :: files_to_upload)
    = (Propagated IndexError,
       snd (upload_each write_only_bucket files_to_upload)).
Proof.
  split; [vm_compute; reflexivity|]. split; [vm_compute; reflexivity|].
  apply (path_without_global_stops_the_loop write_only_bucket files_to_upload
           "/scratch/zall-pix-fuji.fits" files_to_upload);
    vm_compute; reflexivity.
Defined.

Lemma upload_one env file_path bucket_name s3_path :
  client env = None ->
  (forall e, upload_file env file_path bucket_name s3_path = Some e ->
             is_Exception e = true) ->
  exists rest,
    upload_file_to_s3_if_not_exists env file_path bucket_name s3_path
      = (Returned, Head_object bucket_name s3_path :: rest) /\
    checks rest = [] /\
    uploads rest = match head_object env bucket_name s3_path with
                   | None => []
                   | Some _ => [Upload_file file_path bucket_name s3_path]
                   end.
Proof.
  intros Hclient Hexc. unfold upload_file_to_s3_if_not_exists. rewrite Hclient.
  destruct (head_object env bucket_name s3_path) as [e0|].
  - destruct (upload_file env file_path bucket_name s3_path) as [e|] eqn:Eup.
    + simpl. rewrite (Hexc e eq_refl). by eexists.
    + by eexists.
  - by eexists.
Qed.

(** X11.  When the client can be set up, every file has a key and the
    uploads raise nothing but instances of [Exception], the script goes
    through the whole list whatever fails on the way: it asks the store
    once about every file, in order, and attempts the upload of exactly
    the files for which that check raised. *)
Theorem every_file_is_checked env files :
  client env = None ->
  (forall file, file ∈ files -> is_Some (s3_key_of file)) ->
  (forall file s3_path e, file ∈ files ->
     upload_file env file BUCKET_NAME s3_path = Some e ->
     is_Exception e = true) ->
  fst (upload_each env files) = Returned /\
  checks (snd (upload_each env files))
    = map (fun file => Head_object BUCKET_NAME (default "" (s3_key_of file)))
          files /\
  uploads (snd (upload_each env files))
    = map (fun file => Upload_file file BUCKET_NAME (default "" (s3_key_of file)))
          (filter (fun file => is_Some (head_object env BUCKET_NAME
                                          (default "" (s3_key_of file))))
                  files).
Proof.
  intros Hclient. induction files as [|file rest IH]; intros Hkeys Hexc;
    [done|].
  simpl. change (str_split "global/" file !! 1%nat) with (s3_key_of file).
  destruct (Hkeys file) as [s3_path Hkey]; [by left|]. rewrite Hkey.
  destruct (upload_one env file BUCKET_NAME s3_path Hclient)
    as (log & -> & Hchecks & Huploads).
  { intros e. apply Hexc. by left. }
  destruct IH as (Hout & Hc & Hu).
  { intros f Hf. apply Hkeys. by right. }
  { intros f k e Hf. apply Hexc. by right. }
  destruct (upload_each env rest) as [out log']. simpl in *. subst out.
  split; [done|]. unfold checks, uploads in *.
  rewrite !filter_cons, !filter_app. simpl.
  rewrite Hchecks, Huploads, Hc, Hu. split; [done|].
  case_decide as Hd; simpl; rewrite ?Hkey; rewrite Hkey in Hd; simpl in *.
  - destruct Hd as [e0 He0]. by rewrite He0.
  - destruct (head_object env BUCKET_NAME s3_path) eqn:E; [|done].
    exfalso. apply Hd. by eexists.
Qed.

Lemma every_file_is_checked_witness :
  client write_only_bucket = None /\
  (forall file, file ∈ files_to_upload -> is_Some (s3_key_of file)) /\
  fst (upload_each write_only_bucket files_to_upload) = Returned /\
  checks (snd (upload_each write_only_bucket files_to_upload))
    = map (fun file => Head_object BUCKET_NAME (default "" (s3_key_of file)))
          files_to_upload /\
  uploads (snd (upload_each write_only_bucket files_to_upload))
    = map (fun file => Upload_file file BUCKET_NAME (default "" (s3_key_of file)))
          (filter (fun file => is_Some (head_object write_only_bucket BUCKET_NAME
                                          (default "" (s3_key_of file))))
                  files_to_upload).
Proof.
  assert (Hkeys : forall file, file ∈ files_to_upload -> is_Some (s3_key_of file)).
  { intros file Hin. apply list_elem_of_singleton in Hin. subst file.
    vm_compute. by eexists. }
  split; [reflexivity|]. split; [exact Hkeys|].
  apply (every_file_is_checked write_only_bucket files_to_upload);
    [reflexivity | exact Hkeys | discriminate].
Defined.

(** ** [main.py]: [load_display_img] *)

Lemma check_path_img_name : check_path img_name = Ok [img_name].
Proof. vm_compute. reflexivity. Qed.

Lemma open_wb_img_name w :
  node_at (nodes w) (cwd w) = Some Dir ->
  nodes w !! (img_name :: cwd w) <> Some Dir ->
  open_wb img_name w
    = (Ok {| f_loc := img_name :: cwd w; f_pos := 0 |},
       set_nodes (<[img_name :: cwd w := File []]> (nodes w)) w).
Proof.
  intros Hcwd Hnd. unfold open_wb. rewrite check_path_img_name.
  change (strip_trailing [img_name]) with [img_name].
  unfold parent_of, start_of. simpl removelast. simpl walk. rewrite Hcwd.
  change (List.last [img_name] "") with img_name.
  change (is_plain img_name) with true. simpl.
  by destruct (nodes w !! (img_name :: cwd w)) as [[|]|].
Qed.

(** X12.  The status of the reply is not looked at: whenever the body
    arrives whole, with status 200 or 404 or any other, it is saved under
    the image name in the working directory, replacing whatever file was
    there, before [astropy] is asked to open the URL. *)
Theorem image_is_saved_whatever_the_status srv fits_open_info w r :
  node_at (nodes w) (cwd w) = Some Dir ->
  nodes w !! (img_name :: cwd w) <> Some Dir ->
  srv (length (sent w)) img_url = Answered r -> broken r = None ->
  load_display_img srv fits_open_info w
    = fits_open_info img_url
        (set_nodes (<[img_name :: cwd w := File (concat (chunks r))]> (nodes w))
                   (logged img_url w)).
Proof.
  intros Hcwd Hnd Hsrv Hwhole.
  unfold load_display_img, requests_get_content, bind, requests_get.
  rewrite Hsrv, Hwhole. unfold ret.
  rewrite (open_wb_img_name (logged img_url w)) by done.
  unfold file_write. simpl. rewrite lookup_insert_eq, insert_insert_eq.
  change (write_at [] 0 (concat (chunks r)))
    with (write_at [] (length (@nil Byte.byte)) (concat (chunks r))).
  by rewrite write_at_end.
Qed.

Lemma image_is_saved_whatever_the_status_witness :
  node_at (nodes warm_disk) (cwd warm_disk) = Some Dir /\
  nodes warm_disk !! (img_name :: cwd warm_disk) <> Some Dir /\
  missing_store (length (sent warm_disk)) img_url = Answered not_found /\
  broken not_found = None /\
  load_display_img missing_store (fun _ => ret tt) warm_disk
    = (Ok tt,
       set_nodes (<[img_name :: cwd warm_disk := File (concat (chunks not_found))]>
                    (nodes warm_disk))
                 (logged img_url warm_disk)).
Proof.
  split; [reflexivity|]. split; [vm_compute; discriminate|].
  split; [reflexivity|]. split; [reflexivity|].
  apply (image_is_saved_whatever_the_status missing_store (fun _ => ret tt)
           warm_disk not_found);
    [reflexivity | vm_compute; discriminate | reflexivity | reflexivity].
Defined.

(** X13.  The body is read before the file is opened: when the request is
    refused, or the body breaks off, the call raises the transport error,
    no file is created or touched, and [astropy] is not reached. *)
Theorem failed_download_leaves_image_alone srv fits_open_info w what :
  srv (length (sent w)) img_url = Refused what \/
  (exists r, srv (length (sent w)) img_url = Answered r /\
             broken r = Some what) ->
  load_display_img srv fits_open_info w
    = (Raise (RequestException what), logged img_url w).
Proof.
  unfold load_display_img, requests_get_content, bind, requests_get.
  intros [->|(r & -> & ->)]; reflexivity.
Qed.

Lemma failed_download_leaves_image_alone_witness :
  (flaky_store (length (sent warm_disk)) img_url = Refused "Connection broken" \/
   exists r, flaky_store (length (sent warm_disk)) img_url = Answered r /\
             broken r = Some "Connection broken") /\
  load_display_img flaky_store (fun _ => ret tt) warm_disk
    = (Raise (RequestException "Connection broken"), logged img_url warm_disk).
Proof.
  assert (H : flaky_store (length (sent warm_disk)) img_url
                = Refused "Connection broken" \/
              exists r, flaky_store (length (sent warm_disk)) img_url = Answered r /\
                        broken r = Some "Connection broken").
  { right. exists cut_short. by split. }
  split; [exact H|].
  apply (failed_download_leaves_image_alone flaky_store (fun _ => ret tt)
           warm_disk "Connection broken" H).
Defined.

(** ** [data_upload.py]: strings *)

Lemma string_app_assoc a b c : (a +:+ b) +:+ c = a +:+ b +:+ c.
Proof.
  induction a as [|x a IH]; [done|].
  change ((String x a +:+ b) +:+ c) with (String x ((a +:+ b) +:+ c)).
  by rewrite IH.
Qed.

Lemma string_app_nil_r a : a +:+ "" = a.
Proof.
  induction a as [|x a IH]; [done|].
  change (String x a +:+ "") with (String x (a +:+ "")). by rewrite IH.
Qed.

Lemma endswith_sep_app a b : b <> "" -> endswith_sep (a +:+ b) = endswith_sep b.
Proof.
  intros Hb. induction a as [|c a IH]; [done|].
  change (String c a +:+ b) with (String c (a +:+ b)).
  destruct (a +:+ b) as [|c' r] eqn:E; [|exact IH].
  destruct a; [|discriminate]. change ("" +:+ b) with b in E. congruence.
Qed.

Lemma endswith_sep_split s :
  endswith_sep s = true -> exists s', s = s' +:+ "/".
Proof.
  induction s as [|c r IH]; [done|]. destruct r as [|c' r'].
  - simpl. intros Hc%is_sep_eq. subst c. by exists "".
  - intros H. destruct (IH H) as [s' Hs']. exists (String c s').
    change (String c s' +:+ "/") with (String c (s' +:+ "/")).
    by rewrite <- Hs'.
Qed.

Lemma components_app_sep a b :
  components (a +:+ "/" +:+ b) = components a ++ components b.
Proof.
  induction a as [|c a IH]; [done|].
  change (String c a +:+ "/" +:+ b) with (String c (a +:+ "/" +:+ b)).
  simpl. rewrite IH. destruct (is_sep c); [done|].
  pose proof (components_nonempty a). by destruct (components a).
Qed.

Lemma sep_free_components c : sep_free c = true -> components c = [c].
Proof.
  induction c as [|a c IH]; [done|]. simpl. intros H.
  apply andb_prop in H as [Ha Hc]. apply negb_true_iff in Ha.
  by rewrite Ha, (IH Hc).
Qed.

Lemma sep_free_endswith c : sep_free c = true -> endswith_sep c = false.
Proof.
  induction c as [|a c IH]; [done|]. simpl. intros H.
  apply andb_prop in H as [Ha Hc]. apply negb_true_iff in Ha.
  destruct c; [done|]. by apply IH.
Qed.

Lemma sep_free_startswith c : sep_free c = true -> startswith_sep c = false.
Proof.
  destruct c as [|a c]; [done|]. simpl. intros H.
  apply andb_prop in H as [Ha _]. by apply negb_true_iff in Ha.
Qed.

Lemma valid_name_inv c :
  valid_name c = true ->
  is_plain c = true /\ sep_free c = true /\ has_nul c = false /\ c <> "".
Proof.
  unfold valid_name. intros H. apply andb_prop in H as [H Hn].
  apply andb_prop in H as [Hp Hs]. apply negb_true_iff in Hn.
  split_and!; try done. intros ->. discriminate.
Qed.

(** Joining a name to a path that is not empty. *)
Lemma os_path_join_name a c :
  a <> "" -> valid_name c = true ->
  os_path_join a c = if endswith_sep a then a +:+ c else a +:+ "/" +:+ c.
Proof.
  intros Ha Hc. apply valid_name_inv in Hc as (_ & Hs & _). unfold os_path_join.
  rewrite (sep_free_startswith _ Hs).
  destruct a; [done|]. simpl String.eqb. done.
Qed.

Lemma append_nonempty a b : a <> "" -> a +:+ b <> "".
Proof. by destruct a. Qed.

Lemma os_path_join_name_nonempty a c :
  a <> "" -> valid_name c = true -> os_path_join a c <> "".
Proof.
  intros Ha Hc. rewrite os_path_join_name by done.
  destruct (endswith_sep a); by apply append_nonempty.
Qed.

Lemma os_path_join_name_endswith a c :
  a <> "" -> valid_name c = true -> endswith_sep (os_path_join a c) = false.
Proof.
  intros Ha Hc. rewrite os_path_join_name by done.
  apply valid_name_inv in Hc as (_ & Hs & _ & Hne).
  destruct (endswith_sep a).
  - rewrite endswith_sep_app by done. by apply sep_free_endswith.
  - rewrite endswith_sep_app by (by destruct c).
    change ("/" +:+ c) with (String "/" c). destruct c; [done|].
    apply (sep_free_endswith _ Hs).
Qed.

(** The components of a path with a name joined to it: those of the path,
    without the empty one a trailing separator gives, and the name. *)
Lemma components_join_name a c :
  a <> "" -> valid_name c = true ->
  exists cs,
    components (os_path_join a c) = cs ++ [c] /\
    (components a = cs \/ components a = cs ++ [""]).
Proof.
  intros Ha Hc. rewrite os_path_join_name by done.
  apply valid_name_inv in Hc as (_ & Hs & _).
  destruct (endswith_sep a) eqn:Ea.
  - destruct (endswith_sep_split _ Ea) as [a' ->].
    exists (components a'). rewrite string_app_assoc.
    change ("/" +:+ c) with ("/" +:+ c).
    rewrite components_app_sep, (sep_free_components _ Hs). split; [done|].
    right. by rewrite <- (string_app_nil_r (a' +:+ "/")), string_app_assoc,
      components_app_sep.
  - exists (components a).
    rewrite components_app_sep, (sep_free_components _ Hs). by split; [|left].
Qed.

Lemma join_all_snoc a names c :
  join_all a (names ++ [c]) = os_path_join (join_all a names) c.
Proof. unfold join_all. by rewrite fold_left_app. Qed.

Lemma join_all_nonempty a names :
  a <> "" -> forallb valid_name names = true -> join_all a names <> "".
Proof.
  revert a. induction names as [|c names IH]; intros a Ha Hn; [done|].
  simpl in *. apply andb_prop in Hn as [Hc Hn].
  apply IH; [|done]. by apply os_path_join_name_nonempty.
Qed.

Lemma startswith_sep_app a b : a <> "" -> startswith_sep (a +:+ b) = startswith_sep a.
Proof. by destruct a. Qed.

Lemma startswith_sep_join_name a c :
  a <> "" -> valid_name c = true ->
  startswith_sep (os_path_join a c) = startswith_sep a.
Proof.
  intros Ha Hc. rewrite os_path_join_name by done.
  destruct (endswith_sep a); by apply startswith_sep_app.
Qed.

(** Joining is associative as long as what is joined is relative. *)
Lemma os_path_join_assoc a r c :
  a <> "" -> r <> "" -> startswith_sep r = false -> valid_name c = true ->
  os_path_join a (os_path_join r c) = os_path_join (os_path_join a r) c.
Proof.
  intros Ha Hr Hrel Hc.
  assert (Hjoin : forall x, x <> "" -> startswith_sep x = false ->
            os_path_join a x = if endswith_sep a then a +:+ x
                               else a +:+ "/" +:+ x).
  { intros x Hx Hxr. unfold os_path_join. rewrite Hxr. by destruct a. }
  rewrite (Hjoin (os_path_join r c));
    [|by apply os_path_join_name_nonempty
     |by rewrite startswith_sep_join_name].
  rewrite (Hjoin r) by done.
  rewrite (os_path_join_name r) by done.
  assert (Hne : (if endswith_sep a then a +:+ r else a +:+ "/" +:+ r) <> "")
    by (destruct (endswith_sep a); by apply append_nonempty).
  rewrite os_path_join_name by done.
  assert (Hends : endswith_sep (if endswith_sep a then a +:+ r
                                else a +:+ "/" +:+ r) = endswith_sep r).
  { destruct (endswith_sep a).
    - by apply endswith_sep_app.
    - rewrite endswith_sep_app by (by destruct r).
      change ("/" +:+ r) with (String "/" r). by destruct r. }
  rewrite Hends.
  destruct (endswith_sep a), (endswith_sep r);
    by rewrite ?string_app_assoc.
Qed.

Lemma append_cons x a b : String x a +:+ b = String x (a +:+ b).
Proof. reflexivity. Qed.

Lemma append_nil b : "" +:+ b = b.
Proof. reflexivity. Qed.

Lemma prefix_cons p ps c s :
  String.prefix (String p ps) (String c s)
    = (Ascii.eqb c p && String.prefix ps s)%bool.
Proof.
  change (String.prefix (String p ps) (String c s))
    with (if ascii_dec p c then String.prefix ps s else false).
  destruct (ascii_dec p c) as [->|Hne].
  - by rewrite Ascii.eqb_refl.
  - apply not_eq_sym, Ascii.eqb_neq in Hne. by rewrite Hne.
Qed.

Lemma prefix_cons_nil p ps : String.prefix (String p ps) "" = false.
Proof. reflexivity. Qed.

(** The count of initial separators, read off the first three
    characters. *)
Lemma initial_slashes_of_cases s :
  initial_slashes_of s
    = match s with
      | String c1 r =>
          if is_sep c1 then
            match r with
            | String c2 r2 =>
                if is_sep c2 then
                  match r2 with
                  | String c3 _ => if is_sep c3 then 1%nat else 2%nat
                  | EmptyString => 2%nat
                  end
                else 1%nat
            | EmptyString => 1%nat
            end
          else 0%nat
      | EmptyString => 0%nat
      end.
Proof.
  unfold initial_slashes_of, is_sep.
  destruct s as [|c1 [|c2 [|c3 r]]]; try reflexivity;
    rewrite ?prefix_cons, ?prefix_cons_nil, ?prefix_nil;
    repeat (destruct (Ascii.eqb _ "/"); simpl; try reflexivity).
Qed.

Lemma initial_slashes_join_name a c :
  a <> "" -> valid_name c = true ->
  initial_slashes_of (os_path_join a c) = initial_slashes_of a.
Proof.
  intros Ha Hc. rewrite os_path_join_name by done.
  apply valid_name_inv in Hc as (_ & Hs & _ & Hne).
  destruct c as [|x c]; [done|]. simpl in Hs.
  apply andb_prop in Hs as [Hx _]. apply negb_true_iff in Hx.
  rewrite !initial_slashes_of_cases.
  destruct a as [|a1 [|a2 [|a3 a]]]; [done|..].
  - simpl endswith_sep. destruct (is_sep a1) eqn:E1;
      rewrite ?append_cons, ?append_nil, ?E1; change (is_sep "/") with true;
      by rewrite ?Hx.
  - simpl endswith_sep. destruct (is_sep a2) eqn:E2;
      rewrite ?append_cons, ?append_nil, ?E2; change (is_sep "/") with true;
      destruct (is_sep a1); by rewrite ?Hx.
  - destruct (endswith_sep _); by rewrite ?append_cons.
Qed.

Lemma normpath_step_name k new_comps c :
  valid_name c = true -> normpath_step k new_comps c = new_comps ++ [c].
Proof.
  intros Hc. apply valid_name_inv in Hc as (Hp & _). unfold normpath_step.
  unfold is_plain in Hp. apply negb_true_iff in Hp.
  apply orb_false_elim in Hp as [Hp Hdd].
  apply orb_false_elim in Hp as [He Hd]. by rewrite He, Hd, Hdd.
Qed.

Lemma normpath_comps_join_name k a c :
  a <> "" -> valid_name c = true ->
  fold_left (normpath_step k) (components (os_path_join a c)) []
    = fold_left (normpath_step k) (components a) [] ++ [c].
Proof.
  intros Ha Hc.
  destruct (components_join_name a c Ha Hc) as (cs & -> & [->| ->]);
    rewrite !fold_left_app; simpl; by rewrite normpath_step_name.
Qed.

Lemma forallb_removelast_sep_free l :
  forallb sep_free l = true -> forallb sep_free (removelast l) = true.
Proof. apply forallb_removelast. Qed.

Lemma components_sep_free s : forallb sep_free (components s) = true.
Proof.
  induction s as [|c r IH]; [done|]. simpl.
  destruct (is_sep c) eqn:Ec; [by simpl|].
  destruct (components r) as [|x xs]; simpl in *; by rewrite ?Ec.
Qed.

Lemma normpath_step_sep_free k acc c :
  forallb sep_free acc = true -> sep_free c = true ->
  forallb sep_free (normpath_step k acc c) = true.
Proof.
  intros Hacc Hc. unfold normpath_step.
  destruct (_ || _)%bool; [done|]. destruct (_ || _)%bool.
  - rewrite forallb_app. simpl. by rewrite Hacc, Hc.
  - by apply forallb_removelast.
Qed.

Lemma normpath_comps_sep_free k comps : forall acc,
  forallb sep_free acc = true -> forallb sep_free comps = true ->
  forallb sep_free (fold_left (normpath_step k) comps acc) = true.
Proof.
  induction comps as [|c comps IH]; intros acc Hacc Hcomps; [done|].
  simpl in *. apply andb_prop in Hcomps as [Hc Hcomps].
  apply IH; [|done]. by apply normpath_step_sep_free.
Qed.

Lemma components_sep_join l :
  l <> [] -> forallb sep_free l = true -> components (sep_join l) = l.
Proof.
  induction l as [|c l IH]; [done|]. intros _ Hl. simpl in Hl.
  apply andb_prop in Hl as [Hc Hl]. destruct l as [|d l'].
  - by apply sep_free_components.
  - change (sep_join (c :: d :: l')) with (c +:+ "/" +:+ sep_join (d :: l')).
    rewrite components_app_sep, (sep_free_components _ Hc), IH; done.
Qed.

Lemma components_slashes k s :
  components (slashes k +:+ s) = replicate k "" ++ components s.
Proof.
  induction k as [|k IH]; [done|].
  change (slashes (S k) +:+ s) with (String "/" (slashes k +:+ s)).
  simpl. by rewrite IH.
Qed.

Lemma filter_nonempty_replicate k l :
  List.filter nonempty (replicate k "" ++ l) = List.filter nonempty l.
Proof. induction k as [|k IH]; [done|]. exact IH. Qed.

(** What [relpath] makes of a normalised absolute path: its components
    that are not empty. *)
Lemma filter_components_normal k l :
  forallb sep_free l = true ->
  List.filter nonempty (components (slashes k +:+ sep_join l))
    = List.filter nonempty l.
Proof.
  intros Hl. rewrite components_slashes, filter_nonempty_replicate.
  destruct l as [|c l]; [done|]. by rewrite components_sep_join.
Qed.

Lemma filter_nonempty_names names :
  forallb valid_name names = true -> List.filter nonempty names = names.
Proof.
  induction names as [|c names IH]; [done|]. simpl. intros H.
  apply andb_prop in H as [Hc Hn].
  apply valid_name_inv in Hc as (_ & _ & _ & Hne).
  destruct c; [done|]. simpl. by rewrite IH.
Qed.

Lemma valid_names_sep_free names :
  forallb valid_name names = true -> forallb sep_free names = true.
Proof.
  induction names as [|c names IH]; [done|]. simpl. intros H.
  apply andb_prop in H as [Hc Hn].
  apply valid_name_inv in Hc as (_ & Hs & _). by rewrite Hs, IH.
Qed.

Lemma normpath_join_all k names : forall a,
  a <> "" -> forallb valid_name names = true ->
  initial_slashes_of (join_all a names) = initial_slashes_of a /\
  fold_left (normpath_step k) (components (join_all a names)) []
    = fold_left (normpath_step k) (components a) [] ++ names.
Proof.
  induction names as [|c names IH]; intros a Ha Hn.
  - by rewrite app_nil_r.
  - simpl in Hn. apply andb_prop in Hn as [Hc Hn].
    change (join_all a (c :: names)) with (join_all (os_path_join a c) names).
    destruct (IH (os_path_join a c)) as [Hk Hcomps];
      [by apply os_path_join_name_nonempty | done |].
    rewrite Hk, Hcomps, initial_slashes_join_name, normpath_comps_join_name
      by done.
    by rewrite <- app_assoc.
Qed.

Lemma os_getcwd_nonempty w : os_getcwd w <> "".
Proof. done. Qed.

Lemma abspath_arg_join_all w names : forall r,
  r <> "" -> forallb valid_name names = true ->
  (if startswith_sep (join_all r names) then join_all r names
   else os_path_join (os_getcwd w) (join_all r names))
    = join_all (if startswith_sep r then r else os_path_join (os_getcwd w) r)
               names.
Proof.
  induction names as [|c names IH]; intros r Hr Hn; [done|].
  simpl in Hn. apply andb_prop in Hn as [Hc Hn].
  change (join_all r (c :: names)) with (join_all (os_path_join r c) names).
  rewrite IH; [|by apply os_path_join_name_nonempty|done].
  rewrite startswith_sep_join_name by done.
  destruct (startswith_sep r) eqn:Hrel; [done|].
  by rewrite os_path_join_assoc.
Qed.

Lemma abspath_under w r names :
  r <> "" -> forallb valid_name names = true ->
  exists k nc,
    forallb sep_free nc = true /\
    os_path_abspath w r = slashes (S k) +:+ sep_join nc /\
    os_path_abspath w (join_all r names)
      = slashes (S k) +:+ sep_join (nc ++ names).
Proof.
  intros Hr Hn. unfold os_path_abspath. rewrite abspath_arg_join_all by done.
  set (a := if startswith_sep r then r else os_path_join (os_getcwd w) r).
  assert (Hjoin : startswith_sep r = false ->
            os_path_join (os_getcwd w) r
              = if endswith_sep (os_getcwd w) then os_getcwd w +:+ r
                else os_getcwd w +:+ "/" +:+ r).
  { intros E. unfold os_path_join. by rewrite E. }
  assert (Ha : a <> "").
  { subst a. destruct (startswith_sep r) eqn:E; [done|]. rewrite Hjoin by done.
    destruct (endswith_sep _); by apply append_nonempty. }
  assert (Habs : startswith_sep a = true).
  { subst a. destruct (startswith_sep r) eqn:E; [done|]. rewrite Hjoin by done.
    destruct (endswith_sep _); by rewrite startswith_sep_app. }
  assert (Hk : exists k, initial_slashes_of a = S k).
  { rewrite initial_slashes_of_cases. destruct a as [|c1 a']; [done|].
    simpl in Habs. rewrite Habs.
    destruct a' as [|c2 [|c3 a'']]; repeat (destruct (is_sep _)); by eexists. }
  destruct Hk as [k Hk].
  exists k, (fold_left (normpath_step (S k)) (components a) []).
  destruct (normpath_join_all (S k) names a Ha Hn) as [Hk' Hcomps].
  unfold os_path_normpath. rewrite Hk', Hk, Hcomps.
  pose proof (join_all_nonempty a names Ha Hn) as Hne.
  apply String.eqb_neq in Ha, Hne. rewrite Ha, Hne.
  split_and!; [|done..].
  apply normpath_comps_sep_free; [done | apply components_sep_free].
Qed.

Lemma string_compare_refl s : String.compare s s = Eq.
Proof.
  induction s as [|c s IH]; [done|]. simpl.
  unfold Ascii.compare. by rewrite N.compare_refl.
Qed.

Lemma list_compare_longer l x xs : list_compare (l ++ x :: xs) l = Gt.
Proof.
  induction l as [|c l IH]; [done|]. simpl. by rewrite string_compare_refl.
Qed.

Lemma common_prefix l rest : common l (l ++ rest) = l.
Proof.
  induction l as [|c l IH]; [by destruct rest|]. simpl.
  by rewrite String.eqb_refl, IH.
Qed.

Lemma os_path_commonprefix_prefix l rest : os_path_commonprefix l (l ++ rest) = l.
Proof.
  unfold os_path_commonprefix, list_min, list_max. destruct rest as [|x xs].
  - pose proof (common_prefix l []) as H. rewrite app_nil_r in *.
    by destruct (list_compare l l).
  - rewrite list_compare_longer. apply common_prefix.
Qed.

Lemma join_all_names names : forall a,
  a <> "" -> endswith_sep a = false -> forallb valid_name names = true ->
  join_all a names = match names with
                     | [] => a
                     | _ :: _ => a +:+ "/" +:+ sep_join names
                     end.
Proof.
  induction names as [|c names IH]; intros a Ha Hends Hn; [done|].
  simpl in Hn. apply andb_prop in Hn as [Hc Hn].
  change (join_all a (c :: names)) with (join_all (os_path_join a c) names).
  rewrite IH;
    [|by apply os_path_join_name_nonempty
     |by apply os_path_join_name_endswith|done].
  rewrite os_path_join_name, Hends by done.
  destruct names as [|d names']; [done|].
  change (sep_join (c :: d :: names')) with (c +:+ "/" +:+ sep_join (d :: names')).
  by rewrite !string_app_assoc.
Qed.

(** The path of a file below a folder, taken relative to that folder, is
    the names that lead to it, joined by separators. *)
Lemma relpath_under w r names :
  r <> "" -> names <> [] -> forallb valid_name names = true ->
  os_path_relpath w (join_all r names) r = Ok (sep_join names).
Proof.
  intros Hr Hne Hn. unfold os_path_relpath.
  pose proof (join_all_nonempty r names Hr Hn) as Hpath.
  apply String.eqb_neq in Hpath. rewrite Hpath.
  destruct (abspath_under w r names Hr Hn) as (k & nc & Hnc & -> & ->).
  rewrite !filter_components_normal;
    [|by rewrite forallb_app, Hnc, valid_names_sep_free|done].
  rewrite List.filter_app, (filter_nonempty_names _ Hn).
  rewrite os_path_commonprefix_prefix, Nat.sub_diag, drop_app_length. simpl.
  destruct names as [|c rest]; [done|]. simpl in Hn.
  apply andb_prop in Hn as [Hc Hrest].
  pose proof (valid_name_inv _ Hc) as (_ & Hs & _ & Hcne).
  rewrite join_all_names by (done || by apply sep_free_endswith).
  by destruct rest.
Qed.

(** ** [data_upload.py]: the walk *)

Lemma valid_names_lookup w q n :
  valid_names w = true -> nodes w !! q = Some n -> forallb valid_name q = true.
Proof.
  unfold valid_names. rewrite forallb_forall. intros H Hq.
  apply elem_of_map_to_list, list_elem_of_In in Hq. exact (H _ Hq).
Qed.

Lemma elem_of_children m q c n :
  (c, n) ∈ children m q <-> m !! (c :: q) = Some n.
Proof.
  unfold children. rewrite list_elem_of_omap. split.
  - intros ([k n'] & Hin & Hf). apply elem_of_map_to_list in Hin.
    simpl in Hf. destruct k as [|c' q']; [done|].
    case_bool_decide; [|done]. by simplify_eq.
  - intros H. exists (c :: q, n). split; [by apply elem_of_map_to_list|].
    simpl. by rewrite bool_decide_eq_true_2.
Qed.

Lemma elem_of_dir_names m q c :
  c ∈ dir_names (children m q) <-> m !! (c :: q) = Some Dir.
Proof.
  unfold dir_names. rewrite list_elem_of_omap. split.
  - intros ([c' n] & Hin & Hf). simpl in Hf. destruct n; [done|].
    simplify_eq. by apply elem_of_children.
  - intros H. exists (c, Dir). split; [by apply elem_of_children|done].
Qed.

Lemma elem_of_file_names m q c :
  c ∈ file_names (children m q) <-> exists data, m !! (c :: q) = Some (File data).
Proof.
  unfold file_names. rewrite list_elem_of_omap. split.
  - intros ([c' n] & Hin & Hf). simpl in Hf. destruct n as [data|]; [|done].
    simplify_eq. exists data. by apply elem_of_children.
  - intros [data H]. exists (c, File data).
    split; [by apply elem_of_children|done].
Qed.

Lemma walk_app m l1 : forall cur l2,
  walk m cur (l1 ++ l2)
    = match walk m cur l1 with
      | Ok d => walk m d l2
      | Raise e => Raise e
      end.
Proof.
  induction l1 as [|c l1 IH]; intros cur l2; simpl.
  - destruct l2; simpl; destruct (node_at m cur) as [[|]|] eqn:E;
      simpl; rewrite ?E; done.
  - destruct (node_at m cur) as [[|]|]; done.
Qed.

Lemma has_nul_app a b : has_nul (a +:+ b) = (has_nul a || has_nul b)%bool.
Proof.
  induction a as [|c a IH]; [done|]. rewrite append_cons. simpl.
  rewrite IH. by rewrite orb_assoc.
Qed.

Lemma os_stat_no_nul w path x : os_stat w path = Ok x -> has_nul path = false.
Proof.
  unfold os_stat, check_path. by destruct (has_nul path).
Qed.

Lemma os_stat_nonempty w path x : os_stat w path = Ok x -> path <> "".
Proof. intros H ->. discriminate. Qed.

Lemma has_nul_join_name a c :
  a <> "" -> valid_name c = true -> has_nul a = false ->
  has_nul (os_path_join a c) = false.
Proof.
  intros Ha Hc Hnul. rewrite os_path_join_name by done.
  apply valid_name_inv in Hc as (_ & _ & Hcn & _).
  destruct (endswith_sep a); rewrite !has_nul_app, Hnul, Hcn; done.
Qed.

Lemma start_of_snoc w cs c c' :
  cs <> [] -> start_of w (cs ++ [c]) = start_of w (cs ++ [c']).
Proof.
  intros H. unfold start_of. destruct cs as [|x [|y cs']]; [done| |];
    by destruct x.
Qed.

Lemma components_not_single_empty s : s <> "" -> components s <> [""].
Proof. intros Hs H. by apply components_single in H. Qed.

(** What a name joined to the path of a directory denotes: the entry of
    that name in the directory. *)
Lemma os_stat_join_name w top q c n :
  os_stat w top = Ok (q, Dir) -> valid_name c = true ->
  nodes w !! (c :: q) = Some n ->
  os_stat w (os_path_join top c) = Ok (c :: q, n).
Proof.
  intros Htop Hc Hn.
  pose proof (os_stat_nonempty _ _ _ Htop) as Hne.
  pose proof (os_stat_no_nul _ _ _ Htop) as Hnul.
  pose proof (has_nul_join_name _ _ Hne Hc Hnul) as Hnul'.
  pose proof (os_path_join_name_nonempty _ _ Hne Hc) as Hne'.
  destruct (components_join_name top c Hne Hc) as (cs & Hcomps & Htopc).
  pose proof (valid_name_inv _ Hc) as (Hplain & _).
  revert Htop. unfold os_stat, check_path. rewrite Hnul, Hnul'.
  apply String.eqb_neq in Hne'. rewrite Hne'.
  assert (Hne2 := Hne). apply String.eqb_neq in Hne2. rewrite Hne2.
  rewrite Hcomps. unfold parent_of.
  rewrite removelast_last, last_last.
  assert (Hcs : cs <> []).
  { intros ->. destruct Htopc as [H|H]; [by apply components_nonempty in H|].
    by apply components_not_single_empty in H. }
  destruct Htopc as [Htopc|Htopc]; rewrite Htopc.
  - destruct (exists_last Hcs) as (init & name & ->).
    rewrite removelast_last, last_last.
    assert (Hstart : start_of w ((init ++ [name]) ++ [c])
                     = start_of w (init ++ [name])).
    { unfold start_of. destruct init as [|x [|y init']]; simpl.
      - destruct name; [|done]. exfalso.
        by apply (components_not_single_empty top).
      - by destruct x.
      - by destruct x. }
    rewrite Hstart, walk_app.
    destruct (walk (nodes w) _ init) as [d0|] eqn:Ew; [|discriminate].
    destruct (node_at (nodes w) (enter d0 name)) as [n0|] eqn:E0;
      [|discriminate].
    intros [= <- ->]. simpl.
    rewrite (walk_is_dir _ _ _ _ Ew), E0, (enter_plain _ _ Hplain).
    simpl. by rewrite Hn.
  - rewrite removelast_last, last_last.
    rewrite (start_of_snoc w cs c "") by done.
    destruct (walk (nodes w) _ cs) as [d0|]; [|discriminate].
    change (enter d0 "") with d0.
    destruct (node_at (nodes w) d0) as [n0|] eqn:E0; [|discriminate].
    intros [= <- ->]. rewrite (enter_plain _ _ Hplain). simpl. by rewrite Hn.
Qed.

Lemma walk_raises_OSError m comps : forall cur e,
  walk m cur comps = Raise e -> exists n, e = OSError n.
Proof.
  induction comps as [|c rest IH]; intros cur e; simpl;
    destruct (node_at m cur) as [[|]|]; try discriminate;
    try (intros [= <-]; by eexists).
  apply IH.
Qed.

Lemma os_stat_raises w path e :
  has_nul path = false -> os_stat w path = Raise e -> exists n, e = OSError n.
Proof.
  intros Hnul. unfold os_stat, check_path, parent_of. rewrite Hnul.
  destruct (String.eqb path ""); [intros [= <-]; by eexists|].
  destruct (walk _ _ _) as [d|e'] eqn:Ew.
  - destruct (node_at _ _); [discriminate|]. intros [= <-]. by eexists.
  - intros [= <-]. by eapply walk_raises_OSError.
Qed.

Lemma os_scandir_dir w top q :
  os_stat w top = Ok (q, Dir) -> os_scandir w top = Ok (children (nodes w) q).
Proof. unfold os_scandir. by intros ->. Qed.

Lemma os_scandir_inv w top entries :
  os_scandir w top = Ok entries ->
  exists q, os_stat w top = Ok (q, Dir) /\ entries = children (nodes w) q.
Proof.
  unfold os_scandir. destruct (os_stat w top) as [[q [data|]]|]; try done.
  intros [= <-]. by exists q.
Qed.

Lemma os_scandir_raises w top e :
  has_nul top = false -> os_scandir w top = Raise e -> exists n, e = OSError n.
Proof.
  intros Hnul. unfold os_scandir.
  destruct (os_stat w top) as [[q [data|]]|e'] eqn:E; try done.
  - intros [= <-]. by eexists.
  - intros [= <-]. by eapply os_stat_raises.
Qed.

Lemma valid_child w q c n :
  valid_names w = true -> nodes w !! (c :: q) = Some n -> valid_name c = true.
Proof.
  intros Hv Hn. apply (valid_names_lookup _ _ _ Hv) in Hn. simpl in Hn.
  by apply andb_prop in Hn as [? _].
Qed.

Lemma for_folders_app {S : Type} (body : string -> list string -> S -> outcome * S)
  l1 : forall l2 s,
  for_folders body (l1 ++ l2) s
    = match for_folders body l1 s with
      | (Returned, s') => for_folders body l2 s'
      | (Propagated e, s') => (Propagated e, s')
      end.
Proof.
  induction l1 as [|[folder files] l1 IH]; intros l2 s; simpl; [done|].
  destruct (body folder files s) as [[|e] s']; [apply IH|done].
Qed.

(** The loop over [os.walk] is the loop over the folders it yields, as
    long as no path has a null character. *)
Lemma for_os_walk_folders {S : Type} (body : string -> list string -> S -> outcome * S)
  w : valid_names w = true -> forall depth top s,
  has_nul top = false ->
  for_os_walk depth w top (fun folder _ files => body folder files) s
    = for_folders body (walk_folders depth w top) s.
Proof.
  intros Hv. induction depth as [|depth IH]; intros top s Hnul; [done|].
  simpl. destruct (os_scandir w top) as [entries|e] eqn:Escan.
  - apply os_scandir_inv in Escan as (q & Hstat & ->). simpl.
    destruct (body top _ s) as [[|e] s']; [|done].
    assert (Hdirs : forall d, d ∈ dir_names (children (nodes w) q) ->
                    has_nul (os_path_join top d) = false).
    { intros d Hd. apply elem_of_dir_names in Hd.
      apply has_nul_join_name; [by eapply os_stat_nonempty| |done].
      by eapply valid_child. }
    revert s' Hdirs. generalize (dir_names (children (nodes w) q)).
    intros dirs. induction dirs as [|d dirs IHd]; intros s' Hdirs; [done|].
    simpl. rewrite for_folders_app, IH by (apply Hdirs; left).
    destruct (for_folders body _ s') as [[|e] s'']; [|done].
    apply IHd. intros d' Hd'. apply Hdirs. by right.
  - destruct (os_scandir_raises _ _ _ Hnul Escan) as [n ->]. done.
Qed.

Lemma upload_files_paths env w b root folder files : forall log,
  upload_files env w b root folder files log
    = upload_paths env w b root (map (os_path_join folder) files) log.
Proof.
  induction files as [|f files IH]; intros log; simpl; [done|].
  destruct (os_path_relpath w _ root); [|done].
  destruct (upload_file env _ b _); [done|]. apply IH.
Qed.

Lemma upload_paths_app env w b root l1 : forall l2 log,
  upload_paths env w b root (l1 ++ l2) log
    = match upload_paths env w b root l1 log with
      | (Returned, log') => upload_paths env w b root l2 log'
      | (Propagated e, log') => (Propagated e, log')
      end.
Proof.
  induction l1 as [|p l1 IH]; intros l2 log; simpl; [done|].
  destruct (os_path_relpath w p root); [|done].
  destruct (upload_file env p b _); [done|]. apply IH.
Qed.

Lemma for_folders_upload_paths env w b root folders : forall log,
  for_folders (upload_files env w b root) folders log
    = upload_paths env w b root
        (flat_map (fun folder => map (os_path_join (fst folder)) (snd folder))
                  folders) log.
Proof.
  induction folders as [|[folder files] folders IH]; intros log; simpl; [done|].
  rewrite upload_paths_app, upload_files_paths.
  destruct (upload_paths env w b root _ log) as [[|e] log']; [apply IH|done].
Qed.

(** [upload_to_s3] is one loop over the files of the walk. *)
Lemma upload_to_s3_paths env w b root :
  client env = None -> valid_names w = true -> has_nul root = false ->
  upload_to_s3 env w b root
    = upload_paths env w b root (walk_files (walk_depth w) w root) [].
Proof.
  intros Hc Hv Hnul. unfold upload_to_s3, walk_files. rewrite Hc.
  rewrite (for_os_walk_folders (upload_files env w b root)) by done.
  apply for_folders_upload_paths.
Qed.

(** Each folder of the walk is a directory reached from the top through
    names, and comes with the files of that directory. *)
Lemma walk_folders_sound w :
  valid_names w = true -> forall depth top q folder files,
  os_stat w top = Ok (q, Dir) ->
  In (folder, files) (walk_folders depth w top) ->
  exists ds, forallb valid_name ds = true /\ folder = join_all top ds /\
             os_stat w folder = Ok (rev ds ++ q, Dir) /\
             files = file_names (children (nodes w) (rev ds ++ q)).
Proof.
  intros Hv. induction depth as [|depth IH]; intros top q folder files Htop;
    [done|].
  simpl. rewrite (os_scandir_dir _ _ _ Htop). intros [[= <- <-]|Hin].
  - by exists [].
  - apply in_flat_map in Hin as (d & Hd & Hin).
    apply list_elem_of_In, elem_of_dir_names in Hd.
    pose proof (valid_child _ _ _ _ Hv Hd) as Hvd.
    pose proof (os_stat_join_name _ _ _ _ _ Htop Hvd Hd) as Hstat.
    destruct (IH _ _ _ _ Hstat Hin) as (ds & Hds & -> & Hf & ->).
    exists (d :: ds). simpl. rewrite Hvd, Hds, <- !app_assoc. done.
Qed.

(** Each file of the walk is a file below the top, at the end of a chain
    of names. *)
Lemma walk_files_sound w depth top q p :
  valid_names w = true -> os_stat w top = Ok (q, Dir) ->
  In p (walk_files depth w top) ->
  exists names data,
    names <> [] /\ forallb valid_name names = true /\
    p = join_all top names /\
    nodes w !! (rev names ++ q) = Some (File data) /\
    os_stat w p = Ok (rev names ++ q, File data).
Proof.
  intros Hv Htop Hin. unfold walk_files in Hin.
  apply in_flat_map in Hin as ([folder files] & Hfolder & Hin). simpl in Hin.
  apply in_map_iff in Hin as (f & <- & Hf).
  destruct (walk_folders_sound _ Hv _ _ _ _ _ Htop Hfolder)
    as (ds & Hds & -> & Hstat & ->).
  apply list_elem_of_In, elem_of_file_names in Hf as [data Hf].
  pose proof (valid_child _ _ _ _ Hv Hf) as Hvf.
  exists (ds ++ [f]), data. rewrite rev_app_distr. simpl.
  split_and!.
  - by destruct ds.
  - rewrite forallb_app, Hds. simpl. by rewrite Hvf.
  - by rewrite join_all_snoc.
  - done.
  - by apply os_stat_join_name.
Qed.

(** Without a directory at the top there is nothing to walk. *)
Lemma walk_files_no_dir w depth top :
  (forall q, os_stat w top <> Ok (q, Dir)) -> walk_files depth w top = [].
Proof.
  intros Hno. unfold walk_files. destruct depth as [|depth]; [done|]. simpl.
  destruct (os_scandir w top) as [entries|] eqn:E; [|done].
  apply os_scandir_inv in E as (q & Hq & _). by destruct (Hno q).
Qed.

(** Every directory reached from the top through directories is a folder
    of a walk that is deep enough. *)
Lemma walk_folders_complete w : forall ds depth top q,
  os_stat w top = Ok (q, Dir) ->
  forallb valid_name ds = true ->
  (forall pre post, ds = pre ++ post -> pre <> [] ->
                    nodes w !! (rev pre ++ q) = Some Dir) ->
  (length ds < depth)%nat ->
  In (join_all top ds, file_names (children (nodes w) (rev ds ++ q)))
     (walk_folders depth w top).
Proof.
  induction ds as [|d ds IH]; intros depth top q Htop Hv Hdirs Hlen;
    (destruct depth as [|depth]; [simpl in Hlen; lia|]);
    simpl; rewrite (os_scandir_dir _ _ _ Htop).
  - by left.
  - right. apply in_flat_map. exists d.
    simpl in Hv. apply andb_prop in Hv as [Hvd Hv].
    assert (Hd : nodes w !! (d :: q) = Some Dir)
      by (apply (Hdirs [d] ds); done).
    split; [by apply list_elem_of_In, elem_of_dir_names|].
    rewrite <- app_assoc. apply IH.
    + by apply os_stat_join_name.
    + done.
    + intros pre post -> Hpre.
      specialize (Hdirs (d :: pre) post eq_refl). simpl in Hdirs.
      rewrite <- app_assoc in Hdirs. by apply Hdirs.
    + simpl in Hlen. lia.
Qed.

Lemma walk_depth_bound w q n :
  nodes w !! q = Some n -> (length q < walk_depth w)%nat.
Proof.
  intros Hq. unfold walk_depth. apply elem_of_map_to_list in Hq.
  apply Nat.lt_succ_r.
  revert Hq. generalize (map_to_list (nodes w)). intros l.
  induction l as [|x l IH]; intros Hin; [by apply elem_of_nil in Hin|].
  simpl. apply elem_of_cons in Hin as [<-|Hin]; [simpl; lia|].
  specialize (IH Hin). lia.
Qed.

Lemma forallb_of_rev {A} (f : A -> bool) l :
  forallb f (rev l) = true -> forallb f l = true.
Proof.
  rewrite !forallb_forall. intros H x Hx. apply H. by apply in_rev in Hx.
Qed.

(** Every file below the top is a file of the walk. *)
Lemma walk_files_complete w top q names data :
  wf w -> valid_names w = true -> os_stat w top = Ok (q, Dir) ->
  names <> [] -> nodes w !! (rev names ++ q) = Some (File data) ->
  In (join_all top names) (walk_files (walk_depth w) w top).
Proof.
  intros Hwf Hv Htop Hne Hfile.
  destruct (exists_last Hne) as (ds & f & ->).
  rewrite rev_app_distr in Hfile. simpl in Hfile.
  pose proof (valid_names_lookup _ _ _ Hv Hfile) as Hvn. simpl in Hvn.
  apply andb_prop in Hvn as [Hvf Hvn]. rewrite forallb_app in Hvn.
  apply andb_prop in Hvn as [Hvds _]. apply forallb_of_rev in Hvds.
  unfold walk_files. apply in_flat_map.
  exists (join_all top ds, file_names (children (nodes w) (rev ds ++ q))).
  split.
  - apply walk_folders_complete; try done.
    + intros pre post -> Hpre. rewrite rev_app_distr, <- app_assoc in Hfile.
      assert (Hd : node_at (nodes w) (rev pre ++ q) = Some Dir).
      { apply (wf_ancestors w Hwf (f :: rev post)); [done|].
        by rewrite <- app_comm_cons. }
      unfold node_at in Hd. destruct (rev pre ++ q) eqn:E; [|done].
      apply app_eq_nil in E as [E _]. destruct pre; [done|].
      simpl in E. by apply app_eq_nil in E as [_ ?].
    + apply walk_depth_bound in Hfile. simpl in Hfile.
      rewrite length_app, length_rev in Hfile. lia.
  - simpl. rewrite join_all_snoc. apply in_map.
    apply list_elem_of_In, elem_of_file_names. by exists data.
Qed.

(** ** [data_upload.py]: [upload_to_s3] *)

Lemma upload_paths_events env w b root paths : forall log out log' p b' k,
  upload_paths env w b root paths log = (out, log') ->
  In (Upload_file p b' k) log' ->
  In (Upload_file p b' k) log \/
  (b' = b /\ In p paths /\ os_path_relpath w p root = Ok k).
Proof.
  induction paths as [|x paths IH]; intros log out log' p b' k; simpl.
  - intros [= <- <-]. by left.
  - destruct (os_path_relpath w x root) as [key|] eqn:Ekey;
      [|intros [= <- <-]; by left].
    destruct (upload_file env x b key).
    + intros [= <- <-] Hin. apply in_app_or in Hin as [Hin|[[= <- <- <-]|[]]];
        [by left|]. right. split_and!; [done|by left|done].
    + intros Hrun Hin.
      destruct (IH _ _ _ _ _ _ Hrun Hin) as [Hlog|(-> & Hp & Hk)].
      * apply in_app_or in Hlog as [Hlog|[[= <- <- <-]|[[=]|[]]]];
          [by left|]. right. split_and!; [done|by left|done].
      * right. split_and!; [done|by right|done].
Qed.

Lemma upload_paths_returned env w b root paths : forall log log',
  upload_paths env w b root paths log = (Returned, log') ->
  (forall ev, In ev log -> In ev log') /\
  (forall p, In p paths ->
     exists k, os_path_relpath w p root = Ok k /\
               upload_file env p b k = None /\
               In (Upload_file p b k) log' /\
               In (Print ("Uploaded " +:+ p +:+ " to " +:+ b +:+ "/" +:+ k))
                  log').
Proof.
  induction paths as [|x paths IH]; intros log log'; simpl.
  - intros [= <-]. by split.
  - destruct (os_path_relpath w x root) as [key|] eqn:Ekey; [|done].
    destruct (upload_file env x b key) eqn:Eup; [done|].
    intros Hrun. destruct (IH _ _ Hrun) as [Hlog Hpaths]. split.
    + intros ev Hev. apply Hlog, in_or_app. by left.
    + intros p [<-|Hp]; [|by apply Hpaths].
      exists key. split_and!; try done; apply Hlog, in_or_app; right.
      * by left.
      * right. by left.
Qed.

Lemma upload_paths_propagated env w b root paths : forall log e log',
  (forall p, In p paths -> exists k, os_path_relpath w p root = Ok k) ->
  upload_paths env w b root paths log = (Propagated e, log') ->
  exists before p k,
    In p paths /\ log' = before ++ [Upload_file p b k] /\
    os_path_relpath w p root = Ok k /\ upload_file env p b k = Some e.
Proof.
  induction paths as [|x paths IH]; intros log e log' Hkeys; simpl; [done|].
  destruct (Hkeys x) as [key Hkey]; [by left|]. rewrite Hkey.
  destruct (upload_file env x b key) as [e'|] eqn:Eup.
  - intros [= <- <-]. exists log, x, key. split_and!; try done. by left.
  - intros Hrun.
    destruct (IH _ _ _ (fun p Hp => Hkeys p (or_intror Hp)) Hrun)
      as (before & p & k & Hp & -> & Hk & Hup).
    exists before, p, k. split_and!; try done. by right.
Qed.

Lemma has_nul_root_uploads_nothing env w b root :
  has_nul root = true -> snd (upload_to_s3 env w b root) = [].
Proof.
  intros Hnul. unfold upload_to_s3. destruct (client env); [done|].
  unfold walk_depth. simpl. unfold os_scandir, os_stat, check_path.
  by rewrite Hnul.
Qed.

(** What an upload in the log of [upload_to_s3] is the upload of. *)
Lemma upload_event_inv env w b root p b' k :
  valid_names w = true ->
  In (Upload_file p b' k) (snd (upload_to_s3 env w b root)) ->
  b' = b /\
  exists q0 names data,
    os_stat w root = Ok (q0, Dir) /\ names <> [] /\
    forallb valid_name names = true /\
    p = join_all root names /\
    os_stat w p = Ok (rev names ++ q0, File data) /\
    k = sep_join names.
Proof.
  intros Hv Hin.
  destruct (has_nul root) eqn:Hnul;
    [by rewrite has_nul_root_uploads_nothing in Hin|].
  destruct (client env) as [e|] eqn:Hc;
    [unfold upload_to_s3 in Hin; by rewrite Hc in Hin|].
  rewrite upload_to_s3_paths in Hin by done.
  destruct (upload_paths env w b root _ []) as [out log] eqn:Erun.
  destruct (upload_paths_events _ _ _ _ _ _ _ _ _ _ _ Erun Hin)
    as [[]|(-> & Hp & Hk)].
  split; [done|].
  destruct (os_stat w root) as [[q0 [data0|]]|e] eqn:Eroot;
    try (rewrite walk_files_no_dir in Hp; [done|]; intros q; congruence).
  destruct (walk_files_sound _ _ _ _ _ Hv Eroot Hp)
    as (names & data & Hne & Hvn & -> & _ & Hstat).
  exists q0, names, data. split_and!; try done.
  rewrite relpath_under in Hk; [congruence| |done|done].
  by eapply os_stat_nonempty.
Qed.

(** X14. [upload_to_s3] on a root that is no directory (nothing there, or
    a file) uploads nothing and raises nothing: [os.walk] swallows the
    error of listing it. *)
Theorem root_that_is_no_directory_uploads_nothing env w b root :
  client env = None -> has_nul root = false ->
  (forall q, os_stat w root <> Ok (q, Dir)) ->
  upload_to_s3 env w b root = (Returned, []).
Proof.
  intros Hc Hnul Hno. unfold upload_to_s3, walk_depth. rewrite Hc. simpl.
  destruct (os_scandir w root) as [entries|e] eqn:E.
  - apply os_scandir_inv in E as (q & Hq & _). by destruct (Hno q).
  - by destruct (os_scandir_raises _ _ _ Hnul E) as [n ->].
Qed.

Lemma root_that_is_no_directory_uploads_nothing_witness :
  upload_to_s3 open_bucket tree_disk "bkt" "d/g" = (Returned, []) /\
  upload_to_s3 open_bucket tree_disk "bkt" "nowhere" = (Returned, []).
Proof.
  split.
  - apply (root_that_is_no_directory_uploads_nothing open_bucket tree_disk);
      [reflexivity | reflexivity | intros q; vm_compute; discriminate].
  - apply (root_that_is_no_directory_uploads_nothing open_bucket tree_disk);
      [reflexivity | reflexivity | intros q; vm_compute; discriminate].
Defined.

(** X15. Whatever [upload_to_s3] uploads is a file below the root: the
    path handed to [upload_file] is the root with a chain of names joined
    to it and denotes a file at these names below the directory of the
    root, the bucket is the one given, and the key is the names joined
    with [/] (the path relative to the root).  The names of the file
    system are plain: none is empty, [.] or [..], none has a separator or
    a null character. *)
Theorem uploads_are_files_below_root env w b root p b' k :
  valid_names w = true ->
  In (Upload_file p b' k) (snd (upload_to_s3 env w b root)) ->
  b' = b /\
  exists q0 names data,
    os_stat w root = Ok (q0, Dir) /\ names <> [] /\
    p = join_all root names /\
    os_stat w p = Ok (rev names ++ q0, File data) /\
    k = sep_join names.
Proof.
  intros Hv Hin.
  destruct (upload_event_inv _ _ _ _ _ _ _ Hv Hin)
    as (-> & q0 & names & data & H1 & H2 & _ & H3 & H4 & H5).
  split; [done|]. by exists q0, names, data.
Qed.

Lemma uploads_are_files_below_root_witness :
  "bkt" = "bkt" /\
  exists q0 names data,
    os_stat tree_disk "d" = Ok (q0, Dir) /\ names <> [] /\
    "d/e/h" = join_all "d" names /\
    os_stat tree_disk "d/e/h" = Ok (rev names ++ q0, File data) /\
    "e/h" = sep_join names.
Proof.
  apply (uploads_are_files_below_root open_bucket tree_disk "bkt" "d").
  - vm_compute. reflexivity.
  - vm_compute. right. right. left. reflexivity.
Defined.

(** X16. When [upload_to_s3] returns, every file below the root, at any
    depth, has been uploaded under the key that is its path relative to
    the root, and its [Uploaded] line has been printed.  The file system
    is well formed (what holds an entry is a directory) and its names are
    plain. *)
Theorem returned_upload_covers_every_file env w b root q0 log names data :
  wf w -> valid_names w = true ->
  os_stat w root = Ok (q0, Dir) ->
  upload_to_s3 env w b root = (Returned, log) ->
  names <> [] -> nodes w !! (rev names ++ q0) = Some (File data) ->
  In (Upload_file (join_all root names) b (sep_join names)) log /\
  In (Print ("Uploaded " +:+ join_all root names +:+ " to " +:+ b +:+ "/"
             +:+ sep_join names)) log.
Proof.
  intros Hwf Hv Hroot Hrun Hne Hfile.
  destruct (client env) as [e|] eqn:Hc;
    [unfold upload_to_s3 in Hrun; by rewrite Hc in Hrun|].
  rewrite upload_to_s3_paths in Hrun;
    [|done|done|by eapply os_stat_no_nul].
  apply upload_paths_returned in Hrun as [_ Hpaths].
  destruct (Hpaths (join_all root names)) as (k & Hk & _ & Hup & Hprint).
  { by eapply walk_files_complete. }
  pose proof (valid_names_lookup _ _ _ Hv Hfile) as Hvn.
  rewrite forallb_app in Hvn. apply andb_prop in Hvn as [Hvn _].
  apply forallb_of_rev in Hvn.
  rewrite relpath_under in Hk; [|by eapply os_stat_nonempty|done|done].
  by injection Hk as <-.
Qed.

Lemma returned_upload_covers_every_file_witness :
  In (Upload_file (join_all "d" ["e"; "h"]) "bkt" (sep_join ["e"; "h"]))
     (snd (upload_to_s3 open_bucket tree_disk "bkt" "d")) /\
  In (Print ("Uploaded " +:+ join_all "d" ["e"; "h"] +:+ " to " +:+ "bkt" +:+ "/"
             +:+ sep_join ["e"; "h"]))
     (snd (upload_to_s3 open_bucket tree_disk "bkt" "d")).
Proof.
  apply (returned_upload_covers_every_file open_bucket tree_disk "bkt" "d"
           ["d"; "app"] _ ["e"; "h"] half2).
  - apply wfb_wf. vm_compute. reflexivity.
  - vm_compute. reflexivity.
  - vm_compute. reflexivity.
  - vm_compute. reflexivity.
  - discriminate.
  - vm_compute. reflexivity.
Defined.

(** X17. Once the client exists, the only exception [upload_to_s3] lets
    out is that of an upload, and it ends the walk there: the failed
    upload is the last thing the function did, with no [Uploaded] line
    after it, and what comes later in the walk is not uploaded.  The
    root has no null character and the names of the file system are
    plain. *)
Theorem failed_upload_ends_the_walk env w b root e log :
  client env = None -> valid_names w = true -> has_nul root = false ->
  upload_to_s3 env w b root = (Propagated e, log) ->
  exists before p k,
    log = before ++ [Upload_file p b k] /\
    upload_file env p b k = Some e.
Proof.
  intros Hc Hv Hnul Hrun. rewrite upload_to_s3_paths in Hrun by done.
  apply upload_paths_propagated in Hrun
    as (before & p & k & _ & -> & _ & Hup).
  - by exists before, p, k.
  - intros p Hp.
    destruct (os_stat w root) as [[q0 [data0|]]|e'] eqn:Eroot;
      try (rewrite walk_files_no_dir in Hp; [done|]; intros q; congruence).
    destruct (walk_files_sound _ _ _ _ _ Hv Eroot Hp)
      as (names & data & Hne & Hvn & -> & _ & _).
    exists (sep_join names). apply relpath_under; [|done|done].
    by eapply os_stat_nonempty.
Qed.

Lemma failed_upload_ends_the_walk_witness :
  exists before p k,
    [Upload_file "d/g" "bkt" "g"] = before ++ [Upload_file p "bkt" k] /\
    upload_file picky_bucket p "bkt" k
      = Some {| is_Exception := true; text := "Access Denied" |}.
Proof.
  apply (failed_upload_ends_the_walk picky_bucket tree_disk "bkt" "d").
  - reflexivity.
  - vm_compute. reflexivity.
  - reflexivity.
  - vm_compute. reflexivity.
Defined.

(** X18. No two files share a key: two uploads of one call of
    [upload_to_s3] with the same key are uploads of the same path, so no
    file of the tree overwrites another one in the bucket.  The names of
    the file system are plain. *)
Theorem same_key_same_file env w b root p1 p2 b1 b2 k :
  valid_names w = true ->
  In (Upload_file p1 b1 k) (snd (upload_to_s3 env w b root)) ->
  In (Upload_file p2 b2 k) (snd (upload_to_s3 env w b root)) ->
  p1 = p2.
Proof.
  intros Hv H1 H2.
  destruct (upload_event_inv _ _ _ _ _ _ _ Hv H1)
    as (_ & q1 & names1 & data1 & _ & Hne1 & Hv1 & -> & _ & Hk1).
  destruct (upload_event_inv _ _ _ _ _ _ _ Hv H2)
    as (_ & q2 & names2 & data2 & _ & Hne2 & Hv2 & -> & _ & Hk2).
  f_equal.
  rewrite <- (components_sep_join names1), <- (components_sep_join names2);
    try done; try by apply valid_names_sep_free.
  congruence.
Qed.

Lemma same_key_same_file_witness : "d/e/h" = "d/e/h".
Proof.
  apply (same_key_same_file open_bucket tree_disk "bkt" "d" _ _ "bkt" "bkt" "e/h").
  - vm_compute. reflexivity.
  - vm_compute. right. right. left. reflexivity.
  - vm_compute. right. right. left. reflexivity.
Defined.
